(** * CM256: Cauchy-matrix erasure code over GF(256)

    A shallow embedding of [src/kernel/cm256.c] (encoder, decoder bookkeeping,
    LDU factorisation of the Cauchy sub-matrix, decode solver), and proofs of
    its specification.

    Conventions of the embedding:
    - [uint8_t] / [unsigned char] is [Byte.byte]; C [int] is [Z], and a sum
      of parameter fields, which the code computes whatever these hold, is
      [int_add], the sum of 32-bit integers.
    - A pointer to a [cm256_block] is the position ([Z]) of the descriptor in
      the caller's [blocks] array; a descriptor owns the buffer its [Block]
      field points to (the buffers of distinct descriptors do not overlap).
    - A pointer into a byte array is an offset ([Z]) into that array.
    - Memory that the C code leaves uninitialised ([kmalloc], stack arrays)
      holds arbitrary contents, given by the section variables [uninit8] and
      [uninitp]. *)

From Stdlib Require Import ZArith List Lia Bool Field Permutation.
From Stdlib.Strings Require Import Byte.
Import ListNotations.
Local Open Scope Z_scope.

(** ** GF(256) arithmetic (external collaborator) *)

Definition bits8 : Type :=
  (bool * (bool * (bool * (bool * (bool * (bool * (bool * bool)))))))%type.

Definition xor8 (a b : bits8) : bits8 :=
  let '(a0, (a1, (a2, (a3, (a4, (a5, (a6, a7))))))) := a in
  let '(b0, (b1, (b2, (b3, (b4, (b5, (b6, b7))))))) := b in
  (xorb a0 b0, (xorb a1 b1, (xorb a2 b2, (xorb a3 b3,
  (xorb a4 b4, (xorb a5 b5, (xorb a6 b6, xorb a7 b7))))))).

(** Modelled from the spec: [gf256_add] of the GF(256) backend ([gf256.h] is
    not among the sources).  "add(a, b) = a XOR b". *)
Definition gf256_add (x y : byte) : byte := of_bits (xor8 (to_bits x) (to_bits y)).

(** Multiplication by the indeterminate, reduced by the field polynomial
    x^8 + x^6 + x^3 + x^2 + 1 (0x14D). *)
Definition xtime (a : byte) : byte :=
  let '(a0, (a1, (a2, (a3, (a4, (a5, (a6, a7))))))) := to_bits a in
  let s := of_bits (false, (a0, (a1, (a2, (a3, (a4, (a5, a6))))))) in
  if a7 then gf256_add s x4d else s.

Definition bits_list (b : byte) : list bool :=
  let '(a0, (a1, (a2, (a3, (a4, (a5, (a6, a7))))))) := to_bits b in
  [a0; a1; a2; a3; a4; a5; a6; a7].

Fixpoint mulbits (a : byte) (bs : list bool) : byte :=
  match bs with
  | [] => x00
  | c :: cs => gf256_add (if c then a else x00) (mulbits (xtime a) cs)
  end.

(** Modelled from the spec: [gf256_mul] of the GF(256) backend, "mul(a, b)
    over the chosen polynomial": the product of the two bytes as polynomials
    over GF(2), reduced by a fixed irreducible polynomial of degree 8 (here
    0x14D). *)
Definition gf256_mul (x y : byte) : byte := mulbits x (bits_list y).

Definition gf256_sqr (x : byte) : byte := gf256_mul x x.

(** The inverse as the 254-th power; the inverse of zero is zero. *)
Definition gf256_inv (x : byte) : byte :=
  let x2 := gf256_sqr x in
  let x4 := gf256_sqr x2 in
  let x8 := gf256_sqr x4 in
  let x16 := gf256_sqr x8 in
  let x32 := gf256_sqr x16 in
  let x64 := gf256_sqr x32 in
  let x128 := gf256_sqr x64 in
  gf256_mul x2 (gf256_mul x4 (gf256_mul x8 (gf256_mul x16
    (gf256_mul x32 (gf256_mul x64 x128))))).

(** Modelled from the spec: [gf256_div] of the GF(256) backend, "div(a, b)
    over the chosen polynomial" (the quotient by zero, which the spec leaves
    open, is zero here). *)
Definition gf256_div (x y : byte) : byte := gf256_mul x (gf256_inv y).

(** ** Integers, arrays, pointers and loops of the C code *)

(** [(uint8_t) z] *)
Definition u8 (z : Z) : byte :=
  match of_N (Z.to_N (z mod 256)) with Some b => b | None => x00 end.

(** The value of an [unsigned char] promoted to [int]. *)
Definition int_of (b : byte) : Z := Z.of_N (to_N b).

(** [int] has 32 bits.  The sum of two [int]s that leaves the range of
    [int] wraps around (two's complement): ISO C leaves the overflow of a
    signed sum open, and this is what the compiled code computes. *)
Definition INT_MIN : Z := -2147483648.
Definition INT_MAX : Z := 2147483647.

Definition int_add (a b : Z) : Z := (a + b - INT_MIN) mod 4294967296 + INT_MIN.

Fixpoint upd {A} (n : nat) (v : A) (l : list A) : list A :=
  match l, n with
  | [], _ => []
  | _ :: l', O => v :: l'
  | a :: l', S n' => a :: upd n' v l'
  end.

(** [a[p]] and [a[p] = v] on an array of bytes. *)
Definition load (m : list byte) (p : Z) : byte := nth (Z.to_nat p) m x00.
Definition store (m : list byte) (p : Z) (v : byte) : list byte := upd (Z.to_nat p) v m.

(** The same on an array of pointers (NULL is -1). *)
Definition loadp (m : list Z) (p : Z) : Z := nth (Z.to_nat p) m (-1).
Definition storep (m : list Z) (p : Z) (v : Z) : list Z := upd (Z.to_nat p) v m.

(** [f] run on the memory that starts at offset [p] of [mem]. *)
Definition at_ptr (p : Z) (f : list byte -> list byte) (mem : list byte) : list byte :=
  firstn (Z.to_nat p) mem ++ f (skipn (Z.to_nat p) mem).

Fixpoint iter_up {S} (n : nat) (i : Z) (body : Z -> S -> S) (s : S) : S :=
  match n with
  | O => s
  | Datatypes.S n' => iter_up n' (i + 1) body (body i s)
  end.

(** [for (i = lo; i < hi; ++i) body] *)
Definition for_up {S} (lo hi : Z) (body : Z -> S -> S) (s : S) : S :=
  iter_up (Z.to_nat (hi - lo)) lo body s.

Fixpoint iter_down {S} (n : nat) (i : Z) (body : Z -> S -> S) (s : S) : S :=
  match n with
  | O => s
  | Datatypes.S n' => iter_down n' (i - 1) body (body i s)
  end.

(** [for (i = hi; i >= lo; --i) body] *)
Definition for_down {S} (hi lo : Z) (body : Z -> S -> S) (s : S) : S :=
  iter_down (Z.to_nat (hi - lo + 1)) hi body s.

(** A loop body that may leave the loop ([break], [return]). *)
Inductive ctl (S R : Type) : Type :=
| Next (s : S)
| Exit (r : R).
Arguments Next {S R} s.
Arguments Exit {S R} r.

Fixpoint iter_up_ctl {S R} (n : nat) (i : Z) (body : Z -> S -> ctl S R) (s : S) : ctl S R :=
  match n with
  | O => Next s
  | Datatypes.S n' =>
      match body i s with
      | Next s' => iter_up_ctl n' (i + 1) body s'
      | Exit r => Exit r
      end
  end.

Definition for_up_ctl {S R} (lo hi : Z) (body : Z -> S -> ctl S R) (s : S) : ctl S R :=
  iter_up_ctl (Z.to_nat (hi - lo)) lo body s.

(** ** Bulk operations of the GF(256) backend *)

(** [dst[i] = f i dst[i]] for the first [n] bytes of [dst], counting from [i]. *)
Fixpoint mem_set (n i : nat) (f : nat -> byte -> byte) (dst : list byte) : list byte :=
  match n, dst with
  | Datatypes.S n', d :: dst' => f i d :: mem_set n' (Datatypes.S i) f dst'
  | _, _ => dst
  end.

Definition byte_at (src : list byte) (i : nat) : byte := nth i src x00.

(** [memcpy(dst, src, n)] *)
Definition memcpy (dst src : list byte) (n : Z) : list byte :=
  mem_set (Z.to_nat n) 0 (fun i _ => byte_at src i) dst.

(** Modelled from the spec: "add_mem(dst, src, n): dst[i] ^= src[i]". *)
Definition gf256_add_mem (dst src : list byte) (bytes : Z) : list byte :=
  mem_set (Z.to_nat bytes) 0 (fun i d => gf256_add d (byte_at src i)) dst.

(** Modelled from the spec: "add2_mem(dst, a, b, n): dst[i] ^= a[i] ^ b[i]". *)
Definition gf256_add2_mem (dst a b : list byte) (bytes : Z) : list byte :=
  mem_set (Z.to_nat bytes) 0
    (fun i d => gf256_add d (gf256_add (byte_at a i) (byte_at b i))) dst.

(** Modelled from the spec: "addset_mem(dst, a, b, n): dst[i] = a[i] ^ b[i]". *)
Definition gf256_addset_mem (dst a b : list byte) (bytes : Z) : list byte :=
  mem_set (Z.to_nat bytes) 0 (fun i _ => gf256_add (byte_at a i) (byte_at b i)) dst.

(** Modelled from the spec: "mul_mem(dst, src, c, n): dst[i] = c . src[i]". *)
Definition gf256_mul_mem (dst src : list byte) (c : byte) (bytes : Z) : list byte :=
  mem_set (Z.to_nat bytes) 0 (fun i _ => gf256_mul c (byte_at src i)) dst.

(** Modelled from the spec: "muladd_mem(dst, c, src, n): dst[i] ^= c . src[i]". *)
Definition gf256_muladd_mem (dst : list byte) (c : byte) (src : list byte) (bytes : Z)
  : list byte :=
  mem_set (Z.to_nat bytes) 0 (fun i d => gf256_add d (gf256_mul c (byte_at src i))) dst.

(** Modelled from the spec: "div_mem(dst, src, c, n): dst[i] = src[i] / c". *)
Definition gf256_div_mem (dst src : list byte) (c : byte) (bytes : Z) : list byte :=
  mem_set (Z.to_nat bytes) 0 (fun i _ => gf256_div (byte_at src i) c) dst.

(** ** Parameters and block descriptors ([cm256.h]) *)

Record cm256_encoder_params : Type := {
  OriginalCount : Z;
  RecoveryCount : Z;
  BlockBytes : Z
}.

Record cm256_block : Type := {
  Block : list byte;
  Index : byte
}.

(** [blocks[p]], and the stores [blocks[p].Block[..] = ..], [blocks[p].Index = ..]. *)
Definition blk (blocks : list cm256_block) (p : Z) : cm256_block :=
  nth (Z.to_nat p) blocks {| Block := []; Index := x00 |}.

Definition set_Block (blocks : list cm256_block) (p : Z) (buf : list byte)
  : list cm256_block :=
  upd (Z.to_nat p) {| Block := buf; Index := Index (blk blocks p) |} blocks.

Definition set_Index (blocks : list cm256_block) (p : Z) (idx : byte)
  : list cm256_block :=
  upd (Z.to_nat p) {| Block := Block (blk blocks p); Index := idx |} blocks.

(** ** Matrix element generator *)

Definition GetMatrixElement (x_i x_0 y_j : byte) : byte :=
  gf256_div (gf256_add y_j x_0) (gf256_add x_i y_j).

(** ** Encoding *)

(** [recoveryBlock] is the memory the output pointer points to; the result is
    that memory after the call. *)
Definition cm256_encode_block (params : cm256_encoder_params)
    (originals : list cm256_block) (recoveryBlockIndex : Z)
    (recoveryBlock : list byte) : list byte :=
  if OriginalCount params =? 1 then
    memcpy recoveryBlock (Block (blk originals 0)) (BlockBytes params)
  else if recoveryBlockIndex =? OriginalCount params then
    let recoveryBlock :=
      gf256_addset_mem recoveryBlock (Block (blk originals 0))
        (Block (blk originals 1)) (BlockBytes params) in
    for_up 2 (OriginalCount params)
      (fun j recoveryBlock =>
         gf256_add_mem recoveryBlock (Block (blk originals j)) (BlockBytes params))
      recoveryBlock
  else
    let x_0 := u8 (OriginalCount params) in
    let x_i := u8 recoveryBlockIndex in
    let y_0 := x00 in
    let matrixElement := GetMatrixElement x_i x_0 y_0 in
    let recoveryBlock :=
      gf256_mul_mem recoveryBlock (Block (blk originals 0)) matrixElement
        (BlockBytes params) in
    for_up 1 (OriginalCount params)
      (fun j recoveryBlock =>
         let y_j := u8 j in
         let matrixElement := GetMatrixElement x_i x_0 y_j in
         gf256_muladd_mem recoveryBlock matrixElement (Block (blk originals j))
           (BlockBytes params))
      recoveryBlock.

(** A null pointer argument is [None].  The result is the return code and the
    output region after the call. *)
Definition cm256_encode (params : cm256_encoder_params)
    (originals : option (list cm256_block)) (recoveryBlocks : option (list byte))
  : Z * option (list byte) :=
  if (OriginalCount params <=? 0) || (RecoveryCount params <=? 0)
     || (BlockBytes params <=? 0) then (-1, recoveryBlocks)
  else if int_add (OriginalCount params) (RecoveryCount params) >? 256
  then (-2, recoveryBlocks)
  else
    match originals, recoveryBlocks with
    | Some originals, Some out =>
        let '(_, out) :=
          for_up 0 (RecoveryCount params)
            (fun block '(recoveryBlock, out) =>
               (recoveryBlock + BlockBytes params,
                at_ptr recoveryBlock
                  (cm256_encode_block params originals
                     (int_add (OriginalCount params) block))
                  out))
            (0, out) in
        (0, Some out)
    | _, _ => (-3, recoveryBlocks)
    end.

(** ** Decoding *)

Record CM256Decoder : Type := {
  Params : cm256_encoder_params;
  Recovery : list Z;
  dec_RecoveryCount : Z;
  Original : list Z;
  dec_OriginalCount : Z;
  ErasuresIndices : list byte
}.

Definition set_Params (d : CM256Decoder) (p : cm256_encoder_params) : CM256Decoder :=
  {| Params := p; Recovery := Recovery d; dec_RecoveryCount := dec_RecoveryCount d;
     Original := Original d; dec_OriginalCount := dec_OriginalCount d;
     ErasuresIndices := ErasuresIndices d |}.
Definition set_Recovery (d : CM256Decoder) (r : list Z) : CM256Decoder :=
  {| Params := Params d; Recovery := r; dec_RecoveryCount := dec_RecoveryCount d;
     Original := Original d; dec_OriginalCount := dec_OriginalCount d;
     ErasuresIndices := ErasuresIndices d |}.
Definition set_RecoveryCount (d : CM256Decoder) (n : Z) : CM256Decoder :=
  {| Params := Params d; Recovery := Recovery d; dec_RecoveryCount := n;
     Original := Original d; dec_OriginalCount := dec_OriginalCount d;
     ErasuresIndices := ErasuresIndices d |}.
Definition set_Original (d : CM256Decoder) (o : list Z) : CM256Decoder :=
  {| Params := Params d; Recovery := Recovery d; dec_RecoveryCount := dec_RecoveryCount d;
     Original := o; dec_OriginalCount := dec_OriginalCount d;
     ErasuresIndices := ErasuresIndices d |}.
Definition set_OriginalCount (d : CM256Decoder) (n : Z) : CM256Decoder :=
  {| Params := Params d; Recovery := Recovery d; dec_RecoveryCount := dec_RecoveryCount d;
     Original := Original d; dec_OriginalCount := n;
     ErasuresIndices := ErasuresIndices d |}.
Definition set_ErasuresIndices (d : CM256Decoder) (e : list byte) : CM256Decoder :=
  {| Params := Params d; Recovery := Recovery d; dec_RecoveryCount := dec_RecoveryCount d;
     Original := Original d; dec_OriginalCount := dec_OriginalCount d;
     ErasuresIndices := e |}.

(** The result is the return code and the decoder state after the call. *)
Definition Initialize (decoder : CM256Decoder) (params : cm256_encoder_params)
    (blocks : list cm256_block) : Z * CM256Decoder :=
  let block := 0 in
  let decoder := set_Params decoder params in
  let decoder := set_OriginalCount decoder 0 in
  let decoder := set_RecoveryCount decoder 0 in
  let decoder :=
    for_up 0 (OriginalCount params)
      (fun ii decoder =>
         set_ErasuresIndices decoder (store (ErasuresIndices decoder) ii x00))
      decoder in
  match
    for_up_ctl 0 (OriginalCount params)
      (fun ii '(block, decoder) =>
         let row := int_of (Index (blk blocks block)) in
         if row <? OriginalCount params then
           let decoder :=
             set_Original decoder
               (storep (Original decoder) (dec_OriginalCount decoder) block) in
           let decoder := set_OriginalCount decoder (dec_OriginalCount decoder + 1) in
           if negb (Byte.eqb (load (ErasuresIndices decoder) row) x00) then
             Exit (-1, decoder)
           else
             Next (block + 1,
                   set_ErasuresIndices decoder
                     (store (ErasuresIndices decoder) row x01))
         else
           let decoder :=
             set_Recovery decoder
               (storep (Recovery decoder) (dec_RecoveryCount decoder) block) in
           let decoder := set_RecoveryCount decoder (dec_RecoveryCount decoder + 1) in
           Next (block + 1, decoder))
      (block, decoder)
  with
  | Exit r => r
  | Next (_, decoder) =>
      let indexCount := 0 in
      match
        for_up_ctl 0 256
          (fun ii '(indexCount, decoder) =>
             if Byte.eqb (load (ErasuresIndices decoder) ii) x00 then
               let decoder :=
                 set_ErasuresIndices decoder
                   (store (ErasuresIndices decoder) indexCount (u8 ii)) in
               let indexCount := indexCount + 1 in
               if indexCount >=? dec_RecoveryCount decoder then
                 Exit (indexCount, decoder)
               else Next (indexCount, decoder)
             else Next (indexCount, decoder))
          (indexCount, decoder)
      with
      | Exit (_, decoder) => (0, decoder)
      | Next (_, decoder) => (0, decoder)
      end
  end.

(** The result is the caller's [blocks] array (descriptors and buffers) after
    the call.  [inBlock] is a pointer to a buffer: the position of the
    descriptor that owns it, or [None] for NULL. *)
Definition DecodeM1 (decoder : CM256Decoder) (blocks : list cm256_block)
  : list cm256_block :=
  let outBlock := loadp (Recovery decoder) 0 in
  let '(inBlock, blocks) :=
    for_up 0 (dec_OriginalCount decoder)
      (fun ii '(inBlock, blocks) =>
         let inBlock2 := loadp (Original decoder) ii in
         match inBlock with
         | None => (Some inBlock2, blocks)
         | Some inBlock =>
             (None,
              set_Block blocks outBlock
                (gf256_add2_mem (Block (blk blocks outBlock))
                   (Block (blk blocks inBlock)) (Block (blk blocks inBlock2))
                   (BlockBytes (Params decoder))))
         end)
      (None, blocks) in
  let blocks :=
    match inBlock with
    | Some inBlock =>
        set_Block blocks outBlock
          (gf256_add_mem (Block (blk blocks outBlock)) (Block (blk blocks inBlock))
             (BlockBytes (Params decoder)))
    | None => blocks
    end in
  set_Index blocks (loadp (Recovery decoder) 0) (load (ErasuresIndices decoder) 0).

Section Uninitialised.

(** The contents of the i-th cell of a fresh array of bytes, and of a fresh
    array of pointers. *)
Variable uninit8 : nat -> byte.
Variable uninitp : nat -> Z.

Definition uninit_bytes (n : nat) : list byte := map uninit8 (seq 0 n).
Definition uninit_ptrs (n : nat) : list Z := map uninitp (seq 0 n).

(** [matrix] is the memory that [matrix_L], [diag_D] and [matrix_U] point
    into; the result is that memory after the call. *)
Definition GenerateLDUDecomposition (decoder : CM256Decoder)
    (blocks : list cm256_block) (matrix : list byte)
    (matrix_L diag_D matrix_U : Z) : list byte :=
  let N := dec_RecoveryCount decoder in
  let rotated_row_U := uninit_bytes 256 in
  let '(g, b) :=
    for_up 0 N (fun i '(g, b) => (store g i x01, store b i x01))
      (uninit_bytes 256, uninit_bytes 256) in
  let last_U := matrix_U + Z.quot ((N - 1) * N) 2 - 1 in
  let firstOffset_U := 0 in
  let x_0 := u8 (OriginalCount (Params decoder)) in
  let '(matrix, matrix_L, rotated_row_U, g, b, firstOffset_U) :=
    for_up 0 (N - 1)
      (fun k '(matrix, matrix_L, rotated_row_U, g, b, firstOffset_U) =>
         let x_k := Index (blk blocks (loadp (Recovery decoder) k)) in
         let y_k := load (ErasuresIndices decoder) k in
         let D_kk := gf256_add x_k y_k in
         let L_kk := gf256_div (load g k) D_kk in
         let U_kk := gf256_mul (gf256_div (load b k) D_kk) (gf256_add x_0 y_k) in
         let matrix :=
           store matrix (diag_D + k) (gf256_mul D_kk (gf256_mul L_kk U_kk)) in
         let row_L := matrix_L in
         let row_U := 0 in
         let '(matrix, matrix_L, rotated_row_U, row_U, g, b) :=
           for_up (k + 1) N
             (fun j '(matrix, matrix_L, rotated_row_U, row_U, g, b) =>
                let x_j := Index (blk blocks (loadp (Recovery decoder) j)) in
                let y_j := load (ErasuresIndices decoder) j in
                let L_jk := gf256_div (load g j) (gf256_add x_j y_k) in
                let U_kj := gf256_div (load b j) (gf256_add x_k y_j) in
                let matrix := store matrix matrix_L L_jk in
                let matrix_L := matrix_L + 1 in
                let rotated_row_U := store rotated_row_U row_U U_kj in
                let row_U := row_U + 1 in
                let g :=
                  store g j
                    (gf256_mul (load g j)
                       (gf256_div (gf256_add x_j x_k) (gf256_add x_j y_k))) in
                let b :=
                  store b j
                    (gf256_mul (load b j)
                       (gf256_div (gf256_add y_j y_k) (gf256_add y_j x_k))) in
                (matrix, matrix_L, rotated_row_U, row_U, g, b))
             (matrix, matrix_L, rotated_row_U, row_U, g, b) in
         let count := N - (k + 1) in
         let matrix :=
           at_ptr row_L (fun row_L => gf256_div_mem row_L row_L L_kk count) matrix in
         let rotated_row_U := gf256_div_mem rotated_row_U rotated_row_U U_kk count in
         let output_U := last_U + firstOffset_U in
         let row_U := 0 in
         let '(matrix, row_U, output_U) :=
           for_up (k + 1) N
             (fun j '(matrix, row_U, output_U) =>
                (store matrix output_U (load rotated_row_U row_U),
                 row_U + 1, output_U - j))
             (matrix, row_U, output_U) in
         let firstOffset_U := firstOffset_U - (k + 2) in
         (matrix, matrix_L, rotated_row_U, g, b, firstOffset_U))
      (matrix, matrix_L, rotated_row_U, g, b, firstOffset_U) in
  let row_U := matrix_U in
  let '(matrix, row_U) :=
    for_down (N - 1) 1
      (fun j '(matrix, row_U) =>
         let y_j := load (ErasuresIndices decoder) j in
         let count := j in
         (at_ptr row_U
            (fun row_U => gf256_mul_mem row_U row_U (gf256_add x_0 y_j) count)
            matrix,
          row_U + count))
      (matrix, row_U) in
  let x_n := Index (blk blocks (loadp (Recovery decoder) (N - 1))) in
  let y_n := load (ErasuresIndices decoder) (N - 1) in
  let L_nn := load g (N - 1) in
  let U_nn := gf256_mul (load b (N - 1)) (gf256_add x_0 y_n) in
  store matrix (diag_D + (N - 1))
    (gf256_div (gf256_mul L_nn U_nn) (gf256_add x_n y_n)).

Definition StackAllocSize : Z := 2048.

(** The result is the caller's [blocks] array after the call. *)
Definition Decode (decoder : CM256Decoder) (blocks : list cm256_block)
  : list cm256_block :=
  let N := dec_RecoveryCount decoder in
  let x_0 := u8 (OriginalCount (Params decoder)) in
  let stackMatrix := uninit_bytes (Z.to_nat StackAllocSize) in
  let blocks :=
    for_up 0 (dec_OriginalCount decoder)
      (fun originalIndex blocks =>
         let inBlock := loadp (Original decoder) originalIndex in
         let inRow := Index (blk blocks inBlock) in
         for_up 0 N
           (fun recoveryIndex blocks =>
              let outBlock := loadp (Recovery decoder) recoveryIndex in
              let x_i := Index (blk blocks outBlock) in
              let y_j := inRow in
              let matrixElement := GetMatrixElement x_i x_0 y_j in
              set_Block blocks outBlock
                (gf256_muladd_mem (Block (blk blocks outBlock)) matrixElement
                   (Block (blk blocks inBlock)) (BlockBytes (Params decoder))))
           blocks)
      blocks in
  let requiredSpace := N * N in
  let matrix :=
    if requiredSpace >? StackAllocSize then uninit_bytes (Z.to_nat requiredSpace)
    else stackMatrix in
  let matrix_U := 0 in
  let diag_D := matrix_U + Z.quot ((N - 1) * N) 2 in
  let matrix_L := diag_D + N in
  let matrix := GenerateLDUDecomposition decoder blocks matrix matrix_L diag_D matrix_U in
  let '(blocks, matrix_L) :=
    for_up 0 (N - 1)
      (fun j st =>
         let block_j := loadp (Recovery decoder) j in
         for_up (j + 1) N
           (fun i '(blocks, matrix_L) =>
              let block_i := loadp (Recovery decoder) i in
              let c_ij := load matrix matrix_L in
              (set_Block blocks block_i
                 (gf256_muladd_mem (Block (blk blocks block_i)) c_ij
                    (Block (blk blocks block_j)) (BlockBytes (Params decoder))),
               matrix_L + 1))
           st)
      (blocks, matrix_L) in
  let blocks :=
    for_up 0 N
      (fun i blocks =>
         let block := loadp (Recovery decoder) i in
         let blocks := set_Index blocks block (load (ErasuresIndices decoder) i) in
         set_Block blocks block
           (gf256_div_mem (Block (blk blocks block)) (Block (blk blocks block))
              (load matrix (diag_D + i)) (BlockBytes (Params decoder))))
      blocks in
  let '(blocks, matrix_U) :=
    for_down (N - 1) 1
      (fun j st =>
         let block_j := loadp (Recovery decoder) j in
         for_down (j - 1) 0
           (fun i '(blocks, matrix_U) =>
              let block_i := loadp (Recovery decoder) i in
              let c_ij := load matrix matrix_U in
              (set_Block blocks block_i
                 (gf256_muladd_mem (Block (blk blocks block_i)) c_ij
                    (Block (blk blocks block_j)) (BlockBytes (Params decoder))),
               matrix_U + 1))
           st)
      (blocks, matrix_U) in
  blocks.

(** The decoder state as [kmalloc] returns it. *)
Definition kmalloc_CM256Decoder : CM256Decoder :=
  {| Params := {| OriginalCount := uninitp 512; RecoveryCount := uninitp 513;
                  BlockBytes := uninitp 514 |};
     Recovery := uninit_ptrs 256;
     dec_RecoveryCount := uninitp 515;
     Original := map uninitp (seq 256 256);
     dec_OriginalCount := uninitp 516;
     ErasuresIndices := uninit_bytes 256 |}.

(** A null [blocks] pointer is [None].  The result is the return code and the
    [blocks] array after the call. *)
Definition cm256_decode (params : cm256_encoder_params)
    (blocks : option (list cm256_block)) : Z * option (list cm256_block) :=
  let state := kmalloc_CM256Decoder in
  if (OriginalCount params <=? 0) || (RecoveryCount params <=? 0)
     || (BlockBytes params <=? 0) then (-1, blocks)
  else if int_add (OriginalCount params) (RecoveryCount params) >? 256 then (-2, blocks)
  else
    match blocks with
    | None => (-3, blocks)
    | Some blocks =>
        if OriginalCount params =? 1 then (0, Some (set_Index blocks 0 x00))
        else
          let '(ret, state) := Initialize state params blocks in
          if negb (ret =? 0) then (-5, Some blocks)
          else if dec_RecoveryCount state <=? 0 then (0, Some blocks)
          else if RecoveryCount params =? 1 then (0, Some (DecodeM1 state blocks))
          else (0, Some (Decode state blocks))
    end.

End Uninitialised.


(** * GF(256) is a field *)

Ltac bits x :=
  let H := fresh in
  pose proof (of_bits_to_bits x) as H; rewrite <- H; clear H;
  destruct (to_bits x) as (? & ? & ? & ? & ? & ? & ? & ?).
Ltac xor8_norm := rewrite ?to_bits_of_bits; cbv [xor8]; rewrite ?to_bits_of_bits.
Ltac bools :=
  repeat match goal with
         | |- context [xorb ?b _] => is_var b; destruct b
         | |- context [xorb _ ?b] => is_var b; destruct b
         end;
  reflexivity.
Ltac bits_eq := apply f_equal; repeat (apply (f_equal2 (@pair _ _))).

Lemma gf256_add_comm x y : gf256_add x y = gf256_add y x.
Proof. unfold gf256_add. bits x. bits y. xor8_norm. bits_eq; apply xorb_comm. Qed.

Lemma gf256_add_assoc x y z :
  gf256_add x (gf256_add y z) = gf256_add (gf256_add x y) z.
Proof.
  unfold gf256_add. bits x. bits y. bits z. xor8_norm.
  bits_eq; symmetry; apply xorb_assoc.
Qed.

Lemma gf256_add_0_l x : gf256_add x00 x = x.
Proof. unfold gf256_add. bits x. xor8_norm. reflexivity. Qed.

Lemma gf256_add_0_r x : gf256_add x x00 = x.
Proof. rewrite gf256_add_comm. apply gf256_add_0_l. Qed.

Lemma gf256_add_same x : gf256_add x x = x00.
Proof. unfold gf256_add. bits x. xor8_norm. rewrite !xorb_nilpotent. reflexivity. Qed.

Lemma gf256_add_eq0 x y : gf256_add x y = x00 -> x = y.
Proof.
  intros H.
  rewrite <- (gf256_add_0_l y), <- H, <- gf256_add_assoc, gf256_add_same.
  rewrite gf256_add_0_r. reflexivity.
Qed.

Lemma gf256_add_neq0 x y : x <> y -> gf256_add x y <> x00.
Proof. intros H E. apply H, gf256_add_eq0, E. Qed.

Lemma xtime_add x y : xtime (gf256_add x y) = gf256_add (xtime x) (xtime y).
Proof.
  unfold xtime, gf256_add. bits x. bits y. xor8_norm.
  destruct b6, b14; cbn [xorb]; xor8_norm;
    change (to_bits x4d)
      with (true, (false, (true, (true, (false, (false, (true, false)))))));
    cbv iota beta; bits_eq; bools.
Qed.

Lemma xtime_0 : xtime x00 = x00.
Proof. reflexivity. Qed.

Lemma gf256_add_swap4 a b c d :
  gf256_add (gf256_add a b) (gf256_add c d)
  = gf256_add (gf256_add a c) (gf256_add b d).
Proof.
  rewrite <- !gf256_add_assoc. f_equal.
  rewrite !gf256_add_assoc. f_equal. apply gf256_add_comm.
Qed.

Lemma mulbits_add_l bs : forall a b,
  mulbits (gf256_add a b) bs = gf256_add (mulbits a bs) (mulbits b bs).
Proof.
  induction bs as [|c cs IH]; intros a b; cbn [mulbits].
  - reflexivity.
  - rewrite xtime_add, IH, gf256_add_swap4. f_equal. destruct c; reflexivity.
Qed.

Lemma mulbits_0 bs : mulbits x00 bs = x00.
Proof.
  induction bs as [|c cs IH]; cbn [mulbits]; [reflexivity|].
  rewrite xtime_0, IH. destruct c; reflexivity.
Qed.

Lemma mulbits_xtime bs : forall a, mulbits (xtime a) bs = xtime (mulbits a bs).
Proof.
  induction bs as [|c cs IH]; intros a; cbn [mulbits]; [reflexivity|].
  rewrite xtime_add, IH. f_equal. destruct c; reflexivity.
Qed.

(** Exhaustive checks over all bytes. *)
Definition all_bytes : list byte := Eval vm_compute in
  flat_map (fun n => match of_nat n with Some b => [b] | None => [] end) (seq 0 256).

Lemma in_all_bytes b : In b all_bytes.
Proof. apply (nth_error_In all_bytes (to_nat b)). destruct b; reflexivity. Qed.

Lemma forall_bytes (P : byte -> bool) :
  forallb P all_bytes = true -> forall b, P b = true.
Proof. intros H b. rewrite forallb_forall in H. apply H, in_all_bytes. Qed.

Lemma forall_bytes2 (P : byte -> byte -> bool) :
  forallb (fun a => forallb (P a) all_bytes) all_bytes = true ->
  forall a b, P a b = true.
Proof. intros H a b. apply (forall_bytes (P a)). apply (forall_bytes _ H). Qed.

Lemma gf256_mul_comm x y : gf256_mul x y = gf256_mul y x.
Proof.
  apply byte_dec_bl. revert x y. apply forall_bytes2. vm_compute. reflexivity.
Qed.

Lemma gf256_mul_add_l x y z :
  gf256_mul (gf256_add x y) z = gf256_add (gf256_mul x z) (gf256_mul y z).
Proof. apply mulbits_add_l. Qed.

Lemma gf256_mul_add_r x y z :
  gf256_mul x (gf256_add y z) = gf256_add (gf256_mul x y) (gf256_mul x z).
Proof. rewrite !(gf256_mul_comm x). apply mulbits_add_l. Qed.

Lemma gf256_mul_0_l x : gf256_mul x00 x = x00.
Proof. apply mulbits_0. Qed.

Lemma gf256_mul_0_r x : gf256_mul x x00 = x00.
Proof. rewrite gf256_mul_comm. apply mulbits_0. Qed.

Lemma gf256_mul_1_l x : gf256_mul x01 x = x.
Proof. rewrite gf256_mul_comm. unfold gf256_mul. cbn. apply gf256_add_0_r. Qed.

Lemma gf256_mul_1_r x : gf256_mul x x01 = x.
Proof. rewrite gf256_mul_comm. apply gf256_mul_1_l. Qed.

Lemma gf256_mul_xtime_r x y : gf256_mul x (xtime y) = xtime (gf256_mul x y).
Proof. rewrite !(gf256_mul_comm x). apply mulbits_xtime. Qed.

Lemma mulbits_assoc cs : forall x y,
  mulbits (gf256_mul x y) cs = gf256_mul x (mulbits y cs).
Proof.
  induction cs as [|c cs IH]; intros x y; cbn [mulbits].
  - symmetry. apply gf256_mul_0_r.
  - rewrite gf256_mul_add_r, <- IH, gf256_mul_xtime_r. f_equal.
    destruct c; [reflexivity | symmetry; apply gf256_mul_0_r].
Qed.

Lemma gf256_mul_assoc x y z :
  gf256_mul x (gf256_mul y z) = gf256_mul (gf256_mul x y) z.
Proof. symmetry. apply mulbits_assoc. Qed.

Lemma gf256_inv_l x : x <> x00 -> gf256_mul (gf256_inv x) x = x01.
Proof. destruct x; try reflexivity. congruence. Qed.

Lemma gf256_ring :
  ring_theory x00 x01 gf256_add gf256_mul gf256_add (fun x => x) eq.
Proof.
  constructor; intros.
  - apply gf256_add_0_l.
  - apply gf256_add_comm.
  - apply gf256_add_assoc.
  - apply gf256_mul_1_l.
  - apply gf256_mul_comm.
  - apply gf256_mul_assoc.
  - apply gf256_mul_add_l.
  - reflexivity.
  - apply gf256_add_same.
Qed.

Lemma gf256_field :
  field_theory x00 x01 gf256_add gf256_mul gf256_add (fun x => x)
    gf256_div gf256_inv eq.
Proof.
  constructor.
  - apply gf256_ring.
  - discriminate.
  - reflexivity.
  - apply gf256_inv_l.
Qed.

(** The prime field GF(2) inside GF(256): the coefficients of the [ring] and
    [field] tactics, so that they know the characteristic. *)
Definition bool_to_gf (b : bool) : byte := if b then x01 else x00.

Lemma gf256_morph :
  ring_morph x00 x01 gf256_add gf256_mul gf256_add (fun x => x) eq
    false true xorb andb xorb (fun b => b) Bool.eqb bool_to_gf.
Proof.
  constructor; try reflexivity.
  - intros [] []; reflexivity.
  - intros [] []; reflexivity.
  - intros [] []; reflexivity.
  - intros [] []; simpl; congruence.
Qed.

Add Field gf256_fld : gf256_field (morphism gf256_morph).

Lemma gf256_mul_eq0 x y : gf256_mul x y = x00 -> x = x00 \/ y = x00.
Proof.
  intros H. destruct (byte_eq_dec x x00) as [?|Hx]; [now left|right].
  rewrite <- (gf256_mul_1_l y), <- (gf256_inv_l x Hx), <- gf256_mul_assoc, H.
  apply gf256_mul_0_r.
Qed.

Lemma gf256_mul_neq0 x y : x <> x00 -> y <> x00 -> gf256_mul x y <> x00.
Proof. intros Hx Hy H. destruct (gf256_mul_eq0 _ _ H); contradiction. Qed.

Lemma gf256_inv_neq0 x : x <> x00 -> gf256_inv x <> x00.
Proof.
  intros Hx H. pose proof (gf256_inv_l x Hx) as E.
  rewrite H, gf256_mul_0_l in E. discriminate.
Qed.

Lemma gf256_div_neq0 x y : x <> x00 -> y <> x00 -> gf256_div x y <> x00.
Proof. intros Hx Hy. apply gf256_mul_neq0; [assumption | now apply gf256_inv_neq0]. Qed.

Lemma gf256_div_same x : x <> x00 -> gf256_div x x = x01.
Proof. intros Hx. field. assumption. Qed.

Lemma gf256_div_0_l x : gf256_div x00 x = x00.
Proof. apply gf256_mul_0_l. Qed.

Lemma gf256_div_mul x y : y <> x00 -> gf256_mul (gf256_div x y) y = x.
Proof. intros Hy. field. assumption. Qed.

Create HintDb gf.
#[export] Hint Resolve gf256_mul_neq0 gf256_div_neq0 gf256_inv_neq0 gf256_add_neq0 : gf.

(** Side conditions of [field]. *)
Ltac gf_nz :=
  repeat split;
  try solve [ assumption | discriminate
            | rewrite gf256_add_comm; assumption
            | auto 6 with gf ].


(** * Bytes as integers *)

Lemma int_of_range b : 0 <= int_of b < 256.
Proof.
  unfold int_of. pose proof (to_N_bounded b). lia.
Qed.

Lemma int_of_u8 z : int_of (u8 z) = z mod 256.
Proof.
  unfold u8, int_of.
  pose proof (Z.mod_pos_bound z 256 eq_refl) as Hr.
  destruct (of_N (Z.to_N (z mod 256))) as [b|] eqn:E.
  - apply to_of_N in E. rewrite E. lia.
  - apply of_N_None_iff in E. lia.
Qed.

Lemma int_of_inj a b : int_of a = int_of b -> a = b.
Proof.
  unfold int_of. intros H. apply N2Z.inj in H.
  pose proof (of_to_N a) as Ea. pose proof (of_to_N b) as Eb.
  rewrite H in Ea. congruence.
Qed.

Lemma u8_int_of b : u8 (int_of b) = b.
Proof.
  apply int_of_inj. rewrite int_of_u8.
  apply Z.mod_small, int_of_range.
Qed.

Lemma int_of_u8_small z : 0 <= z < 256 -> int_of (u8 z) = z.
Proof. intros H. rewrite int_of_u8. now apply Z.mod_small. Qed.

Lemma u8_inj a b : 0 <= a < 256 -> 0 <= b < 256 -> u8 a = u8 b -> a = b.
Proof.
  intros Ha Hb H. apply (f_equal int_of) in H.
  now rewrite !int_of_u8_small in H.
Qed.

Lemma u8_0 : u8 0 = x00.
Proof. reflexivity. Qed.

(** * Sums of [int]s *)

Lemma int_add_in_range a b : INT_MIN <= a + b <= INT_MAX -> int_add a b = a + b.
Proof.
  unfold int_add, INT_MIN, INT_MAX. intros H. rewrite Z.mod_small by lia. lia.
Qed.

Lemma int_add_small a b : 0 <= a -> 0 <= b -> a + b <= 256 -> int_add a b = a + b.
Proof. intros Ha Hb H. apply int_add_in_range. unfold INT_MIN, INT_MAX. lia. Qed.


Lemma byte_eqb_eq a b : Byte.eqb a b = true <-> a = b.
Proof. split; [apply byte_dec_bl | apply byte_dec_lb]. Qed.

Lemma byte_eqb_neq a b : Byte.eqb a b = false <-> a <> b.
Proof.
  split.
  - apply eqb_false.
  - intros H. destruct (Byte.eqb a b) eqn:E; [|reflexivity].
    apply byte_eqb_eq in E. contradiction.
Qed.

(** * Arrays *)

Lemma length_upd {A} n (v : A) l : length (upd n v l) = length l.
Proof.
  revert n; induction l as [|a l IH]; intros [|n]; simpl; auto.
Qed.

Lemma nth_upd_eq {A} n (v d : A) l : (n < length l)%nat -> nth n (upd n v l) d = v.
Proof.
  revert n; induction l as [|a l IH]; intros [|n] H; simpl in *; try lia; auto.
  apply IH. lia.
Qed.

Lemma nth_upd_neq {A} n m (v d : A) l : n <> m -> nth m (upd n v l) d = nth m l d.
Proof.
  revert n m; induction l as [|a l IH]; intros [|n] [|m] H; simpl; auto; try lia.
Qed.

Lemma upd_out {A} n (v : A) l : (length l <= n)%nat -> upd n v l = l.
Proof.
  revert n; induction l as [|a l IH]; intros [|n] H; simpl in *; auto; try lia.
  f_equal. apply IH. lia.
Qed.

Lemma length_store m p v : length (store m p v) = length m.
Proof. apply length_upd. Qed.

Lemma load_store_eq m p v :
  0 <= p < Z.of_nat (length m) -> load (store m p v) p = v.
Proof. intros H. apply nth_upd_eq. lia. Qed.

Lemma load_store_neq m p q v :
  0 <= p -> 0 <= q -> p <> q -> load (store m p v) q = load m q.
Proof. intros Hp Hq H. apply nth_upd_neq. lia. Qed.

Lemma length_storep m p v : length (storep m p v) = length m.
Proof. apply length_upd. Qed.

Lemma loadp_storep_eq m p v :
  0 <= p < Z.of_nat (length m) -> loadp (storep m p v) p = v.
Proof. intros H. apply nth_upd_eq. lia. Qed.

Lemma loadp_storep_neq m p q v :
  0 <= p -> 0 <= q -> p <> q -> loadp (storep m p v) q = loadp m q.
Proof. intros Hp Hq H. apply nth_upd_neq. lia. Qed.

(** * Loops *)

Lemma for_up_nil {S} lo hi (body : Z -> S -> S) s : hi <= lo -> for_up lo hi body s = s.
Proof.
  intros H. unfold for_up. replace (Z.to_nat (hi - lo)) with O by lia. reflexivity.
Qed.

Lemma for_up_first {S} lo hi (body : Z -> S -> S) s :
  lo < hi -> for_up lo hi body s = for_up (lo + 1) hi body (body lo s).
Proof.
  intros H. unfold for_up.
  replace (Z.to_nat (hi - lo)) with (Datatypes.S (Z.to_nat (hi - (lo + 1)))) by lia.
  reflexivity.
Qed.

Lemma iter_up_last {S} n : forall i (body : Z -> S -> S) s,
  iter_up (Datatypes.S n) i body s = body (i + Z.of_nat n) (iter_up n i body s).
Proof.
  induction n as [|n IH]; intros i body s.
  - simpl. now rewrite Z.add_0_r.
  - change (iter_up (Datatypes.S (Datatypes.S n)) i body s)
      with (iter_up (Datatypes.S n) (i + 1) body (body i s)).
    rewrite IH. cbn [iter_up]. f_equal. lia.
Qed.

Lemma for_up_last {S} lo hi (body : Z -> S -> S) s :
  lo <= hi -> for_up lo (hi + 1) body s = body hi (for_up lo hi body s).
Proof.
  intros H. unfold for_up.
  replace (Z.to_nat (hi + 1 - lo)) with (Datatypes.S (Z.to_nat (hi - lo))) by lia.
  rewrite iter_up_last. f_equal. lia.
Qed.

(** Invariant rule for an ascending loop. *)
Lemma for_up_inv {S} (P : Z -> S -> Prop) lo hi (body : Z -> S -> S) s :
  lo <= hi -> P lo s ->
  (forall i s, lo <= i < hi -> P i s -> P (i + 1) (body i s)) ->
  P hi (for_up lo hi body s).
Proof.
  intros Hle H0 Hstep. unfold for_up.
  remember (Z.to_nat (hi - lo)) as n eqn:En.
  revert lo s Hle H0 Hstep En.
  induction n as [|n IH]; intros lo s Hle H0 Hstep En.
  - simpl. replace hi with lo by lia. assumption.
  - simpl. apply IH; try lia.
    + apply Hstep; [lia | assumption].
    + intros i s' Hi. apply Hstep. lia.
Qed.

Lemma for_up_ext {S} lo hi (body body' : Z -> S -> S) s :
  (forall i s, lo <= i < hi -> body i s = body' i s) ->
  for_up lo hi body s = for_up lo hi body' s.
Proof.
  intros H. unfold for_up.
  remember (Z.to_nat (hi - lo)) as n eqn:En.
  revert lo s H En. induction n as [|n IH]; intros lo s H En; [reflexivity|].
  simpl. rewrite H by lia. apply IH; [|lia]. intros; apply H; lia.
Qed.

Lemma for_down_nil {S} hi lo (body : Z -> S -> S) s : hi < lo -> for_down hi lo body s = s.
Proof.
  intros H. unfold for_down. replace (Z.to_nat (hi - lo + 1)) with O by lia. reflexivity.
Qed.

Lemma for_down_first {S} hi lo (body : Z -> S -> S) s :
  lo <= hi -> for_down hi lo body s = for_down (hi - 1) lo body (body hi s).
Proof.
  intros H. unfold for_down.
  replace (Z.to_nat (hi - lo + 1)) with (Datatypes.S (Z.to_nat (hi - 1 - lo + 1))) by lia.
  reflexivity.
Qed.

(** Invariant rule for a descending loop: [P i] holds before the iteration
    at [i], and [P (lo - 1)] at the end. *)
Lemma for_down_inv {S} (P : Z -> S -> Prop) hi lo (body : Z -> S -> S) s :
  lo - 1 <= hi -> P hi s ->
  (forall i s, lo <= i <= hi -> P i s -> P (i - 1) (body i s)) ->
  P (lo - 1) (for_down hi lo body s).
Proof.
  intros Hle H0 Hstep. unfold for_down.
  remember (Z.to_nat (hi - lo + 1)) as n eqn:En.
  revert hi s Hle H0 Hstep En.
  induction n as [|n IH]; intros hi s Hle H0 Hstep En.
  - simpl. replace (lo - 1) with hi by lia. assumption.
  - simpl. apply IH; try lia.
    + apply Hstep; [lia | assumption].
    + intros i s' Hi. apply Hstep. lia.
Qed.

(** Invariant rule for a loop with exits: [P] is the invariant at the head of
    the loop, [Q] holds of the value a [break] or [return] leaves with. *)
Lemma for_up_ctl_inv {S R} (P : Z -> S -> Prop) (Q : R -> Prop) lo hi
    (body : Z -> S -> ctl S R) s :
  lo <= hi -> P lo s ->
  (forall i s, lo <= i < hi -> P i s ->
     match body i s with Next s' => P (i + 1) s' | Exit r => Q r end) ->
  match for_up_ctl lo hi body s with Next s' => P hi s' | Exit r => Q r end.
Proof.
  intros Hle H0 Hstep. unfold for_up_ctl.
  remember (Z.to_nat (hi - lo)) as n eqn:En.
  revert lo s Hle H0 Hstep En.
  induction n as [|n IH]; intros lo s Hle H0 Hstep En.
  - simpl. replace hi with lo by lia. assumption.
  - simpl. pose proof (Hstep lo s ltac:(lia) H0) as Hb.
    destruct (body lo s) as [s'|r]; [|assumption].
    apply IH; try lia; [assumption|].
    intros i s'' Hi. apply Hstep. lia.
Qed.

(** * Bulk operations *)

Lemma length_mem_set n : forall i f dst, length (mem_set n i f dst) = length dst.
Proof.
  induction n as [|n IH]; intros i f [|d dst]; simpl; auto.
Qed.

Lemma nth_mem_set n : forall i f dst p,
  nth p (mem_set n i f dst) x00
  = if (p <? n)%nat && (p <? length dst)%nat
    then f (i + p)%nat (nth p dst x00) else nth p dst x00.
Proof.
  induction n as [|n IH]; intros i f [|d dst] p; simpl.
  - destruct p; reflexivity.
  - reflexivity.
  - destruct p; simpl; now rewrite ?andb_false_r.
  - destruct p as [|p]; simpl.
    + now rewrite Nat.add_0_r.
    + rewrite IH. replace (Datatypes.S i + p)%nat with (i + Datatypes.S p)%nat by lia.
      reflexivity.
Qed.

Lemma byte_at_mem_set n f dst p :
  byte_at (mem_set n 0 f dst) p
  = if (p <? n)%nat && (p <? length dst)%nat
    then f p (byte_at dst p) else byte_at dst p.
Proof. unfold byte_at. now rewrite nth_mem_set. Qed.

Lemma list_eq_byte_at (a b : list byte) :
  length a = length b -> (forall p, (p < length a)%nat -> byte_at a p = byte_at b p) ->
  a = b.
Proof. intros Hl H. apply (nth_ext a b x00 x00 Hl). exact H. Qed.

(** * Block descriptors *)

Lemma length_set_Block bl p buf : length (set_Block bl p buf) = length bl.
Proof. apply length_upd. Qed.

Lemma length_set_Index bl p i : length (set_Index bl p i) = length bl.
Proof. apply length_upd. Qed.

Lemma blk_set_Block_eq bl p buf :
  0 <= p < Z.of_nat (length bl) ->
  blk (set_Block bl p buf) p = {| Block := buf; Index := Index (blk bl p) |}.
Proof. intros H. unfold blk, set_Block. apply nth_upd_eq. lia. Qed.

Lemma blk_set_Block_neq bl p q buf :
  0 <= p -> 0 <= q -> p <> q -> blk (set_Block bl p buf) q = blk bl q.
Proof. intros Hp Hq H. unfold blk, set_Block. apply nth_upd_neq. lia. Qed.

Lemma blk_set_Index_eq bl p i :
  0 <= p < Z.of_nat (length bl) ->
  blk (set_Index bl p i) p = {| Block := Block (blk bl p); Index := i |}.
Proof. intros H. unfold blk, set_Index. apply nth_upd_eq. lia. Qed.

Lemma blk_set_Index_neq bl p q i :
  0 <= p -> 0 <= q -> p <> q -> blk (set_Index bl p i) q = blk bl q.
Proof. intros Hp Hq H. unfold blk, set_Index. apply nth_upd_neq. lia. Qed.

Lemma Index_set_Block bl p q buf :
  0 <= p -> 0 <= q -> Index (blk (set_Block bl p buf) q) = Index (blk bl q).
Proof.
  intros Hp Hq. destruct (Z.eq_dec p q) as [->|Hne].
  - destruct (Z_lt_dec q (Z.of_nat (length bl))).
    + now rewrite blk_set_Block_eq by lia.
    + unfold set_Block. now rewrite upd_out by lia.
  - now rewrite blk_set_Block_neq.
Qed.


(** * Finite sums in GF(256) *)

(** The sum of [f 0], ..., [f (n - 1)]. *)
Fixpoint gsum (f : nat -> byte) (n : nat) : byte :=
  match n with
  | O => x00
  | S n' => gf256_add (gsum f n') (f n')
  end.

(** The sum of [f a] over the elements [a] of a list. *)
Fixpoint lsum {A} (f : A -> byte) (l : list A) : byte :=
  match l with
  | [] => x00
  | a :: l' => gf256_add (f a) (lsum f l')
  end.

Lemma gsum_ext f g n : (forall i, (i < n)%nat -> f i = g i) -> gsum f n = gsum g n.
Proof.
  induction n as [|n IH]; intros H; simpl; [reflexivity|].
  rewrite IH, H; auto.
Qed.

Lemma gsum_0 n : gsum (fun _ => x00) n = x00.
Proof. induction n as [|n IH]; simpl; [reflexivity|]. rewrite IH. reflexivity. Qed.

Lemma gsum_add f g n :
  gsum (fun i => gf256_add (f i) (g i)) n = gf256_add (gsum f n) (gsum g n).
Proof.
  induction n as [|n IH]; simpl; [reflexivity|]. rewrite IH. ring.
Qed.

Lemma gsum_mul_l c f n :
  gsum (fun i => gf256_mul c (f i)) n = gf256_mul c (gsum f n).
Proof.
  induction n as [|n IH]; simpl; [ring|]. rewrite IH. ring.
Qed.

Lemma gsum_mul_r c f n :
  gsum (fun i => gf256_mul (f i) c) n = gf256_mul (gsum f n) c.
Proof.
  induction n as [|n IH]; simpl; [ring|]. rewrite IH. ring.
Qed.

Lemma lsum_app {A} (f : A -> byte) l1 l2 :
  lsum f (l1 ++ l2) = gf256_add (lsum f l1) (lsum f l2).
Proof.
  induction l1 as [|a l1 IH]; simpl; [ring|]. rewrite IH. ring.
Qed.

Lemma lsum_perm {A} (f : A -> byte) l1 l2 :
  Permutation l1 l2 -> lsum f l1 = lsum f l2.
Proof.
  induction 1; simpl; try congruence.
  ring.
Qed.

Lemma lsum_ext {A} (f g : A -> byte) l :
  (forall a, In a l -> f a = g a) -> lsum f l = lsum g l.
Proof.
  induction l as [|a l IH]; intros H; simpl; [reflexivity|].
  rewrite H, IH; auto using in_eq, in_cons.
Qed.

Lemma lsum_map {A B} (f : B -> byte) (h : A -> B) l :
  lsum f (map h l) = lsum (fun a => f (h a)) l.
Proof. induction l as [|a l IH]; simpl; congruence. Qed.

Lemma gsum_lsum f n : gsum f n = lsum f (seq 0 n).
Proof.
  induction n as [|n IH]; [reflexivity|].
  rewrite seq_S, lsum_app. simpl. rewrite IH. ring.
Qed.

Lemma lsum_add {A} (f g : A -> byte) l :
  lsum (fun a => gf256_add (f a) (g a)) l = gf256_add (lsum f l) (lsum g l).
Proof. induction l as [|a l IH]; simpl; [ring|]. rewrite IH. ring. Qed.

Lemma lsum_mul_l {A} c (f : A -> byte) l :
  lsum (fun a => gf256_mul c (f a)) l = gf256_mul c (lsum f l).
Proof. induction l as [|a l IH]; simpl; [ring|]. rewrite IH. ring. Qed.

Lemma lsum_0 {A} (l : list A) : lsum (fun _ => x00) l = x00.
Proof. induction l as [|a l IH]; simpl; [reflexivity|]. rewrite IH. ring. Qed.

(** * Well-formed parameters and shards *)

Definition valid_params (params : cm256_encoder_params) : Prop :=
  1 <= OriginalCount params /\ 1 <= RecoveryCount params /\
  1 <= BlockBytes params /\ OriginalCount params + RecoveryCount params <= 256.

(** [k] shards of [B] bytes each. *)
Definition shards_ok (params : cm256_encoder_params) (originals : list cm256_block) : Prop :=
  length originals = Z.to_nat (OriginalCount params) /\
  forall j, 0 <= j < OriginalCount params ->
    length (Block (blk originals j)) = Z.to_nat (BlockBytes params).

(** The [p]-th byte of the [j]-th original shard. *)
Definition orig_byte (originals : list cm256_block) (p : nat) (j : nat) : byte :=
  byte_at (Block (blk originals (Z.of_nat j))) p.

(** The entry of the generator matrix in the row of the block with wire
    index [x] and the column of original [j]. *)
Definition coef (params : cm256_encoder_params) (x : Z) (j : nat) : byte :=
  GetMatrixElement (u8 x) (u8 (OriginalCount params)) (u8 (Z.of_nat j)).

(** The [p]-th byte of the recovery shard with wire index [x]. *)
Definition recovery_byte (params : cm256_encoder_params) (originals : list cm256_block)
    (x : Z) (p : nat) : byte :=
  gsum (fun j => gf256_mul (coef params x j) (orig_byte originals p j))
    (Z.to_nat (OriginalCount params)).

(** * The matrix element generator *)

Lemma u8_add_neq0 a b : 0 <= a < 256 -> 0 <= b < 256 -> a <> b ->
  gf256_add (u8 a) (u8 b) <> x00.
Proof.
  intros Ha Hb Hne. apply gf256_add_neq0. intros E. apply Hne.
  now apply u8_inj.
Qed.

Lemma GetMatrixElement_first_row x y :
  gf256_add x y <> x00 -> GetMatrixElement x x y = x01.
Proof.
  intros H. unfold GetMatrixElement. rewrite (gf256_add_comm y x).
  now apply gf256_div_same.
Qed.

Lemma coef_first_row params j :
  valid_params params -> (j < Z.to_nat (OriginalCount params))%nat ->
  coef params (OriginalCount params) j = x01.
Proof.
  intros (Hk & Hm & HB & Hs) Hj. unfold coef.
  apply GetMatrixElement_first_row. apply u8_add_neq0; lia.
Qed.

(** * The encoder *)

Lemma byte_at_skipn (l : list byte) n p : byte_at (skipn n l) p = byte_at l (n + p).
Proof.
  unfold byte_at. revert l; induction n as [|n IH]; intros l; simpl; [reflexivity|].
  destruct l as [|a l]; [destruct p; reflexivity|]. apply IH.
Qed.

Lemma length_at_ptr p f mem :
  (forall l, length (f l) = length l) -> length (at_ptr p f mem) = length mem.
Proof.
  intros Hf. unfold at_ptr. rewrite length_app, Hf.
  rewrite <- length_app, firstn_skipn. reflexivity.
Qed.

Lemma byte_at_at_ptr off f mem q :
  0 <= off <= Z.of_nat (length mem) ->
  byte_at (at_ptr off f mem) q
  = if (q <? Z.to_nat off)%nat then byte_at mem q
    else byte_at (f (skipn (Z.to_nat off) mem)) (q - Z.to_nat off).
Proof.
  intros H. unfold at_ptr, byte_at.
  destruct (Nat.ltb_spec q (Z.to_nat off)) as [Hlt|Hge].
  - rewrite app_nth1 by (rewrite length_firstn; lia).
    rewrite <- (firstn_skipn (Z.to_nat off) mem) at 2.
    rewrite app_nth1 by (rewrite length_firstn; lia). reflexivity.
  - rewrite app_nth2 by (rewrite length_firstn; lia).
    rewrite length_firstn. f_equal. lia.
Qed.

Lemma length_encode_block params originals idx dst :
  length (cm256_encode_block params originals idx dst) = length dst.
Proof.
  unfold cm256_encode_block.
  destruct (OriginalCount params =? 1); [apply length_mem_set|].
  destruct (idx =? OriginalCount params).
  - destruct (Z_le_gt_dec 2 (OriginalCount params)) as [H|H].
    + apply (for_up_inv (fun _ r => length r = length dst)); [lia| |].
      * apply length_mem_set.
      * intros i s _ Hs. unfold gf256_add_mem. now rewrite length_mem_set.
    + rewrite for_up_nil by lia. apply length_mem_set.
  - destruct (Z_le_gt_dec 1 (OriginalCount params)) as [H|H].
    + apply (for_up_inv (fun _ r => length r = length dst)); [lia| |].
      * apply length_mem_set.
      * intros i s _ Hs. unfold gf256_muladd_mem. now rewrite length_mem_set.
    + rewrite for_up_nil by lia. apply length_mem_set.
Qed.

(** The degenerate encoder: a copy of the only original. *)
Lemma encode_block_k1 params originals idx dst p :
  OriginalCount params = 1 ->
  byte_at (cm256_encode_block params originals idx dst) p
  = if (p <? Z.to_nat (BlockBytes params))%nat && (p <? length dst)%nat
    then orig_byte originals p 0 else byte_at dst p.
Proof.
  intros Hk. unfold cm256_encode_block. rewrite Hk. simpl.
  unfold memcpy. now rewrite byte_at_mem_set.
Qed.

(** The parity row: the sum of the originals. *)
Lemma encode_block_parity params originals dst p :
  2 <= OriginalCount params ->
  byte_at (cm256_encode_block params originals (OriginalCount params) dst) p
  = if (p <? Z.to_nat (BlockBytes params))%nat && (p <? length dst)%nat
    then gsum (orig_byte originals p) (Z.to_nat (OriginalCount params))
    else byte_at dst p.
Proof.
  intros Hk. unfold cm256_encode_block.
  destruct (Z.eqb_spec (OriginalCount params) 1); [lia|].
  rewrite Z.eqb_refl.
  set (inr := (p <? Z.to_nat (BlockBytes params))%nat && (p <? length dst)%nat).
  apply (for_up_inv (fun j r =>
           length r = length dst /\
           byte_at r p = if inr then gsum (orig_byte originals p) (Z.to_nat j)
                         else byte_at dst p)); [lia| |].
  - split; [apply length_mem_set|].
    unfold gf256_addset_mem. rewrite byte_at_mem_set. fold inr.
    destruct inr; [|reflexivity]. simpl. unfold orig_byte. simpl. ring.
  - intros j r Hj [Hl Hr]. split.
    + unfold gf256_add_mem. now rewrite length_mem_set.
    + unfold gf256_add_mem. rewrite byte_at_mem_set, Hl. fold inr. rewrite Hr.
      destruct inr; [|reflexivity].
      replace (Z.to_nat (j + 1)) with (S (Z.to_nat j)) by lia. simpl.
      unfold orig_byte. now rewrite Z2Nat.id by lia.
Qed.

(** The other rows: the product of the matrix row with the originals. *)
Lemma encode_block_row params originals idx dst p :
  2 <= OriginalCount params -> idx <> OriginalCount params ->
  byte_at (cm256_encode_block params originals idx dst) p
  = if (p <? Z.to_nat (BlockBytes params))%nat && (p <? length dst)%nat
    then recovery_byte params originals idx p
    else byte_at dst p.
Proof.
  intros Hk Hidx. unfold cm256_encode_block.
  destruct (Z.eqb_spec (OriginalCount params) 1); [lia|].
  destruct (Z.eqb_spec idx (OriginalCount params)); [lia|].
  set (inr := (p <? Z.to_nat (BlockBytes params))%nat && (p <? length dst)%nat).
  unfold recovery_byte.
  apply (for_up_inv (fun j r =>
           length r = length dst /\
           byte_at r p =
             if inr
             then gsum (fun j => gf256_mul (coef params idx j) (orig_byte originals p j))
                       (Z.to_nat j)
             else byte_at dst p)); [lia| |].
  - split; [apply length_mem_set|].
    unfold gf256_mul_mem. rewrite byte_at_mem_set. fold inr.
    destruct inr; [|reflexivity]. simpl. unfold orig_byte, coef. simpl.
    rewrite u8_0. ring.
  - intros j r Hj [Hl Hr]. split.
    + unfold gf256_muladd_mem. now rewrite length_mem_set.
    + unfold gf256_muladd_mem. rewrite byte_at_mem_set, Hl. fold inr. rewrite Hr.
      destruct inr; [|reflexivity].
      replace (Z.to_nat (j + 1)) with (S (Z.to_nat j)) by lia. simpl.
      unfold orig_byte, coef. now rewrite Z2Nat.id by lia.
Qed.

(** Every row of the encoder with at least two originals is the product of
    its matrix row with the originals; the parity row has the coefficients 1. *)
Lemma encode_block_spec params originals r dst p :
  valid_params params -> 2 <= OriginalCount params -> 0 <= r < RecoveryCount params ->
  byte_at (cm256_encode_block params originals (OriginalCount params + r) dst) p
  = if (p <? Z.to_nat (BlockBytes params))%nat && (p <? length dst)%nat
    then recovery_byte params originals (OriginalCount params + r) p
    else byte_at dst p.
Proof.
  intros Hv Hk Hr. destruct (Z.eq_dec r 0) as [->|Hr0].
  - rewrite Z.add_0_r, encode_block_parity by assumption.
    destruct (_ && _); [|reflexivity]. unfold recovery_byte.
    apply gsum_ext. intros j Hj. rewrite coef_first_row by assumption. ring.
  - apply encode_block_row; lia.
Qed.

(** The state of the loop of [cm256_encode] after [n] rows. *)
Definition encode_loop (params : cm256_encoder_params) (originals : list cm256_block)
    (out : list byte) (n : Z) : Z * list byte :=
  for_up 0 n
    (fun block '(recoveryBlock, out) =>
       (recoveryBlock + BlockBytes params,
        at_ptr recoveryBlock
          (cm256_encode_block params originals (OriginalCount params + block)) out))
    (0, out).

Lemma cm256_encode_ok params originals out :
  valid_params params ->
  cm256_encode params (Some originals) (Some out)
  = (0, Some (snd (encode_loop params originals out (RecoveryCount params)))).
Proof.
  intros (Hk & Hm & HB & Hs). unfold cm256_encode, encode_loop.
  destruct (Z.leb_spec (OriginalCount params) 0); [lia|].
  destruct (Z.leb_spec (RecoveryCount params) 0); [lia|].
  destruct (Z.leb_spec (BlockBytes params) 0); [lia|]. cbn [orb].
  rewrite int_add_small by lia.
  destruct (Z.gtb_spec (OriginalCount params + RecoveryCount params) 256); [lia|].
  rewrite (for_up_ext 0 (RecoveryCount params) _
             (fun block '(recoveryBlock, out) =>
                (recoveryBlock + BlockBytes params,
                 at_ptr recoveryBlock
                   (cm256_encode_block params originals (OriginalCount params + block))
                   out))).
  - destruct (for_up _ _ _ _) as [q o]. reflexivity.
  - intros i [q o] Hi. rewrite int_add_small by lia. reflexivity.
Qed.

(** The output region after [n] rows: the rows written so far hold what
    [cm256_encode_block] computes, the rest is as before. *)
Lemma encode_loop_spec params originals out n :
  valid_params params -> 0 <= n <= RecoveryCount params ->
  length out = Z.to_nat (RecoveryCount params * BlockBytes params) ->
  let '(ptr, out') := encode_loop params originals out n in
  ptr = n * BlockBytes params /\ length out' = length out /\
  forall r p, (p < Z.to_nat (BlockBytes params))%nat ->
    0 <= r < RecoveryCount params ->
    byte_at out' (Z.to_nat (r * BlockBytes params) + p)
    = if r <? n
      then byte_at (cm256_encode_block params originals (OriginalCount params + r)
                      (skipn (Z.to_nat (r * BlockBytes params)) out)) p
      else byte_at out (Z.to_nat (r * BlockBytes params) + p).
Proof.
  intros Hv Hn Hlen. unfold encode_loop.
  apply (for_up_inv (fun n '(ptr, out') =>
    ptr = n * BlockBytes params /\ length out' = length out /\
    forall r p, (p < Z.to_nat (BlockBytes params))%nat ->
      0 <= r < RecoveryCount params ->
      byte_at out' (Z.to_nat (r * BlockBytes params) + p)
      = if r <? n
        then byte_at (cm256_encode_block params originals (OriginalCount params + r)
                        (skipn (Z.to_nat (r * BlockBytes params)) out)) p
        else byte_at out (Z.to_nat (r * BlockBytes params) + p))); [lia| |].
  - split; [lia|]. split; [reflexivity|]. intros r p Hp Hr.
    destruct (Z.ltb_spec r 0); [lia|reflexivity].
  - intros i [ptr out'] Hi (Hptr & Hl & Hinv). subst ptr.
    destruct Hv as (Hk & Hm & HB & Hs).
    assert (Hoff : 0 <= i * BlockBytes params <= Z.of_nat (length out')) by nia.
    split; [lia|]. split.
    { rewrite length_at_ptr; [assumption|]. intros; apply length_encode_block. }
    intros r p Hp Hr. rewrite byte_at_at_ptr by assumption.
    destruct (Nat.ltb_spec (Z.to_nat (r * BlockBytes params) + p)
                (Z.to_nat (i * BlockBytes params))) as [Hlt|Hge].
    + assert (r < i) by nia. rewrite Hinv by assumption.
      destruct (Z.ltb_spec r i); [|lia]. destruct (Z.ltb_spec r (i + 1)); [|lia].
      reflexivity.
    + assert (i <= r) by nia.
      destruct (Z.ltb_spec r (i + 1)) as [Hri|Hri].
      * assert (r = i) by lia. subst r.
        replace (Z.to_nat (i * BlockBytes params) + p - Z.to_nat (i * BlockBytes params))%nat
          with p by lia.
        assert (Hls : forall o : list byte, length o = length out ->
                  (p <? length (skipn (Z.to_nat (i * BlockBytes params)) o))%nat = true).
        { intros o Ho. apply Nat.ltb_lt. rewrite length_skipn, Ho, Hlen. nia. }
        destruct (Z.eq_dec (OriginalCount params) 1) as [Hk1|Hk1].
        -- rewrite !encode_block_k1 by assumption.
           rewrite (Hls out' Hl), (Hls out eq_refl).
           destruct (Nat.ltb_spec p (Z.to_nat (BlockBytes params))); [reflexivity|lia].
        -- rewrite !encode_block_spec by (unfold valid_params; lia).
           rewrite (Hls out' Hl), (Hls out eq_refl).
           destruct (Nat.ltb_spec p (Z.to_nat (BlockBytes params))); [reflexivity|lia].
      * assert (Hout : forall d, byte_at
           (cm256_encode_block params originals (OriginalCount params + i) d)
           (Z.to_nat (r * BlockBytes params) + p - Z.to_nat (i * BlockBytes params))
           = byte_at d (Z.to_nat (r * BlockBytes params) + p - Z.to_nat (i * BlockBytes params))).
        { intros d. assert ((Z.to_nat (r * BlockBytes params) + p
                             - Z.to_nat (i * BlockBytes params) <? Z.to_nat (BlockBytes params))%nat
                            = false) as Hf by (apply Nat.ltb_ge; nia).
          destruct (Z.eq_dec (OriginalCount params) 1) as [Hk1|Hk1].
          - rewrite encode_block_k1 by assumption. now rewrite Hf.
          - rewrite encode_block_spec by (unfold valid_params; lia). now rewrite Hf. }
        rewrite Hout, byte_at_skipn.
        replace (Z.to_nat (i * BlockBytes params)
                 + (Z.to_nat (r * BlockBytes params) + p - Z.to_nat (i * BlockBytes params)))%nat
          with (Z.to_nat (r * BlockBytes params) + p)%nat by lia.
        rewrite Hinv by assumption. destruct (Z.ltb_spec r i); [lia|reflexivity].
Qed.

(** The [r]-th recovery shard of the output region. *)
Definition recovery_shard (params : cm256_encoder_params) (out : list byte) (r : Z)
  : list byte :=
  firstn (Z.to_nat (BlockBytes params)) (skipn (Z.to_nat (r * BlockBytes params)) out).

Lemma length_recovery_shard params out r :
  valid_params params -> 0 <= r < RecoveryCount params ->
  length out = Z.to_nat (RecoveryCount params * BlockBytes params) ->
  length (recovery_shard params out r) = Z.to_nat (BlockBytes params).
Proof.
  intros (Hk & Hm & HB & Hs) Hr Hl. unfold recovery_shard.
  rewrite length_firstn, length_skipn, Hl. nia.
Qed.

Lemma byte_at_firstn (l : list byte) n p :
  (p < n)%nat -> byte_at (firstn n l) p = byte_at l p.
Proof.
  unfold byte_at. revert l p; induction n as [|n IH]; intros l p H; [lia|].
  destruct l as [|a l]; [reflexivity|]. destruct p as [|p]; [reflexivity|].
  simpl. apply IH. lia.
Qed.

(** What the encoder leaves in the output region. *)
Lemma cm256_encode_spec params originals out :
  valid_params params ->
  length out = Z.to_nat (RecoveryCount params * BlockBytes params) ->
  exists out',
    cm256_encode params (Some originals) (Some out) = (0, Some out') /\
    length out' = length out /\
    forall r p, 0 <= r < RecoveryCount params -> (p < Z.to_nat (BlockBytes params))%nat ->
      byte_at (recovery_shard params out' r) p
      = if OriginalCount params =? 1 then orig_byte originals p 0
        else recovery_byte params originals (OriginalCount params + r) p.
Proof.
  intros Hv Hl. rewrite cm256_encode_ok by assumption.
  pose proof (encode_loop_spec params originals out (RecoveryCount params) Hv) as H.
  destruct Hv as (Hk & Hm & HB & Hs).
  specialize (H ltac:(lia) Hl).
  destruct (encode_loop params originals out (RecoveryCount params)) as [ptr out'].
  destruct H as (_ & Hl' & H). exists out'. split; [reflexivity|]. split; [assumption|].
  intros r p Hr Hp. unfold recovery_shard.
  rewrite byte_at_firstn by assumption. rewrite byte_at_skipn.
  rewrite H by assumption. destruct (Z.ltb_spec r (RecoveryCount params)); [|lia].
  assert (Hls : (p <? length (skipn (Z.to_nat (r * BlockBytes params)) out))%nat = true).
  { apply Nat.ltb_lt. rewrite length_skipn, Hl. nia. }
  destruct (Z.eqb_spec (OriginalCount params) 1) as [Hk1|Hk1].
  - rewrite encode_block_k1 by assumption. rewrite Hls.
    destruct (Nat.ltb_spec p (Z.to_nat (BlockBytes params))); [reflexivity|lia].
  - rewrite encode_block_spec by (unfold valid_params; lia). rewrite Hls.
    destruct (Nat.ltb_spec p (Z.to_nat (BlockBytes params))); [reflexivity|lia].
Qed.


(** * Properties of the encoder and of the matrix element generator *)

(** The byte-wise XOR of the first [B] bytes of all the shards. *)
Definition xor_of_shards (params : cm256_encoder_params) (shards : list cm256_block)
  : list byte :=
  map (fun p => lsum (fun o => byte_at (Block o) p) shards)
    (seq 0 (Z.to_nat (BlockBytes params))).

Lemma lsum_blocks_gsum (originals : list cm256_block) p :
  lsum (fun o => byte_at (Block o) p) originals
  = gsum (orig_byte originals p) (length originals).
Proof.
  rewrite gsum_lsum.
  assert (H : forall l : list cm256_block,
    map (fun j => nth j l {| Block := []; Index := x00 |}) (seq 0 (length l)) = l).
  { intros l. apply (nth_ext _ _ {| Block := []; Index := x00 |} {| Block := []; Index := x00 |}).
    - now rewrite length_map, length_seq.
    - intros n Hn. rewrite length_map, length_seq in Hn.
      rewrite (nth_indep _ _ (nth 0 l {| Block := []; Index := x00 |})).
      + rewrite (map_nth (fun j => nth j l {| Block := []; Index := x00 |})).
        now rewrite seq_nth.
      + now rewrite length_map, length_seq. }
  rewrite <- (H originals) at 1. rewrite lsum_map.
  apply lsum_ext. intros j Hj. unfold orig_byte, blk. now rewrite Nat2Z.id.
Qed.

Lemma byte_at_map_seq (f : nat -> byte) n p :
  (p < n)%nat -> byte_at (map f (seq 0 n)) p = f p.
Proof.
  intros H. unfold byte_at.
  rewrite (nth_indep _ _ (f O)) by (now rewrite length_map, length_seq).
  rewrite (map_nth f). now rewrite seq_nth.
Qed.

Definition S1_params : cm256_encoder_params :=
  {| OriginalCount := 4; RecoveryCount := 1; BlockBytes := 8 |}.
Definition S1_originals : list cm256_block :=
  [ {| Block := repeat x01 8; Index := x00 |};
    {| Block := repeat x02 8; Index := x01 |};
    {| Block := repeat x04 8; Index := x02 |};
    {| Block := repeat x08 8; Index := x03 |} ].

(** C3. For valid parameters with at least two originals, [cm256_encode]
    succeeds and the first recovery shard, the first [BlockBytes] bytes of the
    output region, is the byte-wise XOR of all the original shards; for
    k = 4, m = 1, B = 8 and originals filled with 0x01, 0x02, 0x04 and 0x08
    the recovery shard is eight bytes 0x0F. *)
Theorem first_recovery_shard_is_parity :
  (forall params originals out,
     valid_params params -> 2 <= OriginalCount params ->
     shards_ok params originals ->
     length out = Z.to_nat (RecoveryCount params * BlockBytes params) ->
     exists out',
       cm256_encode params (Some originals) (Some out) = (0, Some out') /\
       recovery_shard params out' 0 = xor_of_shards params originals) /\
  (forall out, length out = 8%nat ->
     cm256_encode S1_params (Some S1_originals) (Some out)
     = (0, Some (repeat x0f 8))).
Proof.
  assert (G : forall params originals out,
     valid_params params -> 2 <= OriginalCount params ->
     shards_ok params originals ->
     length out = Z.to_nat (RecoveryCount params * BlockBytes params) ->
     exists out',
       cm256_encode params (Some originals) (Some out) = (0, Some out') /\
       length out' = length out /\
       recovery_shard params out' 0 = xor_of_shards params originals).
  { intros params originals out Hv Hk [Hlo Hlb] Hl.
    destruct (cm256_encode_spec params originals out Hv Hl) as (out' & He & Hl' & Hb).
    exists out'. split; [assumption|]. split; [assumption|].
    pose proof Hv as (Hk1 & Hm & HB & Hs).
    apply list_eq_byte_at.
    - rewrite length_recovery_shard by (assumption || lia || congruence).
      unfold xor_of_shards. now rewrite length_map, length_seq.
    - intros p Hp. rewrite length_recovery_shard in Hp by (assumption || lia || congruence).
      rewrite Hb by (assumption || lia).
      destruct (Z.eqb_spec (OriginalCount params) 1); [lia|].
      unfold xor_of_shards. rewrite byte_at_map_seq by assumption.
      rewrite lsum_blocks_gsum, Hlo. unfold recovery_byte.
      apply gsum_ext. intros j Hj. rewrite Z.add_0_r, coef_first_row by assumption. ring. }
  split.
  - intros params originals out Hv Hk Hs Hl.
    destruct (G params originals out Hv Hk Hs Hl) as (out' & He & _ & Hr).
    exists out'. split; assumption.
  - intros out Hl.
    destruct (G S1_params S1_originals out) as (out' & He & Hl' & Hr).
    + unfold valid_params, S1_params; simpl; lia.
    + simpl; lia.
    + split; [reflexivity|]. intros j Hj. simpl in Hj.
      assert (j = 0 \/ j = 1 \/ j = 2 \/ j = 3) as [-> | [-> | [-> | ->]]] by lia; reflexivity.
    + assumption.
    + rewrite He. f_equal. f_equal. rewrite Hl in Hl'.
      transitivity (recovery_shard S1_params out' 0).
      * unfold recovery_shard. change (Z.to_nat (0 * BlockBytes S1_params)) with O.
        symmetry. apply firstn_all2. rewrite Hl'. apply Nat.le_refl.
      * rewrite Hr. reflexivity.
Qed.

(** The S1 scenario, from the general statement. *)
Lemma first_recovery_shard_is_parity_witness :
  exists out',
    cm256_encode S1_params (Some S1_originals) (Some (repeat x00 8)) = (0, Some out') /\
    recovery_shard S1_params out' 0 = xor_of_shards S1_params S1_originals.
Proof.
  apply (proj1 first_recovery_shard_is_parity S1_params S1_originals (repeat x00 8)).
  - unfold valid_params, S1_params; simpl; lia.
  - simpl; lia.
  - split; [reflexivity|]. intros j Hj. simpl in Hj.
    assert (j = 0 \/ j = 1 \/ j = 2 \/ j = 3) as [-> | [-> | [-> | ->]]] by lia; reflexivity.
  - reflexivity.
Defined.

(** C4. With a single original, [cm256_encode] copies it into every one of
    the [RecoveryCount] recovery slots of the output region. *)
Theorem encode_single_original_copies :
  forall params originals out,
    valid_params params -> OriginalCount params = 1 ->
    shards_ok params originals ->
    length out = Z.to_nat (RecoveryCount params * BlockBytes params) ->
    exists out',
      cm256_encode params (Some originals) (Some out) = (0, Some out') /\
      forall r, 0 <= r < RecoveryCount params ->
        recovery_shard params out' r = Block (blk originals 0).
Proof.
  intros params originals out Hv Hk [Hlo Hlb] Hl.
  destruct (cm256_encode_spec params originals out Hv Hl) as (out' & He & Hl' & Hb).
  exists out'. split; [assumption|]. intros r Hr.
  apply list_eq_byte_at.
  - rewrite length_recovery_shard by (assumption || congruence).
    symmetry. apply Hlb. lia.
  - intros p Hp. rewrite length_recovery_shard in Hp by (assumption || congruence).
    rewrite Hb by assumption. rewrite Hk. reflexivity.
Qed.

Definition S2_params : cm256_encoder_params :=
  {| OriginalCount := 1; RecoveryCount := 3; BlockBytes := 16 |}.
Definition S2_originals : list cm256_block := [ {| Block := repeat xaa 16; Index := x00 |} ].

(** The S2 scenario: k = 1, m = 3, B = 16. *)
Lemma encode_single_original_copies_witness :
  exists out',
    cm256_encode S2_params (Some S2_originals) (Some (repeat x00 48)) = (0, Some out') /\
    forall r, 0 <= r < 3 -> recovery_shard S2_params out' r = repeat xaa 16.
Proof.
  apply (encode_single_original_copies S2_params S2_originals (repeat x00 48)).
  - unfold valid_params, S2_params; simpl; lia.
  - reflexivity.
  - split; [reflexivity|]. intros j Hj. simpl in Hj.
    assert (j = 0) as -> by lia. reflexivity.
  - reflexivity.
Defined.

(** C5. [GetMatrixElement x_i x_0 y_j] is the quotient of [y_j + x_0] by
    [x_i + y_j] in GF(256) (it is [gf256_div] of the two, and multiplied by
    a non-zero denominator it gives the numerator back); it is 1 when
    [x_i = x_0] and the denominator is not zero, hence 1 in every column of
    the first recovery row, where [x_i = x_0 = k]. *)
Theorem GetMatrixElement_quotient :
  forall x_i x_0 y_j,
    GetMatrixElement x_i x_0 y_j = gf256_div (gf256_add y_j x_0) (gf256_add x_i y_j) /\
    (gf256_add x_i y_j <> x00 ->
     gf256_mul (GetMatrixElement x_i x_0 y_j) (gf256_add x_i y_j) = gf256_add y_j x_0) /\
    (x_i = x_0 -> gf256_add x_i y_j <> x00 -> GetMatrixElement x_i x_0 y_j = x01) /\
    (forall k j, 0 <= j < k -> k < 256 ->
       GetMatrixElement (u8 k) (u8 k) (u8 j) = x01).
Proof.
  intros x_i x_0 y_j. split; [reflexivity|]. split; [|split].
  - intros H. unfold GetMatrixElement. now apply gf256_div_mul.
  - intros -> H. now apply GetMatrixElement_first_row.
  - intros k j Hj Hk. apply GetMatrixElement_first_row. apply u8_add_neq0; lia.
Qed.








(** * Decoder bookkeeping: [Initialize] *)

(** The integers 0, ..., n - 1. *)
Definition zrange (n : Z) : list Z := map Z.of_nat (seq 0 (Z.to_nat n)).

Lemma in_zrange x n : In x (zrange n) <-> 0 <= x < n.
Proof.
  unfold zrange. rewrite in_map_iff. split.
  - intros (i & <- & Hi). apply in_seq in Hi. lia.
  - intros H. exists (Z.to_nat x). split; [lia|]. apply in_seq. lia.
Qed.

Lemma zrange_succ n : 0 <= n -> zrange (n + 1) = zrange n ++ [n].
Proof.
  intros H. unfold zrange.
  replace (Z.to_nat (n + 1)) with (S (Z.to_nat n)) by lia.
  rewrite seq_S, map_app. simpl. now rewrite Z2Nat.id by lia.
Qed.

Lemma length_zrange n : length (zrange n) = Z.to_nat n.
Proof. unfold zrange. now rewrite length_map, length_seq. Qed.

Lemma NoDup_map_inj {A B} (f : A -> B) l :
  (forall a b, f a = f b -> a = b) -> NoDup l -> NoDup (map f l).
Proof.
  intros Hf. induction 1 as [|a l Hn Hd IH]; simpl; constructor; [|assumption].
  rewrite in_map_iff. intros (b & E & Hb). apply Hf in E. now subst.
Qed.

Lemma NoDup_zrange n : NoDup (zrange n).
Proof.
  unfold zrange. apply NoDup_map_inj.
  - intros a b. apply Nat2Z.inj.
  - apply seq_NoDup.
Qed.

Lemma zrange_app a b : 0 <= a <= b -> exists l, zrange b = zrange a ++ l.
Proof.
  intros H. unfold zrange.
  replace (Z.to_nat b) with (Z.to_nat a + Z.to_nat (b - a))%nat by lia.
  rewrite seq_app, map_app. eexists. reflexivity.
Qed.

Lemma nth_zrange n i d : (i < Z.to_nat n)%nat -> nth i (zrange n) d = Z.of_nat i.
Proof.
  intros H. unfold zrange.
  rewrite (nth_indep _ _ (Z.of_nat 0)) by (now rewrite length_map, length_seq).
  rewrite map_nth. now rewrite seq_nth.
Qed.

Lemma length_filter_le {A} (f : A -> bool) l : (length (filter f l) <= length l)%nat.
Proof.
  induction l as [|a l IH]; simpl; [lia|]. destruct (f a); simpl; lia.
Qed.

Lemma length_filter_split {A} (f : A -> bool) l :
  (length (filter f l) + length (filter (fun a => negb (f a)) l) = length l)%nat.
Proof.
  induction l as [|a l IH]; simpl; [lia|]. destruct (f a); simpl; lia.
Qed.

Lemma filter_split_perm {A} (f : A -> bool) l :
  Permutation (filter f l ++ filter (fun a => negb (f a)) l) l.
Proof.
  induction l as [|a l IH]; simpl; [constructor|].
  destruct (f a); simpl.
  - now constructor.
  - apply Permutation_sym, Permutation_cons_app, Permutation_sym, IH.
Qed.

Lemma firstn_snoc_upd {A} (l : list A) : forall arr v,
  firstn (length l) arr = l -> (length l < length arr)%nat ->
  firstn (length (l ++ [v])) (upd (length l) v arr) = l ++ [v].
Proof.
  induction l as [|a l IH]; intros arr v Hf Hl.
  - destruct arr as [|b arr]; simpl in *; [lia|reflexivity].
  - destruct arr as [|b arr]; simpl in *; [lia|].
    injection Hf as -> Hf. f_equal. apply IH; [assumption|lia].
Qed.

Lemma firstn_upd_ge {A} n m (v : A) arr :
  (n <= m)%nat -> firstn n (upd m v arr) = firstn n arr.
Proof.
  revert m arr; induction n as [|n IH]; intros m arr H; [reflexivity|].
  destruct arr as [|b arr]; [destruct m; reflexivity|].
  destruct m as [|m]; [lia|]. simpl. f_equal. apply IH. lia.
Qed.

Ltac dec_simpl :=
  cbn [set_Params set_ErasuresIndices set_OriginalCount set_Original set_Recovery
       set_RecoveryCount Params Recovery Original ErasuresIndices
       dec_OriginalCount dec_RecoveryCount fst snd] in *.

Section Bookkeeping.

Variable params : cm256_encoder_params.
Variable blocks : list cm256_block.

(** The wire index of the block at position [p]. *)
Definition block_index (p : Z) : Z := int_of (Index (blk blocks p)).

Definition is_original (p : Z) : bool := block_index p <? OriginalCount params.

(** The positions of the originals, and of the recovery blocks, among the
    first [n] supplied blocks, in the order of the supply. *)
Definition originals_of (n : Z) : list Z := filter is_original (zrange n).
Definition recoveries_of (n : Z) : list Z :=
  filter (fun p => negb (is_original p)) (zrange n).

(** Whether one of the first [n] supplied blocks has the wire index [r]. *)
Definition present (n r : Z) : bool :=
  existsb (fun p => block_index p =? r) (zrange n).

(** The original indices that no supplied block has, in ascending order. *)
Definition erasures_of : list Z :=
  filter (fun r => negb (present (OriginalCount params) r))
    (zrange (OriginalCount params)).

Lemma block_index_range p : 0 <= block_index p < 256.
Proof. apply int_of_range. Qed.

Lemma present_succ n r :
  0 <= n -> present (n + 1) r = present n r || (block_index n =? r).
Proof.
  intros H. unfold present. rewrite zrange_succ, existsb_app by assumption.
  simpl. now rewrite orb_false_r.
Qed.

Lemma present_true n r :
  present n r = true <-> exists p, 0 <= p < n /\ block_index p = r.
Proof.
  unfold present. rewrite existsb_exists. split.
  - intros (p & Hp & E). exists p. apply in_zrange in Hp. split; [assumption|lia].
  - intros (p & Hp & E). exists p. split; [now apply in_zrange|lia].
Qed.

Lemma originals_of_succ n :
  0 <= n ->
  originals_of (n + 1) = originals_of n ++ (if is_original n then [n] else []).
Proof.
  intros H. unfold originals_of. rewrite zrange_succ, filter_app by assumption.
  reflexivity.
Qed.

Lemma recoveries_of_succ n :
  0 <= n ->
  recoveries_of (n + 1) = recoveries_of n ++ (if is_original n then [] else [n]).
Proof.
  intros H. unfold recoveries_of. rewrite zrange_succ, filter_app by assumption.
  simpl. destruct (is_original n); reflexivity.
Qed.

Lemma length_originals_recoveries n :
  0 <= n ->
  Z.of_nat (length (originals_of n)) + Z.of_nat (length (recoveries_of n)) = n.
Proof.
  intros H. unfold originals_of, recoveries_of.
  pose proof (length_filter_split is_original (zrange n)) as E.
  rewrite length_zrange in E. lia.
Qed.

(** ** The three loops *)

Definition init_zero (decoder : CM256Decoder) : CM256Decoder :=
  for_up 0 (OriginalCount params)
    (fun ii decoder =>
       set_ErasuresIndices decoder (store (ErasuresIndices decoder) ii x00))
    decoder.

Definition init_classify_body (ii : Z) (st : Z * CM256Decoder)
  : ctl (Z * CM256Decoder) (Z * CM256Decoder) :=
  let '(block, decoder) := st in
  let row := int_of (Index (blk blocks block)) in
  if row <? OriginalCount params then
    let decoder :=
      set_Original decoder
        (storep (Original decoder) (dec_OriginalCount decoder) block) in
    let decoder := set_OriginalCount decoder (dec_OriginalCount decoder + 1) in
    if negb (Byte.eqb (load (ErasuresIndices decoder) row) x00) then
      Exit (-1, decoder)
    else
      Next (block + 1,
            set_ErasuresIndices decoder (store (ErasuresIndices decoder) row x01))
  else
    let decoder :=
      set_Recovery decoder
        (storep (Recovery decoder) (dec_RecoveryCount decoder) block) in
    let decoder := set_RecoveryCount decoder (dec_RecoveryCount decoder + 1) in
    Next (block + 1, decoder).

Definition init_erasures_body (ii : Z) (st : Z * CM256Decoder)
  : ctl (Z * CM256Decoder) (Z * CM256Decoder) :=
  let '(indexCount, decoder) := st in
  if Byte.eqb (load (ErasuresIndices decoder) ii) x00 then
    let decoder :=
      set_ErasuresIndices decoder
        (store (ErasuresIndices decoder) indexCount (u8 ii)) in
    let indexCount := indexCount + 1 in
    if indexCount >=? dec_RecoveryCount decoder then Exit (indexCount, decoder)
    else Next (indexCount, decoder)
  else Next (indexCount, decoder).

Lemma Initialize_unfold decoder :
  Initialize decoder params blocks
  = match
      for_up_ctl 0 (OriginalCount params) init_classify_body
        (0, init_zero (set_RecoveryCount
                         (set_OriginalCount (set_Params decoder params) 0) 0))
    with
    | Exit r => r
    | Next (_, decoder) =>
        match for_up_ctl 0 256 init_erasures_body (0, decoder) with
        | Exit (_, decoder) => (0, decoder)
        | Next (_, decoder) => (0, decoder)
        end
    end.
Proof. reflexivity. Qed.

Variable decoder0 : CM256Decoder.
Hypothesis len_Recovery0 : length (Recovery decoder0) = 256%nat.
Hypothesis len_Original0 : length (Original decoder0) = 256%nat.
Hypothesis len_Erasures0 : length (ErasuresIndices decoder0) = 256%nat.
Hypothesis k_range : 0 <= OriginalCount params <= 256.

(** The state after the loop that clears the presence flags. *)
Lemma init_zero_spec :
  let d := init_zero (set_RecoveryCount
                        (set_OriginalCount (set_Params decoder0 params) 0) 0) in
  Params d = params /\ Recovery d = Recovery decoder0 /\
  Original d = Original decoder0 /\
  dec_RecoveryCount d = 0 /\ dec_OriginalCount d = 0 /\
  length (ErasuresIndices d) = 256%nat /\
  forall r, 0 <= r < 256 ->
    load (ErasuresIndices d) r
    = if r <? OriginalCount params then x00 else load (ErasuresIndices decoder0) r.
Proof.
  unfold init_zero.
  apply (for_up_inv (fun ii d =>
    Params d = params /\ Recovery d = Recovery decoder0 /\
    Original d = Original decoder0 /\
    dec_RecoveryCount d = 0 /\ dec_OriginalCount d = 0 /\
    length (ErasuresIndices d) = 256%nat /\
    forall r, 0 <= r < 256 ->
      load (ErasuresIndices d) r
      = if r <? ii then x00 else load (ErasuresIndices decoder0) r)); [lia| |].
  - repeat split; try assumption. intros r Hr.
    destruct (Z.ltb_spec r 0); [lia|reflexivity].
  - intros i d Hi (HP & HR & HO & HRC & HOC & HL & HE).
    repeat split; try assumption; simpl.
    + now rewrite length_store.
    + intros r Hr. destruct (Z.eq_dec r i) as [->|Hne].
      * rewrite load_store_eq by lia. destruct (Z.ltb_spec i (i + 1)); [reflexivity|lia].
      * rewrite load_store_neq by lia. rewrite HE by assumption.
        destruct (Z.ltb_spec r i), (Z.ltb_spec r (i + 1)); try lia; reflexivity.
Qed.

(** The invariant of the loop that classifies the supplied blocks. *)
Definition classify_inv (ii : Z) (st : Z * CM256Decoder) : Prop :=
  let '(block, d) := st in
  block = ii /\ Params d = params /\
  length (Recovery d) = 256%nat /\ length (Original d) = 256%nat /\
  length (ErasuresIndices d) = 256%nat /\
  dec_OriginalCount d = Z.of_nat (length (originals_of ii)) /\
  dec_RecoveryCount d = Z.of_nat (length (recoveries_of ii)) /\
  firstn (length (originals_of ii)) (Original d) = originals_of ii /\
  firstn (length (recoveries_of ii)) (Recovery d) = recoveries_of ii /\
  (forall r, 0 <= r < 256 ->
     load (ErasuresIndices d) r
     = if r <? OriginalCount params
       then if present ii r then x01 else x00
       else load (ErasuresIndices decoder0) r) /\
  (forall p q, 0 <= p < q -> q < ii -> is_original p = true ->
     block_index p <> block_index q).

(** What holds when the loop returns: two supplied blocks have the same
    original index. *)
Definition classify_exit (r : Z * CM256Decoder) : Prop :=
  fst r = -1 /\
  exists p q, 0 <= p < q /\ q < OriginalCount params /\ is_original p = true /\
              block_index p = block_index q.

Lemma classify_spec :
  match for_up_ctl 0 (OriginalCount params) init_classify_body
          (0, init_zero (set_RecoveryCount
                           (set_OriginalCount (set_Params decoder0 params) 0) 0))
  with
  | Next st => classify_inv (OriginalCount params) st
  | Exit r => classify_exit r
  end.
Proof.
  apply (for_up_ctl_inv classify_inv classify_exit); [lia| |].
  - pose proof init_zero_spec as (HP & HR & HO & HRC & HOC & HL & HE).
    cbv zeta in *. unfold classify_inv.
    repeat split; try assumption; try congruence; try reflexivity.
    intros p q Hp Hq. lia.
  - intros ii [block d] Hii (Hb & HP & HLR & HLO & HLE & HOC & HRC & HFO & HFR & HE & HND).
    subst block. unfold init_classify_body.
    fold (block_index ii). fold (is_original ii).
    pose proof (block_index_range ii) as Hrow.
    pose proof (length_originals_recoveries ii ltac:(lia)) as Hlen.
    destruct (is_original ii) eqn:Hio.
    + (* an original *)
      assert (Hk : block_index ii < OriginalCount params)
        by (unfold is_original in Hio; lia).
      dec_simpl.
      rewrite HE by lia. destruct (Z.ltb_spec (block_index ii) (OriginalCount params)); [|lia].
      destruct (present ii (block_index ii)) eqn:Hpr; cbn [Byte.eqb negb].
      * change (negb (Byte.eqb x01 x00)) with true. cbv iota.
        split; [reflexivity|].
        apply present_true in Hpr. destruct Hpr as (p & Hp & E).
        exists p, ii. repeat split; try lia. unfold is_original. lia.
      * change (negb (Byte.eqb x00 x00)) with false. cbv iota.
        unfold classify_inv. dec_simpl.
        rewrite originals_of_succ, recoveries_of_succ, Hio by lia.
        rewrite app_nil_r.
        repeat split; try assumption; try lia.
        -- now rewrite length_storep.
        -- now rewrite length_store.
        -- rewrite length_app. simpl. lia.
        -- rewrite HOC. unfold storep. rewrite Nat2Z.id.
           apply firstn_snoc_upd; [assumption|lia].
        -- intros r Hr. rewrite present_succ by lia.
           destruct (Z.eq_dec r (block_index ii)) as [->|Hne].
           ++ rewrite load_store_eq by lia.
              destruct (Z.ltb_spec (block_index ii) (OriginalCount params)); [|lia].
              now rewrite Z.eqb_refl, orb_true_r.
           ++ rewrite load_store_neq by lia. rewrite HE by assumption.
              destruct (Z.eqb_spec (block_index ii) r); [lia|].
              now rewrite orb_false_r.
        -- intros p q Hp Hq Hpo. destruct (Z.eq_dec q ii) as [->|Hne].
           ++ intros E. assert (present ii (block_index ii) = true) as Hc.
              { apply present_true. exists p. split; [lia|assumption]. }
              congruence.
           ++ apply HND; [assumption|lia|assumption].
    + (* a recovery block *)
      assert (Hk : OriginalCount params <= block_index ii)
        by (unfold is_original in Hio; lia).
      unfold classify_inv. dec_simpl.
      rewrite originals_of_succ, recoveries_of_succ, Hio by lia.
      rewrite app_nil_r.
      repeat split; try assumption; try lia.
      * now rewrite length_storep.
      * rewrite length_app. simpl. lia.
      * rewrite HRC. unfold storep. rewrite Nat2Z.id.
        apply firstn_snoc_upd; [assumption|lia].
      * intros r Hr. rewrite HE by assumption. rewrite present_succ by lia.
        destruct (Z.ltb_spec r (OriginalCount params)); [|reflexivity].
        destruct (Z.eqb_spec (block_index ii) r); [lia|].
        now rewrite orb_false_r.
      * intros p q Hp Hq Hpo. destruct (Z.eq_dec q ii) as [->|Hne].
        -- unfold is_original in Hpo. lia.
        -- apply HND; [assumption|lia|assumption].
Qed.

End Bookkeeping.


(** ** The loop that lists the erasures *)

Lemma firstn_length_app {A} (l1 l2 : list A) : firstn (length l1) (l1 ++ l2) = l1.
Proof. induction l1 as [|a l1 IH]; simpl; [reflexivity|]. now rewrite IH. Qed.

Section Erasures.

Variable d2 : CM256Decoder.
Variable kk : Z.
Hypothesis len_E2 : length (ErasuresIndices d2) = 256%nat.
Hypothesis kk_range : 0 <= kk <= 256.

(** The cells of the presence vector that are zero, below [n]. *)
Definition zeros (n : Z) : list Z :=
  filter (fun r => Byte.eqb (load (ErasuresIndices d2) r) x00) (zrange n).

Hypothesis count_zeros : Z.of_nat (length (zeros kk)) = dec_RecoveryCount d2.

Lemma zeros_succ n :
  0 <= n ->
  zeros (n + 1)
  = zeros n ++ (if Byte.eqb (load (ErasuresIndices d2) n) x00 then [n] else []).
Proof.
  intros H. unfold zeros. rewrite zrange_succ, filter_app by assumption. reflexivity.
Qed.

Lemma zeros_prefix a b :
  0 <= a <= b -> zeros a = firstn (length (zeros a)) (zeros b).
Proof.
  intros H. destruct (zrange_app a b H) as (l & E).
  unfold zeros. rewrite E, filter_app. now rewrite firstn_length_app.
Qed.

Lemma zeros_same_length a b :
  0 <= a <= 256 -> 0 <= b <= 256 -> length (zeros a) = length (zeros b) ->
  zeros a = zeros b.
Proof.
  intros Ha Hb E.
  rewrite (zeros_prefix a 256), (zeros_prefix b 256) by lia. now rewrite E.
Qed.

Lemma zeros_length_mono a b : 0 <= a <= b -> (length (zeros a) <= length (zeros b))%nat.
Proof.
  intros H. destruct (zrange_app a b H) as (l & E).
  unfold zeros. rewrite E, filter_app, length_app. lia.
Qed.

Lemma length_zeros_le n : 0 <= n -> Z.of_nat (length (zeros n)) <= n.
Proof.
  intros H. unfold zeros.
  pose proof (length_filter_le
                (fun r => Byte.eqb (load (ErasuresIndices d2) r) x00) (zrange n)) as L.
  rewrite length_zrange in L. lia.
Qed.

(** What the loop leaves unchanged. *)
Definition erasures_frame (d : CM256Decoder) : Prop :=
  Params d = Params d2 /\ Recovery d = Recovery d2 /\ Original d = Original d2 /\
  dec_RecoveryCount d = dec_RecoveryCount d2 /\
  dec_OriginalCount d = dec_OriginalCount d2 /\
  length (ErasuresIndices d) = 256%nat.

Definition erasures_inv (ii : Z) (st : Z * CM256Decoder) : Prop :=
  let '(indexCount, d) := st in
  erasures_frame d /\
  indexCount = Z.of_nat (length (zeros ii)) /\
  firstn (length (zeros ii)) (ErasuresIndices d) = map u8 (zeros ii) /\
  (forall q, ii <= q < 256 -> load (ErasuresIndices d) q = load (ErasuresIndices d2) q) /\
  (length (zeros ii) = 0%nat \/ Z.of_nat (length (zeros ii)) < dec_RecoveryCount d2).

Definition erasures_post (st : Z * CM256Decoder) : Prop :=
  erasures_frame (snd st) /\
  firstn (length (zeros kk)) (ErasuresIndices (snd st)) = map u8 (zeros kk).

Lemma erasures_loop_spec :
  match for_up_ctl 0 256 init_erasures_body (0, d2) with
  | Next st => erasures_post st
  | Exit st => erasures_post st
  end.
Proof.
  assert (Hfin : forall st, erasures_inv 256 st -> erasures_post st).
  { intros [ic d] (Hf & Hic & Hfn & _ & Hc). split; [assumption|]. simpl.
    pose proof (zeros_length_mono kk 256 ltac:(lia)) as Hm.
    assert (length (zeros kk) = 0%nat) as E0 by lia.
    rewrite E0. destruct (zeros kk); [reflexivity|discriminate]. }
  assert (H : match for_up_ctl 0 256 init_erasures_body (0, d2) with
              | Next st => erasures_inv 256 st
              | Exit st => erasures_post st
              end).
  { apply (for_up_ctl_inv erasures_inv erasures_post); [lia| |].
    - unfold erasures_inv, erasures_frame. repeat split; try reflexivity; try assumption.
      now left.
    - intros ii [ic d] Hii (Hf & Hic & Hfn & Hq & Hc).
      unfold init_erasures_body. rewrite (Hq ii) by lia.
      pose proof (zeros_succ ii ltac:(lia)) as Hs.
      pose proof (length_zeros_le ii ltac:(lia)) as Hle.
      destruct Hf as (F1 & F2 & F3 & F4 & F5 & F6).
      destruct (Byte.eqb (load (ErasuresIndices d2) ii) x00).
      + dec_simpl. rewrite F4.
        assert (Hfn' : firstn (length (zeros (ii + 1)))
                         (store (ErasuresIndices d) ic (u8 ii)) = map u8 (zeros (ii + 1))).
        { rewrite Hs, map_app. simpl.
          replace (length (zeros ii ++ [ii]))
            with (length (map u8 (zeros ii) ++ [u8 ii]))
            by (now rewrite !length_app, length_map).
          unfold store. rewrite Hic, Nat2Z.id.
          rewrite <- (length_map u8 (zeros ii)).
          apply firstn_snoc_upd; rewrite length_map; [assumption|lia]. }
        assert (Hl' : length (zeros (ii + 1)) = S (length (zeros ii)))
          by (rewrite Hs, length_app; simpl; lia).
        destruct (Z.geb_spec (ic + 1) (dec_RecoveryCount d2)) as [Hge|Hlt].
        * split.
          { unfold erasures_frame. dec_simpl. rewrite length_store. auto 6. }
          dec_simpl.
          destruct (Nat.eq_dec (length (zeros kk)) 0) as [E0|Hn0].
          -- rewrite E0. destruct (zeros kk); [reflexivity|discriminate].
          -- assert (length (zeros (ii + 1)) = length (zeros kk)) as El by lia.
             rewrite <- (zeros_same_length (ii + 1) kk) by lia.
             assumption.
        * unfold erasures_inv, erasures_frame. dec_simpl.
          rewrite length_store. repeat split; try assumption; try lia.
          intros q Hq'. rewrite load_store_neq by lia. apply Hq. lia.
      + rewrite app_nil_r in Hs. unfold erasures_inv, erasures_frame.
        rewrite Hs. repeat split; try assumption.
        intros q Hq'. apply Hq. lia. }
  destruct (for_up_ctl 0 256 init_erasures_body (0, d2)); [apply Hfin|]; assumption.
Qed.

End Erasures.


(** ** What [Initialize] computes *)

Lemma NoDup_map_inj_in {A B} (f : A -> B) l :
  (forall a b, In a l -> In b l -> f a = f b -> a = b) -> NoDup l -> NoDup (map f l).
Proof.
  intros Hf Hd. induction Hd as [|a l Hn Hd IH]; simpl; constructor.
  - rewrite in_map_iff. intros (b & E & Hb).
    apply Hf in E; [now subst | now right | now left].
  - apply IH. intros x y Hx Hy. apply Hf; now right.
Qed.

(** No two of the first [k] supplied blocks carry the same original index. *)
Definition distinct_originals (params : cm256_encoder_params)
    (blocks : list cm256_block) : Prop :=
  forall p q, 0 <= p < q -> q < OriginalCount params ->
    is_original params blocks p = true ->
    block_index blocks p <> block_index blocks q.

Section InitializeSpec.

Variable params : cm256_encoder_params.
Variable blocks : list cm256_block.

Local Abbreviation k := (OriginalCount params).

Lemma in_originals_of n p :
  In p (originals_of params blocks n) <-> 0 <= p < n /\ block_index blocks p < k.
Proof.
  unfold originals_of. rewrite filter_In, in_zrange. unfold is_original.
  rewrite Z.ltb_lt. tauto.
Qed.

Lemma in_recoveries_of n p :
  In p (recoveries_of params blocks n) <-> 0 <= p < n /\ k <= block_index blocks p.
Proof.
  unfold recoveries_of. rewrite filter_In, in_zrange. unfold is_original.
  rewrite negb_true_iff, Z.ltb_ge. tauto.
Qed.

Lemma in_erasures_of r :
  In r (erasures_of params blocks)
  <-> 0 <= r < k /\ forall p, 0 <= p < k -> block_index blocks p <> r.
Proof.
  unfold erasures_of. rewrite filter_In, in_zrange, negb_true_iff. split.
  - intros [Hr Hp]. split; [assumption|]. intros p Hpr E.
    assert (present blocks k r = true) as Ht by (apply present_true; eauto).
    congruence.
  - intros [Hr Hp]. split; [assumption|].
    destruct (present blocks k r) eqn:E; [|reflexivity].
    apply present_true in E. destruct E as (p & Hpr & E). now apply Hp in E.
Qed.

Hypothesis k_range : 0 <= OriginalCount params <= 256.

(** The original indices that are present are as many as the supplied
    originals, when these are distinct. *)
Lemma present_count :
  distinct_originals params blocks ->
  length (filter (present blocks k) (zrange k))
  = length (originals_of params blocks k).
Proof.
  intros Hd. rewrite <- (length_map (block_index blocks) (originals_of params blocks k)).
  apply Permutation_length, NoDup_Permutation.
  - apply NoDup_filter, NoDup_zrange.
  - apply NoDup_map_inj_in; [|apply NoDup_filter, NoDup_zrange].
    intros a b Ha Hb E. apply in_originals_of in Ha, Hb.
    destruct (Z.lt_total a b) as [Hlt|[Heq|Hgt]]; [|assumption|].
    + exfalso. apply (Hd a b); try lia. unfold is_original. lia.
    + exfalso. apply (Hd b a); try lia. unfold is_original. lia.
  - intros x. rewrite filter_In, in_zrange, in_map_iff, present_true. split.
    + intros (Hx & p & Hp & E). exists p. split; [assumption|].
      apply in_originals_of. lia.
    + intros (p & E & Hp). apply in_originals_of in Hp.
      pose proof (block_index_range blocks p). split; [lia|]. exists p. lia.
Qed.

Lemma length_erasures_of :
  distinct_originals params blocks ->
  length (erasures_of params blocks) = length (recoveries_of params blocks k).
Proof.
  intros Hd. pose proof (present_count Hd) as Hp.
  pose proof (length_filter_split (present blocks k) (zrange k)) as Hs.
  pose proof (length_originals_recoveries params blocks k ltac:(lia)) as Ho.
  rewrite length_zrange in Hs. unfold erasures_of. lia.
Qed.

Variable decoder0 : CM256Decoder.
Hypothesis len_Recovery0 : length (Recovery decoder0) = 256%nat.
Hypothesis len_Original0 : length (Original decoder0) = 256%nat.
Hypothesis len_Erasures0 : length (ErasuresIndices decoder0) = 256%nat.

(** The decoder state that [Initialize] leaves when it succeeds. *)
Definition initialized (d : CM256Decoder) : Prop :=
  Params d = params /\
  dec_OriginalCount d = Z.of_nat (length (originals_of params blocks k)) /\
  dec_RecoveryCount d = Z.of_nat (length (recoveries_of params blocks k)) /\
  firstn (length (originals_of params blocks k)) (Original d)
  = originals_of params blocks k /\
  firstn (length (recoveries_of params blocks k)) (Recovery d)
  = recoveries_of params blocks k /\
  length (erasures_of params blocks) = length (recoveries_of params blocks k) /\
  firstn (length (erasures_of params blocks)) (ErasuresIndices d)
  = map u8 (erasures_of params blocks).

Lemma Initialize_distinct :
  distinct_originals params blocks ->
  exists d, Initialize decoder0 params blocks = (0, d) /\ initialized d.
Proof.
  intros Hd. rewrite Initialize_unfold.
  pose proof (classify_spec params blocks decoder0 len_Recovery0 len_Original0
                len_Erasures0 k_range) as Hc.
  destruct (for_up_ctl 0 k (init_classify_body params blocks) _) as [[b d2]|r].
  2: { destruct Hc as (_ & p & q & Hpq & Hq & Hp & E). exfalso. now apply (Hd p q). }
  destruct Hc as (_ & HP & HLR & HLO & HLE & HOC & HRC & HFO & HFR & HE & _).
  assert (Hz : zeros d2 k = erasures_of params blocks).
  { unfold zeros, erasures_of. apply filter_ext_in. intros r Hr.
    apply in_zrange in Hr. rewrite HE by lia.
    destruct (Z.ltb_spec r k); [|lia].
    destruct (present blocks k r); reflexivity. }
  pose proof (length_erasures_of Hd) as Hl.
  pose proof (erasures_loop_spec d2 k HLE k_range) as He.
  rewrite Hz in He. specialize (He ltac:(lia)).
  assert (G : forall st, erasures_post d2 k st -> initialized (snd st)).
  { intros [ic d] [(F1 & F2 & F3 & F4 & F5 & F6) Hf]. simpl in *.
    rewrite Hz in Hf. unfold initialized.
    rewrite F1, F2, F3, F4, F5. auto 10. }
  destruct (for_up_ctl 0 256 init_erasures_body (0, d2)) as [[ic d]|[ic d]];
    exists d; (split; [reflexivity | apply (G (ic, d) He)]).
Qed.

Lemma Initialize_duplicate :
  ~ distinct_originals params blocks ->
  fst (Initialize decoder0 params blocks) = -1.
Proof.
  intros Hd. rewrite Initialize_unfold.
  pose proof (classify_spec params blocks decoder0 len_Recovery0 len_Original0
                len_Erasures0 k_range) as Hc.
  destruct (for_up_ctl 0 k (init_classify_body params blocks) _) as [[b d2]|r].
  - exfalso. apply Hd.
    destruct Hc as (_ & _ & _ & _ & _ & _ & _ & _ & _ & _ & Hn). exact Hn.
  - apply Hc.
Qed.

End InitializeSpec.

(** The uninitialised decoder state has arrays of 256 entries. *)
Lemma kmalloc_CM256Decoder_lengths uninit8 uninitp :
  length (Recovery (kmalloc_CM256Decoder uninit8 uninitp)) = 256%nat /\
  length (Original (kmalloc_CM256Decoder uninit8 uninitp)) = 256%nat /\
  length (ErasuresIndices (kmalloc_CM256Decoder uninit8 uninitp)) = 256%nat.
Proof. repeat split. Qed.

(** Blocks with pairwise distinct indices have distinct original indices. *)
Lemma NoDup_distinct_originals params blocks :
  length blocks = Z.to_nat (OriginalCount params) ->
  NoDup (map Index blocks) -> distinct_originals params blocks.
Proof.
  intros Hl Hn p q Hpq Hq _ E. unfold block_index in E. apply int_of_inj in E.
  unfold blk in E.
  rewrite <- !(map_nth Index) in E.
  apply (NoDup_nth (map Index blocks) (Index {| Block := []; Index := x00 |})) in E;
    try assumption; try (rewrite length_map; lia).
  lia.
Qed.

From Stdlib Require Import Sorted.

(** * Properties of the decoder bookkeeping *)

Lemma StronglySorted_filter {A} (R : A -> A -> Prop) (f : A -> bool) l :
  StronglySorted R l -> StronglySorted R (filter f l).
Proof.
  induction 1 as [|a l Hs IH Hf]; simpl; [constructor|].
  destruct (f a); [|assumption]. constructor; [assumption|].
  rewrite Forall_forall in *. intros x Hx. apply filter_In in Hx. now apply Hf.
Qed.

Lemma StronglySorted_zrange n : StronglySorted Z.lt (zrange n).
Proof.
  unfold zrange. generalize (Z.to_nat n) as m. intros m.
  assert (H : forall s, StronglySorted Z.lt (map Z.of_nat (seq s m))).
  { induction m as [|m IH]; intros s; simpl; constructor; [apply IH|].
    rewrite Forall_forall. intros x Hx. apply in_map_iff in Hx.
    destruct Hx as (i & <- & Hi). apply in_seq in Hi. lia. }
  apply H.
Qed.

Definition S5_params : cm256_encoder_params :=
  {| OriginalCount := 3; RecoveryCount := 2; BlockBytes := 64 |}.

(** A decoder state with 256-entry arrays of arbitrary contents. *)
Definition example_decoder : CM256Decoder :=
  {| Params := S5_params; Recovery := repeat 7 256; dec_RecoveryCount := 9;
     Original := repeat 5 256; dec_OriginalCount := 11;
     ErasuresIndices := repeat x2a 256 |}.

(** Two originals and the second recovery block, in this order: 2, 4, 0. *)
Definition example_blocks : list cm256_block :=
  [ {| Block := repeat x11 64; Index := x02 |};
    {| Block := repeat x22 64; Index := x04 |};
    {| Block := repeat x33 64; Index := x00 |} ].

(** C7. For [k] supplied blocks with pairwise distinct indices, [Initialize]
    returns 0 and leaves a decoder state in which [OriginalCount +
    RecoveryCount = k], the first [OriginalCount] entries of [Original] point
    to the supplied blocks with an index below [k] and the first
    [RecoveryCount] entries of [Recovery] to those with an index of at least
    [k] (both in the order of the supply), and the first [RecoveryCount]
    entries of [ErasuresIndices] are, in ascending order, the original
    indices in [0, k) that no supplied block has. *)
Theorem Initialize_bookkeeping :
  forall decoder params blocks,
    length (Recovery decoder) = 256%nat ->
    length (Original decoder) = 256%nat ->
    length (ErasuresIndices decoder) = 256%nat ->
    valid_params params ->
    length blocks = Z.to_nat (OriginalCount params) ->
    NoDup (map Index blocks) ->
    exists d,
      Initialize decoder params blocks = (0, d) /\
      dec_OriginalCount d + dec_RecoveryCount d = OriginalCount params /\
      0 <= dec_OriginalCount d /\ 0 <= dec_RecoveryCount d /\
      firstn (Z.to_nat (dec_OriginalCount d)) (Original d)
      = filter (fun p => int_of (Index (blk blocks p)) <? OriginalCount params)
          (zrange (OriginalCount params)) /\
      firstn (Z.to_nat (dec_RecoveryCount d)) (Recovery d)
      = filter (fun p => negb (int_of (Index (blk blocks p)) <? OriginalCount params))
          (zrange (OriginalCount params)) /\
      firstn (Z.to_nat (dec_RecoveryCount d)) (ErasuresIndices d)
      = map u8 (erasures_of params blocks) /\
      StronglySorted Z.lt (erasures_of params blocks) /\
      (forall r, In r (erasures_of params blocks) <->
         0 <= r < OriginalCount params /\
         forall b, In b blocks -> int_of (Index b) <> r).
Proof.
  intros decoder params blocks HLR HLO HLE Hv Hl Hn.
  pose proof Hv as (Hk & Hm & HB & Hs).
  destruct (Initialize_distinct params blocks ltac:(lia) decoder HLR HLO HLE
              (NoDup_distinct_originals params blocks Hl Hn))
    as (d & Hi & HP & HOC & HRC & HFO & HFR & HLen & HFE).
  exists d. split; [assumption|].
  pose proof (length_originals_recoveries params blocks (OriginalCount params) ltac:(lia)).
  split; [lia|]. split; [lia|]. split; [lia|].
  split; [rewrite HOC, Nat2Z.id; exact HFO|].
  split; [rewrite HRC, Nat2Z.id; exact HFR|].
  split; [rewrite HRC, Nat2Z.id, <- HLen; exact HFE|].
  split; [apply StronglySorted_filter, StronglySorted_zrange|].
  intros r. rewrite in_erasures_of.
  split; intros [Hr Hb]; (split; [assumption|]).
  - intros b Hb' E.
    destruct (In_nth _ _ {| Block := []; Index := x00 |} Hb') as (i & Hi' & Hnth).
    apply (Hb (Z.of_nat i)); [lia|]. unfold block_index, blk.
    now rewrite Nat2Z.id, Hnth.
  - intros p Hp. apply Hb. unfold blk. apply nth_In. lia.
Qed.

Lemma Initialize_bookkeeping_witness :
  exists d,
    Initialize example_decoder S5_params example_blocks = (0, d) /\
    dec_OriginalCount d + dec_RecoveryCount d = 3 /\
    0 <= dec_OriginalCount d /\ 0 <= dec_RecoveryCount d /\
    firstn (Z.to_nat (dec_OriginalCount d)) (Original d)
    = filter (fun p => int_of (Index (blk example_blocks p)) <? 3) (zrange 3) /\
    firstn (Z.to_nat (dec_RecoveryCount d)) (Recovery d)
    = filter (fun p => negb (int_of (Index (blk example_blocks p)) <? 3)) (zrange 3) /\
    firstn (Z.to_nat (dec_RecoveryCount d)) (ErasuresIndices d)
    = map u8 (erasures_of S5_params example_blocks) /\
    StronglySorted Z.lt (erasures_of S5_params example_blocks) /\
    (forall r, In r (erasures_of S5_params example_blocks) <->
       0 <= r < 3 /\ forall b, In b example_blocks -> int_of (Index b) <> r).
Proof.
  apply (Initialize_bookkeeping example_decoder S5_params example_blocks).
  - reflexivity.
  - reflexivity.
  - reflexivity.
  - unfold valid_params; simpl; lia.
  - reflexivity.
  - simpl. repeat constructor; simpl; intuition discriminate.
Defined.

(** Three descriptors, two of which carry the original index 1. *)
Definition S5_blocks : list cm256_block :=
  [ {| Block := repeat x11 64; Index := x00 |};
    {| Block := repeat x22 64; Index := x01 |};
    {| Block := repeat x33 64; Index := x01 |} ].

(** C9. With valid parameters and at least two originals, when two of the
    supplied blocks carry the same original index [cm256_decode] returns -5
    and leaves the caller's descriptors and buffers as they were. *)
Theorem decode_duplicate_original :
  forall uninit8 uninitp params blocks p q,
    valid_params params -> 2 <= OriginalCount params ->
    0 <= p < q -> q < OriginalCount params ->
    int_of (Index (blk blocks p)) < OriginalCount params ->
    Index (blk blocks p) = Index (blk blocks q) ->
    cm256_decode uninit8 uninitp params (Some blocks) = (-5, Some blocks).
Proof.
  intros uninit8 uninitp params blocks p q Hv Hk Hpq Hq Hp E.
  pose proof Hv as (Hk1 & Hm & HB & Hs).
  unfold cm256_decode. cbv zeta.
  destruct (Z.leb_spec (OriginalCount params) 0); [lia|].
  destruct (Z.leb_spec (RecoveryCount params) 0); [lia|].
  destruct (Z.leb_spec (BlockBytes params) 0); [lia|]. cbn [orb].
  rewrite int_add_small by lia.
  destruct (Z.gtb_spec (OriginalCount params + RecoveryCount params) 256); [lia|].
  destruct (Z.eqb_spec (OriginalCount params) 1); [lia|].
  destruct (kmalloc_CM256Decoder_lengths uninit8 uninitp) as (L1 & L2 & L3).
  pose proof (Initialize_duplicate params blocks ltac:(lia)
                (kmalloc_CM256Decoder uninit8 uninitp) L1 L2 L3) as Hd.
  destruct (Initialize _ params blocks) as [ret st]. simpl in Hd.
  rewrite Hd; [reflexivity|].
  intros Hdist. apply (Hdist p q); try assumption.
  - unfold is_original, block_index. lia.
  - unfold block_index. now rewrite E.
Qed.

(** The S5 scenario: k = 3, m = 2, B = 64. *)
Lemma decode_duplicate_original_witness :
  cm256_decode (fun _ => x00) (fun _ => 0) S5_params (Some S5_blocks)
  = (-5, Some S5_blocks).
Proof.
  apply (decode_duplicate_original (fun _ => x00) (fun _ => 0) S5_params S5_blocks 1 2).
  - unfold valid_params; simpl; lia.
  - simpl; lia.
  - lia.
  - simpl; lia.
  - vm_compute. reflexivity.
  - reflexivity.
Defined.

(** Nothing to recover: [cm256_decode] returns the blocks as they are. *)
Lemma cm256_decode_all_originals uninit8 uninitp params blocks :
  valid_params params -> 2 <= OriginalCount params ->
  length blocks = Z.to_nat (OriginalCount params) ->
  NoDup (map Index blocks) ->
  (forall b, In b blocks -> int_of (Index b) < OriginalCount params) ->
  cm256_decode uninit8 uninitp params (Some blocks) = (0, Some blocks).
Proof.
  intros Hv Hk Hl Hn Ho.
  pose proof Hv as (Hk1 & Hm & HB & Hs).
  unfold cm256_decode. cbv zeta.
  destruct (Z.leb_spec (OriginalCount params) 0); [lia|].
  destruct (Z.leb_spec (RecoveryCount params) 0); [lia|].
  destruct (Z.leb_spec (BlockBytes params) 0); [lia|]. cbn [orb].
  rewrite int_add_small by lia.
  destruct (Z.gtb_spec (OriginalCount params + RecoveryCount params) 256); [lia|].
  destruct (Z.eqb_spec (OriginalCount params) 1); [lia|].
  destruct (kmalloc_CM256Decoder_lengths uninit8 uninitp) as (L1 & L2 & L3).
  destruct (Initialize_distinct params blocks ltac:(lia)
              (kmalloc_CM256Decoder uninit8 uninitp) L1 L2 L3
              (NoDup_distinct_originals params blocks Hl Hn))
    as (d & Hi & HP & HOC & HRC & _).
  rewrite Hi. cbn [negb Z.eqb].
  assert (Hr : recoveries_of params blocks (OriginalCount params) = []).
  { unfold recoveries_of.
    rewrite (filter_ext_in _ (fun _ => false)); [now induction (zrange _)|].
    intros a Ha. apply in_zrange in Ha. unfold is_original, block_index.
    assert (int_of (Index (blk blocks a)) < OriginalCount params)
      by (apply Ho; unfold blk; apply nth_In; lia).
    destruct (Z.ltb_spec (int_of (Index (blk blocks a))) (OriginalCount params));
      [reflexivity|lia]. }
  rewrite Hr in HRC. rewrite HRC. reflexivity.
Qed.

(** C10. With valid parameters and at least two originals, when the [k]
    supplied blocks carry pairwise distinct original indices [cm256_decode]
    returns 0 and leaves every buffer and every [Index] as it was. *)
Theorem decode_without_erasures :
  forall uninit8 uninitp params blocks,
    valid_params params -> 2 <= OriginalCount params ->
    length blocks = Z.to_nat (OriginalCount params) ->
    NoDup (map Index blocks) ->
    (forall b, In b blocks -> int_of (Index b) < OriginalCount params) ->
    cm256_decode uninit8 uninitp params (Some blocks) = (0, Some blocks).
Proof.
  intros uninit8 uninitp params blocks. apply cm256_decode_all_originals.
Qed.

(** All three originals of the S5 parameters, in the order 2, 0, 1. *)
Definition S5_all_originals : list cm256_block :=
  [ {| Block := repeat x11 64; Index := x02 |};
    {| Block := repeat x22 64; Index := x00 |};
    {| Block := repeat x33 64; Index := x01 |} ].

Lemma decode_without_erasures_witness :
  cm256_decode (fun _ => x00) (fun _ => 0) S5_params (Some S5_all_originals)
  = (0, Some S5_all_originals).
Proof.
  apply (decode_without_erasures (fun _ => x00) (fun _ => 0) S5_params S5_all_originals).
  - unfold valid_params; simpl; lia.
  - simpl; lia.
  - reflexivity.
  - simpl. repeat constructor; simpl; intuition discriminate.
  - intros b [<-|[<-|[<-|[]]]]; vm_compute; reflexivity.
Defined.


(** * The LDU decomposition of a normalised Cauchy matrix

    The algebra behind [GenerateLDUDecomposition]: for pairwise distinct
    [x 0 .. x (N-1)], [y 0 .. y (N-1)] and a normaliser [x0], the matrix
    [G i j = (y j + x0) / (x i + y j)] is the product of a unit lower
    triangular matrix, a diagonal matrix and a unit upper triangular matrix,
    whose entries the Schur-complement recursion on the generators [g] and
    [b] produces. *)

Lemma gsum_zero_tail f m n :
  (m <= n)%nat -> (forall t, (m <= t < n)%nat -> f t = x00) -> gsum f n = gsum f m.
Proof.
  intros Hmn. induction n as [|n IH]; intros Hz.
  - now replace m with O by lia.
  - destruct (Nat.eq_dec m (S n)) as [->|Hne]; [reflexivity|].
    simpl. rewrite Hz by lia. rewrite IH; [ring|lia|]. intros t Ht. apply Hz. lia.
Qed.

Section Schur.

Variables x y : nat -> byte.
Variable x0 : byte.
Variable N : nat.

Hypothesis Hxy : forall i j, (i < N)%nat -> (j < N)%nat -> gf256_add (x i) (y j) <> x00.
Hypothesis Hxx : forall i j, (i < N)%nat -> (j < N)%nat -> i <> j ->
  gf256_add (x i) (x j) <> x00.
Hypothesis Hyy : forall i j, (i < N)%nat -> (j < N)%nat -> i <> j ->
  gf256_add (y i) (y j) <> x00.
Hypothesis Hx0 : forall j, (j < N)%nat -> gf256_add x0 (y j) <> x00.

(** The generators after [k] pivot steps. *)
Fixpoint gen_g (k j : nat) : byte :=
  match k with
  | O => x01
  | S k' =>
      gf256_mul (gen_g k' j)
        (gf256_div (gf256_add (x j) (x k')) (gf256_add (x j) (y k')))
  end.

Fixpoint gen_b (k j : nat) : byte :=
  match k with
  | O => x01
  | S k' =>
      gf256_mul (gen_b k' j)
        (gf256_div (gf256_add (y j) (y k')) (gf256_add (y j) (x k')))
  end.

(** The values the pivot step [k] computes. *)
Definition ldu_Lkk (k : nat) : byte :=
  gf256_div (gen_g k k) (gf256_add (x k) (y k)).

Definition ldu_Ukk (k : nat) : byte :=
  gf256_mul (gf256_div (gen_b k k) (gf256_add (x k) (y k))) (gf256_add x0 (y k)).

(** The entry of the diagonal factor as the pivot steps store it, and as
    the final step stores the last one. *)
Definition ldu_D_pivot (k : nat) : byte :=
  gf256_mul (gf256_add (x k) (y k)) (gf256_mul (ldu_Lkk k) (ldu_Ukk k)).

Definition ldu_D_last (k : nat) : byte :=
  gf256_div (gf256_mul (gen_g k k) (gf256_mul (gen_b k k) (gf256_add x0 (y k))))
    (gf256_add (x k) (y k)).

Definition ldu_D (k : nat) : byte :=
  if (S k =? N)%nat then ldu_D_last k else ldu_D_pivot k.

(** The entry [(i, k)] of the lower factor, [k < i]. *)
Definition ldu_L (i k : nat) : byte :=
  gf256_div (gf256_div (gen_g k i) (gf256_add (x i) (y k))) (ldu_Lkk k).

(** The entry [(k, j)] of the upper factor before and after the diagonal
    [x0 + y j] is multiplied into it, [k < j]. *)
Definition ldu_U_rot (k j : nat) : byte :=
  gf256_div (gf256_div (gen_b k j) (gf256_add (x k) (y j))) (ldu_Ukk k).

Definition ldu_U (k j : nat) : byte :=
  gf256_mul (gf256_add x0 (y j)) (ldu_U_rot k j).

(** The three factors as full matrices. *)
Definition Lmat (i k : nat) : byte :=
  if (i =? k)%nat then x01 else if (k <? i)%nat then ldu_L i k else x00.

Definition Umat (k j : nat) : byte :=
  if (k =? j)%nat then x01 else if (k <? j)%nat then ldu_U k j else x00.

(** The matrix that is decomposed. *)
Definition Gmat (i j : nat) : byte := GetMatrixElement (x i) x0 (y j).

Lemma Hyx i j : (i < N)%nat -> (j < N)%nat -> gf256_add (y j) (x i) <> x00.
Proof. intros Hi Hj. rewrite gf256_add_comm. now apply Hxy. Qed.

Lemma gen_g_neq0 k j : (k <= j)%nat -> (j < N)%nat -> gen_g k j <> x00.
Proof.
  induction k as [|k IH]; intros Hk Hj; simpl; [discriminate|].
  apply gf256_mul_neq0; [apply IH; lia|].
  apply gf256_div_neq0; [apply Hxx | apply Hxy]; lia.
Qed.

Lemma gen_b_neq0 k j : (k <= j)%nat -> (j < N)%nat -> gen_b k j <> x00.
Proof.
  induction k as [|k IH]; intros Hk Hj; simpl; [discriminate|].
  apply gf256_mul_neq0; [apply IH; lia|].
  apply gf256_div_neq0; [apply Hyy | apply Hyx]; lia.
Qed.

Lemma ldu_Lkk_neq0 k : (k < N)%nat -> ldu_Lkk k <> x00.
Proof.
  intros Hk. apply gf256_div_neq0; [apply gen_g_neq0 | apply Hxy]; lia.
Qed.

Lemma ldu_Ukk_neq0 k : (k < N)%nat -> ldu_Ukk k <> x00.
Proof.
  intros Hk. apply gf256_mul_neq0; [|now apply Hx0].
  apply gf256_div_neq0; [apply gen_b_neq0 | apply Hxy]; lia.
Qed.

(** The Schur complement after [k] steps, for the matrix [1 / (x i + y j)]. *)
Definition schur (k i j : nat) : byte :=
  gf256_div (gf256_mul (gen_g k i) (gen_b k j)) (gf256_add (x i) (y j)).

Lemma schur_neq0 k i j :
  (k <= i)%nat -> (k <= j)%nat -> (i < N)%nat -> (j < N)%nat -> schur k i j <> x00.
Proof.
  intros. apply gf256_div_neq0; [|now apply Hxy].
  apply gf256_mul_neq0; [now apply gen_g_neq0 | now apply gen_b_neq0].
Qed.

Ltac nz :=
  repeat split;
  try solve [ assumption | discriminate
            | apply Hxy; lia | apply Hyx; lia | apply Hx0; lia
            | apply Hxx; lia | apply Hyy; lia
            | apply gen_g_neq0; lia | apply gen_b_neq0; lia
            | apply ldu_Lkk_neq0; lia | apply ldu_Ukk_neq0; lia ].

Lemma schur_step k i j :
  (k < i)%nat -> (k < j)%nat -> (i < N)%nat -> (j < N)%nat ->
  schur (S k) i j
  = gf256_add (schur k i j)
      (gf256_div (gf256_mul (schur k i k) (schur k k j)) (schur k k k)).
Proof.
  intros Hki Hkj Hi Hj. unfold schur. simpl.
  assert (gf256_add (x i) (y j) <> x00) by nz.
  assert (gf256_add (x i) (y k) <> x00) by nz.
  assert (gf256_add (x k) (y j) <> x00) by nz.
  assert (gf256_add (x k) (y k) <> x00) by nz.
  assert (gf256_add (y j) (x k) <> x00) by nz.
  assert (gen_g k k <> x00) by nz.
  assert (gen_b k k <> x00) by nz.
  field. nz.
Qed.

Lemma ldu_D_eq k :
  (k < N)%nat ->
  ldu_D k = gf256_mul (schur k k k) (gf256_add x0 (y k)).
Proof.
  intros Hk. unfold ldu_D, ldu_D_last, ldu_D_pivot, ldu_Lkk, ldu_Ukk, schur.
  assert (gf256_add (x k) (y k) <> x00) by nz.
  destruct (S k =? N)%nat; field; nz.
Qed.

Lemma ldu_D_neq0 k : (k < N)%nat -> ldu_D k <> x00.
Proof.
  intros Hk. rewrite ldu_D_eq by assumption.
  apply gf256_mul_neq0; [apply schur_neq0; lia | now apply Hx0].
Qed.

(** One term of the product [L * D * U]. *)
Definition ldu_term (i j t : nat) : byte :=
  gf256_mul (Lmat i t) (gf256_mul (ldu_D t) (Umat t j)).

Lemma ldu_term_below i j t :
  (t < i)%nat -> (t < j)%nat -> (i < N)%nat -> (j < N)%nat ->
  ldu_term i j t
  = gf256_mul (gf256_add x0 (y j))
      (gf256_add (schur t i j) (schur (S t) i j)).
Proof.
  intros Hti Htj Hi Hj. rewrite schur_step by assumption.
  unfold ldu_term, Lmat, Umat.
  destruct (Nat.eqb_spec i t); [lia|]. destruct (Nat.eqb_spec t j); [lia|].
  destruct (Nat.ltb_spec t i); [|lia]. destruct (Nat.ltb_spec t j); [|lia].
  rewrite ldu_D_eq by lia.
  unfold ldu_L, ldu_U, ldu_U_rot, ldu_Lkk, ldu_Ukk, schur.
  assert (gf256_add (x i) (y j) <> x00) by nz.
  assert (gf256_add (x i) (y t) <> x00) by nz.
  assert (gf256_add (x t) (y j) <> x00) by nz.
  assert (gf256_add (x t) (y t) <> x00) by nz.
  assert (gf256_add x0 (y t) <> x00) by nz.
  assert (gen_g t t <> x00) by nz.
  assert (gen_b t t <> x00) by nz.
  field. nz.
Qed.

Lemma ldu_term_pivot i j t :
  t = Nat.min i j -> (i < N)%nat -> (j < N)%nat ->
  ldu_term i j t = gf256_mul (gf256_add x0 (y j)) (schur t i j).
Proof.
  intros Ht Hi Hj. unfold ldu_term, Lmat, Umat.
  rewrite ldu_D_eq by lia.
  unfold ldu_L, ldu_U, ldu_U_rot, ldu_Lkk, ldu_Ukk, schur.
  assert (gf256_add (x i) (y j) <> x00) by nz.
  assert (gf256_add (x i) (y t) <> x00) by nz.
  assert (gf256_add (x t) (y j) <> x00) by nz.
  assert (gf256_add (x t) (y t) <> x00) by (apply Hxy; lia).
  assert (gf256_add x0 (y t) <> x00) by (apply Hx0; lia).
  assert (gen_g t t <> x00) by (apply gen_g_neq0; lia).
  assert (gen_b t t <> x00) by (apply gen_b_neq0; lia).
  assert (Hm : (t = i \/ t = j) /\ (t <= i)%nat /\ (t <= j)%nat) by lia. clear Ht.
  destruct (Nat.eqb_spec i t) as [Eit|Nit], (Nat.eqb_spec t j) as [Etj|Ntj].
  - subst i. subst j. field. nz.
  - subst i. destruct (Nat.ltb_spec t j); [|lia]. field. nz.
  - subst j. destruct (Nat.ltb_spec t i); [|lia]. field. nz.
  - lia.
Qed.

Lemma ldu_term_above i j t :
  (Nat.min i j < t)%nat -> ldu_term i j t = x00.
Proof.
  intros Ht. unfold ldu_term, Lmat, Umat.
  destruct (Nat.eqb_spec i t), (Nat.eqb_spec t j); try lia.
  - destruct (Nat.ltb_spec t j); [lia|]. now rewrite !gf256_mul_0_r.
  - destruct (Nat.ltb_spec t i); [lia|]. now rewrite gf256_mul_0_l.
  - destruct (Nat.ltb_spec t i), (Nat.ltb_spec t j); try lia;
      now rewrite ?gf256_mul_0_l, ?gf256_mul_0_r.
Qed.

Lemma ldu_partial_sum i j n :
  (n <= Nat.min i j)%nat -> (i < N)%nat -> (j < N)%nat ->
  gsum (ldu_term i j) n
  = gf256_mul (gf256_add x0 (y j)) (gf256_add (schur 0 i j) (schur n i j)).
Proof.
  intros Hn Hi Hj. induction n as [|n IH]; simpl.
  - ring.
  - rewrite IH by lia. rewrite ldu_term_below by lia. ring.
Qed.

(** The product of the three factors is the normalised Cauchy matrix. *)
Theorem ldu_product i j :
  (i < N)%nat -> (j < N)%nat ->
  gsum (fun t => gf256_mul (Lmat i t) (gf256_mul (ldu_D t) (Umat t j))) N = Gmat i j.
Proof.
  intros Hi Hj. change (gsum (ldu_term i j) N = Gmat i j).
  rewrite (gsum_zero_tail _ (S (Nat.min i j)) N) by
    (try lia; intros t Ht; apply ldu_term_above; lia).
  simpl. rewrite ldu_partial_sum by lia.
  rewrite (ldu_term_pivot i j (Nat.min i j)) by (reflexivity || assumption).
  unfold Gmat, GetMatrixElement, schur. simpl.
  assert (gf256_add (x i) (y j) <> x00) by nz.
  field. nz.
Qed.

End Schur.


(** * The packed storage of the triangular factors *)

(** The number of entries of a strict triangle of size [n]. *)
Definition tri (n : Z) : Z := Z.quot ((n - 1) * n) 2.

Lemma tri_double n : 0 <= n -> 2 * tri n = (n - 1) * n.
Proof.
  intros Hn. unfold tri.
  destruct (Z.eq_dec n 0) as [->|Hn0]; [reflexivity|].
  rewrite Z.quot_div_nonneg by nia.
  assert (E : ((n - 1) * n) mod 2 = 0).
  { rewrite Z.mul_mod by lia.
    destruct (Z.mod_pos_bound n 2 ltac:(lia)) as [H0 H1].
    destruct (Z.mod_pos_bound (n - 1) 2 ltac:(lia)) as [H2 H3].
    assert (Hc : n mod 2 = 0 \/ n mod 2 = 1) by lia.
    destruct Hc as [Hc|Hc].
    - rewrite Hc, Z.mul_0_r. reflexivity.
    - assert ((n - 1) mod 2 = 0) as ->.
      { rewrite (Z.div_mod n 2) at 1 by lia. rewrite Hc.
        replace (2 * (n / 2) + 1 - 1) with ((n / 2) * 2) by lia.
        apply Z.mod_mul. lia. }
      reflexivity. }
  pose proof (Z.div_mod ((n - 1) * n) 2 ltac:(lia)). lia.
Qed.

Lemma tri_succ n : 0 <= n -> tri (n + 1) = tri n + n.
Proof.
  intros Hn. pose proof (tri_double n Hn). pose proof (tri_double (n + 1) ltac:(lia)).
  nia.
Qed.

Lemma tri_0 : tri 0 = 0.
Proof. reflexivity. Qed.

Lemma tri_1 : tri 1 = 0.
Proof. reflexivity. Qed.

Lemma tri_nonneg n : 0 <= n -> 0 <= tri n.
Proof.
  intros Hn. pose proof (tri_double n Hn).
  destruct (Z.eq_dec n 0) as [->|Hn0]; [reflexivity|].
  assert (0 <= (n - 1) * n) by (apply Z.mul_nonneg_nonneg; lia). lia.
Qed.

Lemma tri_mono a b : 0 <= a <= b -> tri a <= tri b.
Proof.
  intros H. assert (Hm : forall d, (0 <= d) -> tri a <= tri (a + d)).
  { intros d Hd. pattern d. apply natlike_ind; [now rewrite Z.add_0_r| |assumption].
    intros x Hx IH. replace (a + Z.succ x) with (a + x + 1) by lia.
    rewrite tri_succ by lia. lia. }
  replace b with (a + (b - a)) by lia. apply Hm. lia.
Qed.

Lemma tri_le_square n : 0 <= n -> 2 * tri n + n = n * n.
Proof. intros Hn. pose proof (tri_double n Hn). lia. Qed.

(** The offset, in the region [matrix_L], of the entry [(i, k)] of the
    lower factor ([k < i < N]): the columns 0, 1, ... follow each other, each
    from its first row below the diagonal downwards. *)
Definition posL (N i k : Z) : Z := tri N - tri (N - k) + (i - k - 1).

(** The offset, in the region [matrix_U], of the entry [(i, j)] of the upper
    factor ([i < j < N]): the columns N - 1, N - 2, ... follow each other,
    each from its last row above the diagonal upwards. *)
Definition posU (N i j : Z) : Z := tri N - tri (j + 1) + (j - 1 - i).

Lemma posL_range N i k : 0 <= k < i -> i < N -> 0 <= posL N i k < tri N.
Proof.
  intros Hk Hi. unfold posL.
  pose proof (tri_succ (N - k - 1) ltac:(lia)) as E.
  replace (N - k - 1 + 1) with (N - k) in E by lia.
  pose proof (tri_mono (N - k) N ltac:(lia)).
  pose proof (tri_nonneg (N - k - 1) ltac:(lia)). lia.
Qed.

Lemma posL_column N i k k' i' :
  0 <= k < i -> i < N -> 0 <= k' < i' -> i' < N -> k < k' ->
  posL N i k < posL N i' k'.
Proof.
  intros Hk Hi Hk' Hi' Hlt. unfold posL.
  pose proof (tri_succ (N - k - 1) ltac:(lia)) as E.
  replace (N - k - 1 + 1) with (N - k) in E by lia.
  pose proof (tri_mono (N - k') (N - k - 1) ltac:(lia)). lia.
Qed.

Lemma posL_inj N i k i' k' :
  0 <= k < i -> i < N -> 0 <= k' < i' -> i' < N ->
  posL N i k = posL N i' k' -> i = i' /\ k = k'.
Proof.
  intros Hk Hi Hk' Hi' E.
  destruct (Z.lt_total k k') as [Hlt|[Heq|Hgt]].
  - pose proof (posL_column N i k k' i' Hk Hi Hk' Hi' Hlt). lia.
  - subst k'. unfold posL in E. lia.
  - pose proof (posL_column N i' k' k i Hk' Hi' Hk Hi Hgt). lia.
Qed.

Lemma posU_range N i j : 0 <= i < j -> j < N -> 0 <= posU N i j < tri N.
Proof.
  intros Hi Hj. unfold posU.
  pose proof (tri_succ j ltac:(lia)) as E.
  pose proof (tri_mono (j + 1) N ltac:(lia)).
  pose proof (tri_nonneg j ltac:(lia)). lia.
Qed.

Lemma posU_column N i j i' j' :
  0 <= i < j -> j < N -> 0 <= i' < j' -> j' < N -> j < j' ->
  posU N i' j' < posU N i j.
Proof.
  intros Hi Hj Hi' Hj' Hlt. unfold posU.
  pose proof (tri_succ j' ltac:(lia)) as E.
  pose proof (tri_mono (j + 1) j' ltac:(lia)). lia.
Qed.

Lemma posU_inj N i j i' j' :
  0 <= i < j -> j < N -> 0 <= i' < j' -> j' < N ->
  posU N i j = posU N i' j' -> i = i' /\ j = j'.
Proof.
  intros Hi Hj Hi' Hj' E.
  destruct (Z.lt_total j j') as [Hlt|[Heq|Hgt]].
  - pose proof (posU_column N i j i' j' Hi Hj Hi' Hj' Hlt). lia.
  - subst j'. unfold posU in E. lia.
  - pose proof (posU_column N i' j' i j Hi' Hj' Hi Hj Hgt). lia.
Qed.

(** ** Loads and stores *)

Lemma load_store m p q v :
  0 <= p -> 0 <= q ->
  load (store m p v) q
  = if (p =? q) && (p <? Z.of_nat (length m)) then v else load m q.
Proof.
  intros Hp Hq. destruct (Z.eqb_spec p q) as [->|Hne]; simpl.
  - destruct (Z.ltb_spec q (Z.of_nat (length m))).
    + apply load_store_eq. lia.
    + unfold store. now rewrite upd_out by lia.
  - now apply load_store_neq.
Qed.

Lemma load_byte_at m p : load m p = byte_at m (Z.to_nat p).
Proof. reflexivity. Qed.

(** An in-place bulk operation on [n] bytes at the offset [p]. *)
Lemma load_at_ptr_mem_set m p n f q :
  0 <= p -> 0 <= n -> p + n <= Z.of_nat (length m) -> 0 <= q ->
  load (at_ptr p (fun r => mem_set (Z.to_nat n) 0 (fun i _ => f (byte_at r i)) r) m) q
  = if (p <=? q) && (q <? p + n) then f (load m q) else load m q.
Proof.
  intros Hp Hn Hl Hq. rewrite !load_byte_at, byte_at_at_ptr by lia.
  destruct (Nat.ltb_spec (Z.to_nat q) (Z.to_nat p)) as [Hlt|Hge].
  - destruct (Z.leb_spec p q); [lia|]. reflexivity.
  - destruct (Z.leb_spec p q); [|lia]. simpl.
    rewrite byte_at_mem_set, length_skipn, byte_at_skipn.
    replace (Z.to_nat p + (Z.to_nat q - Z.to_nat p))%nat with (Z.to_nat q) by lia.
    destruct (Z.ltb_spec q (p + n)).
    + destruct (Nat.ltb_spec (Z.to_nat q - Z.to_nat p) (Z.to_nat n)); [|lia].
      destruct (Nat.ltb_spec (Z.to_nat q - Z.to_nat p) (length m - Z.to_nat p)); [|lia].
      reflexivity.
    + destruct (Nat.ltb_spec (Z.to_nat q - Z.to_nat p) (Z.to_nat n)); [lia|].
      reflexivity.
Qed.

Lemma length_at_ptr_mem_set m p n f :
  length (at_ptr p (fun r => mem_set n 0 (f r) r) m) = length m.
Proof.
  unfold at_ptr. rewrite length_app, length_mem_set, <- length_app.
  now rewrite firstn_skipn.
Qed.

Lemma load_div_mem_at m p n c q :
  0 <= p -> 0 <= n -> p + n <= Z.of_nat (length m) -> 0 <= q ->
  load (at_ptr p (fun r => gf256_div_mem r r c n) m) q
  = if (p <=? q) && (q <? p + n) then gf256_div (load m q) c else load m q.
Proof.
  intros. unfold gf256_div_mem.
  now rewrite (load_at_ptr_mem_set m p n (fun s => gf256_div s c)).
Qed.

Lemma load_mul_mem_at m p n c q :
  0 <= p -> 0 <= n -> p + n <= Z.of_nat (length m) -> 0 <= q ->
  load (at_ptr p (fun r => gf256_mul_mem r r c n) m) q
  = if (p <=? q) && (q <? p + n) then gf256_mul c (load m q) else load m q.
Proof.
  intros. unfold gf256_mul_mem.
  now rewrite (load_at_ptr_mem_set m p n (fun s => gf256_mul c s)).
Qed.

Lemma load_div_mem m n c q :
  0 <= n -> n <= Z.of_nat (length m) -> 0 <= q ->
  load (gf256_div_mem m m c n) q
  = if q <? n then gf256_div (load m q) c else load m q.
Proof.
  intros Hn Hl Hq. unfold gf256_div_mem. rewrite !load_byte_at, byte_at_mem_set.
  destruct (Z.ltb_spec q n).
  - destruct (Nat.ltb_spec (Z.to_nat q) (Z.to_nat n)); [|lia].
    destruct (Nat.ltb_spec (Z.to_nat q) (length m)); [|lia]. reflexivity.
  - destruct (Nat.ltb_spec (Z.to_nat q) (Z.to_nat n)); [lia|]. reflexivity.
Qed.

Lemma length_uninit_bytes uninit8 n : length (uninit_bytes uninit8 n) = n.
Proof. unfold uninit_bytes. now rewrite length_map, length_seq. Qed.


(** * [GenerateLDUDecomposition]: the loops *)

(** The x-coordinate of the i-th recovery row, the y-coordinate of the j-th
    erased column, and the normaliser, as the decoder state gives them. *)
Definition rec_x (decoder : CM256Decoder) (blocks : list cm256_block) (i : Z) : byte :=
  Index (blk blocks (loadp (Recovery decoder) i)).
Definition era_y (decoder : CM256Decoder) (j : Z) : byte :=
  load (ErasuresIndices decoder) j.
Definition norm_x0 (decoder : CM256Decoder) : byte :=
  u8 (OriginalCount (Params decoder)).

Definition ldu_state : Type :=
  (list byte * Z * list byte * list byte * list byte * Z)%type.

Section LDULoops.

Variable decoder : CM256Decoder.
Variable blocks : list cm256_block.
Variables matrix_L0 diag_D matrix_U : Z.

Local Abbreviation N := (dec_RecoveryCount decoder).
Local Abbreviation xs := (rec_x decoder blocks).
Local Abbreviation ys := (era_y decoder).
Local Abbreviation x0 := (norm_x0 decoder).
Local Abbreviation xn := (fun i : nat => rec_x decoder blocks (Z.of_nat i)).
Local Abbreviation yn := (fun j : nat => era_y decoder (Z.of_nat j)).

(** The closed forms of the LDU algebra at integer positions. *)
Definition zgen_g (k j : Z) : byte := gen_g xn yn (Z.to_nat k) (Z.to_nat j).
Definition zgen_b (k j : Z) : byte := gen_b xn yn (Z.to_nat k) (Z.to_nat j).
Definition zLkk (k : Z) : byte := ldu_Lkk xn yn (Z.to_nat k).
Definition zUkk (k : Z) : byte := ldu_Ukk xn yn x0 (Z.to_nat k).
Definition zD_pivot (k : Z) : byte := ldu_D_pivot xn yn x0 (Z.to_nat k).
Definition zL (i k : Z) : byte := ldu_L xn yn (Z.to_nat i) (Z.to_nat k).
Definition zU_rot (k j : Z) : byte := ldu_U_rot xn yn x0 (Z.to_nat k) (Z.to_nat j).
Definition zU (k j : Z) : byte := ldu_U xn yn x0 (Z.to_nat k) (Z.to_nat j).

Lemma zgen_g_succ k j :
  0 <= k -> 0 <= j ->
  zgen_g (k + 1) j
  = gf256_mul (zgen_g k j)
      (gf256_div (gf256_add (xs j) (xs k)) (gf256_add (xs j) (ys k))).
Proof.
  intros Hk Hj. unfold zgen_g.
  replace (Z.to_nat (k + 1)) with (S (Z.to_nat k)) by lia. simpl.
  now rewrite !Z2Nat.id by lia.
Qed.

Lemma zgen_b_succ k j :
  0 <= k -> 0 <= j ->
  zgen_b (k + 1) j
  = gf256_mul (zgen_b k j)
      (gf256_div (gf256_add (ys j) (ys k)) (gf256_add (ys j) (xs k))).
Proof.
  intros Hk Hj. unfold zgen_b.
  replace (Z.to_nat (k + 1)) with (S (Z.to_nat k)) by lia. simpl.
  now rewrite !Z2Nat.id by lia.
Qed.

Lemma zLkk_eq k :
  0 <= k -> zLkk k = gf256_div (zgen_g k k) (gf256_add (xs k) (ys k)).
Proof. intros Hk. unfold zLkk, ldu_Lkk, zgen_g. now rewrite !Z2Nat.id by lia. Qed.

Lemma zUkk_eq k :
  0 <= k ->
  zUkk k = gf256_mul (gf256_div (zgen_b k k) (gf256_add (xs k) (ys k)))
             (gf256_add x0 (ys k)).
Proof. intros Hk. unfold zUkk, ldu_Ukk, zgen_b. now rewrite !Z2Nat.id by lia. Qed.

Lemma zD_pivot_eq k :
  0 <= k ->
  zD_pivot k = gf256_mul (gf256_add (xs k) (ys k)) (gf256_mul (zLkk k) (zUkk k)).
Proof. intros Hk. unfold zD_pivot, ldu_D_pivot, zLkk, zUkk. now rewrite !Z2Nat.id by lia. Qed.

Lemma zL_eq i k :
  0 <= k -> 0 <= i ->
  zL i k = gf256_div (gf256_div (zgen_g k i) (gf256_add (xs i) (ys k))) (zLkk k).
Proof. intros Hk Hi. unfold zL, ldu_L, zLkk, zgen_g. now rewrite !Z2Nat.id by lia. Qed.

Lemma zU_rot_eq k j :
  0 <= k -> 0 <= j ->
  zU_rot k j = gf256_div (gf256_div (zgen_b k j) (gf256_add (xs k) (ys j))) (zUkk k).
Proof. intros Hk Hj. unfold zU_rot, ldu_U_rot, zUkk, zgen_b. now rewrite !Z2Nat.id by lia. Qed.

Lemma zU_eq k j :
  0 <= k -> 0 <= j -> zU k j = gf256_mul (gf256_add x0 (ys j)) (zU_rot k j).
Proof. intros Hk Hj. unfold zU, ldu_U, zU_rot. now rewrite !Z2Nat.id by lia. Qed.

(** ** The loop that computes the raw column of L and the raw row of U *)

Definition ldu_inner_state : Type :=
  (list byte * Z * list byte * Z * list byte * list byte)%type.

Definition ldu_inner_body (k : Z) (j : Z) (st : ldu_inner_state) : ldu_inner_state :=
  let '(matrix, matrix_L, rotated_row_U, row_U, g, b) := st in
  let x_k := Index (blk blocks (loadp (Recovery decoder) k)) in
  let y_k := load (ErasuresIndices decoder) k in
  let x_j := Index (blk blocks (loadp (Recovery decoder) j)) in
  let y_j := load (ErasuresIndices decoder) j in
  let L_jk := gf256_div (load g j) (gf256_add x_j y_k) in
  let U_kj := gf256_div (load b j) (gf256_add x_k y_j) in
  let matrix := store matrix matrix_L L_jk in
  let matrix_L := matrix_L + 1 in
  let rotated_row_U := store rotated_row_U row_U U_kj in
  let row_U := row_U + 1 in
  let g :=
    store g j
      (gf256_mul (load g j) (gf256_div (gf256_add x_j x_k) (gf256_add x_j y_k))) in
  let b :=
    store b j
      (gf256_mul (load b j) (gf256_div (gf256_add y_j y_k) (gf256_add y_j x_k))) in
  (matrix, matrix_L, rotated_row_U, row_U, g, b).

Section Inner.

Variable k : Z.
Variables (mem0 : list byte) (mL : Z) (rot0 g0 b0 : list byte).
Hypothesis Hk : 0 <= k.
Hypothesis HN : k < N <= 256.
Hypothesis HmL : 0 <= mL.
Hypothesis Hmem : mL + (N - k - 1) <= Z.of_nat (length mem0).
Hypothesis Hrot : length rot0 = 256%nat.
Hypothesis Hg : length g0 = 256%nat.
Hypothesis Hb : length b0 = 256%nat.
Hypothesis Hg0 : forall j, k <= j < N -> load g0 j = zgen_g k j.
Hypothesis Hb0 : forall j, k <= j < N -> load b0 j = zgen_b k j.

Definition inner_inv (j : Z) (st : ldu_inner_state) : Prop :=
  let '(mem, matrix_L, rot, row_U, g, b) := st in
  length mem = length mem0 /\ length rot = 256%nat /\
  length g = 256%nat /\ length b = 256%nat /\
  matrix_L = mL + (j - k - 1) /\ row_U = j - k - 1 /\
  (forall i, k < i < j ->
     load mem (mL + (i - k - 1)) = gf256_div (zgen_g k i) (gf256_add (xs i) (ys k))) /\
  (forall i, k < i < j ->
     load rot (i - k - 1) = gf256_div (zgen_b k i) (gf256_add (xs k) (ys i))) /\
  (forall q, 0 <= q -> q < mL \/ mL + (j - k - 1) <= q -> load mem q = load mem0 q) /\
  (forall i, k <= i < N ->
     load g i = if (k <? i) && (i <? j) then zgen_g (k + 1) i else zgen_g k i) /\
  (forall i, k <= i < N ->
     load b i = if (k <? i) && (i <? j) then zgen_b (k + 1) i else zgen_b k i).

Lemma inner_loop_spec :
  inner_inv N (for_up (k + 1) N (ldu_inner_body k) (mem0, mL, rot0, 0, g0, b0)).
Proof.
  apply (for_up_inv inner_inv); [lia| |].
  - unfold inner_inv. repeat split; try assumption; try lia; try reflexivity.
    + intros i Hi. rewrite Hg0 by assumption.
      destruct (Z.ltb_spec k i), (Z.ltb_spec i (k + 1)); try reflexivity; lia.
    + intros i Hi. rewrite Hb0 by assumption.
      destruct (Z.ltb_spec k i), (Z.ltb_spec i (k + 1)); try reflexivity; lia.
  - intros j [[[[[mem matrix_L] rot] row_U] g] b] Hj
      (Hlm & Hlr & Hlg & Hlb & HL & HR & HmemL & Hrotv & Hframe & Hgv & Hbv).
    subst matrix_L row_U. unfold ldu_inner_body.
    fold (xs k). fold (ys k). fold (xs j). fold (ys j).
    assert (Egj : load g j = zgen_g k j).
    { rewrite Hgv by lia. destruct (Z.ltb_spec j j); [lia|]. now rewrite andb_false_r. }
    assert (Ebj : load b j = zgen_b k j).
    { rewrite Hbv by lia. destruct (Z.ltb_spec j j); [lia|]. now rewrite andb_false_r. }
    rewrite Egj, Ebj. unfold inner_inv.
    rewrite !length_store.
    split; [assumption|]. split; [assumption|]. split; [assumption|].
    split; [assumption|]. split; [lia|]. split; [lia|].
    split; [|split; [|split; [|split]]].
    + intros i Hi. rewrite load_store by lia.
      destruct (Z.eqb_spec (mL + (j - k - 1)) (mL + (i - k - 1))) as [E|E]; simpl.
      * assert (i = j) by lia. subst i.
        destruct (Z.ltb_spec (mL + (j - k - 1)) (Z.of_nat (length mem))); [reflexivity|lia].
      * apply HmemL. lia.
    + intros i Hi. rewrite load_store by lia.
      destruct (Z.eqb_spec (j - k - 1) (i - k - 1)) as [E|E]; simpl.
      * assert (i = j) by lia. subst i.
        destruct (Z.ltb_spec (j - k - 1) (Z.of_nat (length rot))); [reflexivity|lia].
      * apply Hrotv. lia.
    + intros q Hq Hout. rewrite load_store by lia.
      destruct (Z.eqb_spec (mL + (j - k - 1)) q); [lia|]. simpl. apply Hframe; lia.
    + intros i Hi. rewrite load_store by lia.
      destruct (Z.eqb_spec j i) as [E|E]; simpl.
      * subst i. destruct (Z.ltb_spec j (Z.of_nat (length g))); [|lia].
        destruct (Z.ltb_spec k j); [|lia]. destruct (Z.ltb_spec j (j + 1)); [|lia].
        simpl. now rewrite zgen_g_succ by lia.
      * rewrite Hgv by lia.
        destruct (Z.ltb_spec k i), (Z.ltb_spec i j), (Z.ltb_spec i (j + 1));
          try reflexivity; lia.
    + intros i Hi. rewrite load_store by lia.
      destruct (Z.eqb_spec j i) as [E|E]; simpl.
      * subst i. destruct (Z.ltb_spec j (Z.of_nat (length b))); [|lia].
        destruct (Z.ltb_spec k j); [|lia]. destruct (Z.ltb_spec j (j + 1)); [|lia].
        simpl. now rewrite zgen_b_succ by lia.
      * rewrite Hbv by lia.
        destruct (Z.ltb_spec k i), (Z.ltb_spec i j), (Z.ltb_spec i (j + 1));
          try reflexivity; lia.
Qed.

End Inner.

(** ** The loop that copies the rotated row of U into place *)

Definition ldu_copy_body (rotated_row_U : list byte) (j : Z) (st : list byte * Z * Z)
  : list byte * Z * Z :=
  let '(matrix, row_U, output_U) := st in
  (store matrix output_U (load rotated_row_U row_U), row_U + 1, output_U - j).

Section Copy.

Variable k : Z.
Variables (mem0 rot : list byte).
Hypothesis Hk : 0 <= k.
Hypothesis HN : k < N.
Hypothesis HU : 0 <= matrix_U.
Hypothesis Hmem : matrix_U + tri N <= Z.of_nat (length mem0).

Definition copy_inv (j : Z) (st : list byte * Z * Z) : Prop :=
  let '(mem, row_U, output_U) := st in
  length mem = length mem0 /\ row_U = j - k - 1 /\
  output_U = matrix_U + posU N k j /\
  (forall j', k < j' < j ->
     load mem (matrix_U + posU N k j') = load rot (j' - k - 1)) /\
  (forall q, 0 <= q -> (forall j', k < j' < j -> q <> matrix_U + posU N k j') ->
     load mem q = load mem0 q).

Lemma copy_loop_spec :
  copy_inv N (for_up (k + 1) N (ldu_copy_body rot)
                (mem0, 0, matrix_U + posU N k (k + 1))).
Proof.
  apply (for_up_inv copy_inv); [lia| |].
  - unfold copy_inv. repeat split; try lia.
  - intros j [[mem row_U] output_U] Hj (Hlm & HR & HO & Hv & Hframe).
    subst row_U output_U. unfold ldu_copy_body, copy_inv.
    rewrite length_store.
    pose proof (posU_range N k j ltac:(lia) ltac:(lia)) as Hr.
    split; [assumption|]. split; [lia|]. split; [|split].
    + unfold posU. rewrite (tri_succ (j + 1)) by lia. lia.
    + intros j' Hj'. pose proof (posU_range N k j' ltac:(lia) ltac:(lia)) as Hr'.
      rewrite load_store by lia.
      destruct (Z.eqb_spec (matrix_U + posU N k j) (matrix_U + posU N k j')) as [E|E];
        simpl.
      * assert (j = j') by (apply (posU_inj N k j k j'); lia). subst j'.
        destruct (Z.ltb_spec (matrix_U + posU N k j) (Z.of_nat (length mem)));
          [reflexivity|lia].
      * apply Hv. assert (j' <> j) by (intros ->; lia). lia.
    + intros q Hq Hne. rewrite load_store by lia.
      destruct (Z.eqb_spec (matrix_U + posU N k j) q) as [E|E]; simpl.
      * exfalso. apply (Hne j); lia.
      * apply Hframe; [assumption|]. intros j' Hj'. apply Hne. lia.
Qed.

End Copy.

End LDULoops.


(** ** The pivot loop *)

Section LDUPivot.

Variable decoder : CM256Decoder.
Variable blocks : list cm256_block.
Variable matrix0 : list byte.
Variables matrix_L0 diag_D matrix_U : Z.

Local Abbreviation N := (dec_RecoveryCount decoder).
Local Abbreviation xs := (rec_x decoder blocks).
Local Abbreviation ys := (era_y decoder).
Local Abbreviation x0 := (norm_x0 decoder).

Definition ldu_pivot_body (k : Z) (st : ldu_state) : ldu_state :=
  let '(matrix, matrix_L, rotated_row_U, g, b, firstOffset_U) := st in
  let last_U := matrix_U + Z.quot ((N - 1) * N) 2 - 1 in
  let x_0 := u8 (OriginalCount (Params decoder)) in
  let x_k := Index (blk blocks (loadp (Recovery decoder) k)) in
  let y_k := load (ErasuresIndices decoder) k in
  let D_kk := gf256_add x_k y_k in
  let L_kk := gf256_div (load g k) D_kk in
  let U_kk := gf256_mul (gf256_div (load b k) D_kk) (gf256_add x_0 y_k) in
  let matrix := store matrix (diag_D + k) (gf256_mul D_kk (gf256_mul L_kk U_kk)) in
  let row_L := matrix_L in
  let row_U := 0 in
  let '(matrix, matrix_L, rotated_row_U, row_U, g, b) :=
    for_up (k + 1) N (ldu_inner_body decoder blocks k)
      (matrix, matrix_L, rotated_row_U, row_U, g, b) in
  let count := N - (k + 1) in
  let matrix :=
    at_ptr row_L (fun row_L => gf256_div_mem row_L row_L L_kk count) matrix in
  let rotated_row_U := gf256_div_mem rotated_row_U rotated_row_U U_kk count in
  let output_U := last_U + firstOffset_U in
  let row_U := 0 in
  let '(matrix, row_U, output_U) :=
    for_up (k + 1) N (ldu_copy_body rotated_row_U) (matrix, row_U, output_U) in
  let firstOffset_U := firstOffset_U - (k + 2) in
  (matrix, matrix_L, rotated_row_U, g, b, firstOffset_U).

Hypothesis HN : 1 <= N <= 256.
Hypothesis HU : 0 <= matrix_U.
Hypothesis HUD : matrix_U + tri N <= diag_D.
Hypothesis HDL : diag_D + N <= matrix_L0.
Hypothesis HLen : matrix_L0 + tri N <= Z.of_nat (length matrix0).

Definition pivot_inv (k : Z) (st : ldu_state) : Prop :=
  let '(mem, mL, rot, g, b, fo) := st in
  length mem = length matrix0 /\ length rot = 256%nat /\
  length g = 256%nat /\ length b = 256%nat /\
  mL = matrix_L0 + tri N - tri (N - k) /\
  fo = 1 - tri (k + 2) /\
  (forall j, k <= j < N -> load g j = zgen_g decoder blocks k j) /\
  (forall j, k <= j < N -> load b j = zgen_b decoder blocks k j) /\
  (forall t, 0 <= t < k -> load mem (diag_D + t) = zD_pivot decoder blocks t) /\
  (forall t i, 0 <= t < k -> t < i < N ->
     load mem (matrix_L0 + posL N i t) = zL decoder blocks i t) /\
  (forall t j, 0 <= t < k -> t < j < N ->
     load mem (matrix_U + posU N t j) = zU_rot decoder blocks t j).

Lemma pivot_step k st :
  0 <= k < N - 1 -> pivot_inv k st -> pivot_inv (k + 1) (ldu_pivot_body k st).
Proof.
  intros Hk. destruct st as [[[[[mem mL] rot] g] b] fo].
  intros (Hlm & Hlr & Hlg & Hlb & HmL & Hfo & Hg & Hb & HD & HL & HUr).
  unfold ldu_pivot_body. cbv zeta.
  fold (xs k). fold (ys k). fold x0. fold (tri N).
  rewrite (Hg k), (Hb k) by lia.
  rewrite <- zLkk_eq, <- zUkk_eq, <- zD_pivot_eq by lia.
  set (mem1 := store mem (diag_D + k) (zD_pivot decoder blocks k)).
  pose proof (tri_succ (N - k - 1) ltac:(lia)) as Et.
  replace (N - k - 1 + 1) with (N - k) in Et by lia.
  pose proof (tri_nonneg (N - k - 1) ltac:(lia)) as Et0.
  pose proof (tri_mono (N - k) N ltac:(lia)) as Etm.
  pose proof (tri_nonneg (N - k) ltac:(lia)) as Etk.
  assert (Hlm1 : length mem1 = length matrix0)
    by (unfold mem1; now rewrite length_store).
  pose proof (inner_loop_spec decoder blocks k mem1 mL rot g b
                ltac:(lia) ltac:(lia) ltac:(lia) ltac:(lia) Hlr Hlg Hlb Hg Hb) as Hin.
  destruct (for_up (k + 1) N (ldu_inner_body decoder blocks k) (mem1, mL, rot, 0, g, b))
    as [[[[[mem2 mL2] rot2] rU2] g2] b2].
  destruct Hin as (Hlm2 & Hlr2 & Hlg2 & Hlb2 & HmL2 & _ & HLraw & HUraw & Hfr2 & Hg2 & Hb2).
  set (mem3 := at_ptr mL
         (fun row_L => gf256_div_mem row_L row_L (zLkk decoder blocks k) (N - (k + 1)))
         mem2).
  set (rot3 := gf256_div_mem rot2 rot2 (zUkk decoder blocks k) (N - (k + 1))).
  assert (Hlm3 : length mem3 = length matrix0).
  { unfold mem3, gf256_div_mem.
    rewrite (length_at_ptr_mem_set mem2 mL (Z.to_nat (N - (k + 1)))
               (fun r i _ => gf256_div (byte_at r i) (zLkk decoder blocks k))).
    congruence. }
  assert (Hload3 : forall q, 0 <= q ->
    load mem3 q = if (mL <=? q) && (q <? mL + (N - (k + 1)))
                  then gf256_div (load mem2 q) (zLkk decoder blocks k)
                  else load mem2 q).
  { intros q Hq. unfold mem3. apply load_div_mem_at; lia. }
  assert (Hrot3 : forall q, 0 <= q ->
    load rot3 q = if q <? N - (k + 1)
                  then gf256_div (load rot2 q) (zUkk decoder blocks k)
                  else load rot2 q).
  { intros q Hq. unfold rot3. apply load_div_mem; lia. }
  replace (matrix_U + tri N - 1 + fo) with (matrix_U + posU N k (k + 1))
    by (unfold posU; subst fo; replace (k + 1 + 1) with (k + 2) by lia; lia).
  pose proof (copy_loop_spec decoder matrix_U k mem3 rot3
                ltac:(lia) ltac:(lia) HU ltac:(lia)) as Hcp.
  destruct (for_up (k + 1) N (ldu_copy_body rot3)
              (mem3, 0, matrix_U + posU N k (k + 1))) as [[mem4 rU4] oU4].
  destruct Hcp as (Hlm4 & _ & _ & Hcpv & Hfr4).
  (* a cell outside the row of U written by the copy *)
  assert (Hout4 : forall q, 0 <= q ->
            (q < matrix_U \/ matrix_U + tri N <= q) -> load mem4 q = load mem3 q).
  { intros q Hq Hq'. apply Hfr4; [assumption|]. intros j' Hj'.
    pose proof (posU_range N k j' ltac:(lia) ltac:(lia)). lia. }
  unfold pivot_inv.
  split; [congruence|]. split; [unfold rot3, gf256_div_mem; now rewrite length_mem_set|].
  split; [assumption|]. split; [assumption|].
  split; [replace (N - (k + 1)) with (N - k - 1) by lia; lia|].
  split; [replace (k + 1 + 2) with (k + 2 + 1) by lia; rewrite (tri_succ (k + 2)) by lia; lia|].
  split; [|split; [|split; [|split]]].
  - intros j Hj. rewrite Hg2 by lia.
    destruct (Z.ltb_spec k j), (Z.ltb_spec j N); try lia. reflexivity.
  - intros j Hj. rewrite Hb2 by lia.
    destruct (Z.ltb_spec k j), (Z.ltb_spec j N); try lia. reflexivity.
  - intros t Ht. rewrite Hout4, Hload3 by lia.
    destruct (Z.leb_spec mL (diag_D + t)); [lia|]. simpl.
    rewrite Hfr2 by lia. unfold mem1. rewrite load_store by lia.
    destruct (Z.eqb_spec (diag_D + k) (diag_D + t)) as [E|E]; simpl.
    + assert (t = k) by lia. subst t.
      destruct (Z.ltb_spec (diag_D + k) (Z.of_nat (length mem))); [reflexivity|lia].
    + apply HD. lia.
  - intros t i Ht Hi.
    pose proof (posL_range N i t ltac:(lia) ltac:(lia)) as Hr.
    rewrite Hout4, Hload3 by lia.
    destruct (Z.eq_dec t k) as [->|Htk].
    + assert (Ep : matrix_L0 + posL N i k = mL + (i - k - 1)) by (unfold posL; lia).
      rewrite Ep.
      destruct (Z.leb_spec mL (mL + (i - k - 1))); [|lia].
      destruct (Z.ltb_spec (mL + (i - k - 1)) (mL + (N - (k + 1)))); [|lia]. simpl.
      rewrite HLraw by lia. now rewrite zL_eq by lia.
    + pose proof (posL_column N i t k (k + 1) ltac:(lia) ltac:(lia) ltac:(lia)
                    ltac:(lia) ltac:(lia)) as Hc.
      assert (Ec : posL N (k + 1) k = tri N - tri (N - k)) by (unfold posL; lia).
      destruct (Z.leb_spec mL (matrix_L0 + posL N i t)); [lia|]. simpl.
      rewrite Hfr2 by lia. unfold mem1. rewrite load_store by lia.
      destruct (Z.eqb_spec (diag_D + k) (matrix_L0 + posL N i t)); [lia|]. simpl.
      apply HL; lia.
  - intros t j Ht Hj.
    pose proof (posU_range N t j ltac:(lia) ltac:(lia)) as Hr.
    destruct (Z.eq_dec t k) as [->|Htk].
    + rewrite Hcpv by lia. rewrite Hrot3 by lia.
      destruct (Z.ltb_spec (j - k - 1) (N - (k + 1))); [|lia].
      rewrite HUraw by lia. now rewrite zU_rot_eq by lia.
    + rewrite Hfr4; [|lia|].
      2:{ intros j' Hj' E. assert (Ep : posU N t j = posU N k j') by lia.
          apply posU_inj in Ep; lia. }
      rewrite Hload3 by lia.
      destruct (Z.leb_spec mL (matrix_U + posU N t j)); [lia|]. simpl.
      rewrite Hfr2 by lia. unfold mem1. rewrite load_store by lia.
      destruct (Z.eqb_spec (diag_D + k) (matrix_U + posU N t j)); [lia|]. simpl.
      apply HUr; lia.
Qed.

End LDUPivot.


(** ** What [GenerateLDUDecomposition] leaves in memory *)

Section LDUSpec.

Variable uninit8 : nat -> byte.
Variable decoder : CM256Decoder.
Variable blocks : list cm256_block.
Variable matrix0 : list byte.
Variables matrix_L0 diag_D matrix_U : Z.

Local Abbreviation N := (dec_RecoveryCount decoder).
Local Abbreviation xs := (rec_x decoder blocks).
Local Abbreviation ys := (era_y decoder).
Local Abbreviation x0 := (norm_x0 decoder).

Definition ldu_fold_body (j : Z) (st : list byte * Z) : list byte * Z :=
  let '(matrix, row_U) := st in
  let x_0 := u8 (OriginalCount (Params decoder)) in
  let y_j := load (ErasuresIndices decoder) j in
  let count := j in
  (at_ptr row_U (fun row_U => gf256_mul_mem row_U row_U (gf256_add x_0 y_j) count)
     matrix,
   row_U + count).

Lemma GenerateLDUDecomposition_unfold :
  GenerateLDUDecomposition uninit8 decoder blocks matrix0 matrix_L0 diag_D matrix_U
  = let '(g, b) :=
      for_up 0 N (fun i '(g, b) => (store g i x01, store b i x01))
        (uninit_bytes uninit8 256, uninit_bytes uninit8 256) in
    let '(matrix, matrix_L, rotated_row_U, g, b, firstOffset_U) :=
      for_up 0 (N - 1) (ldu_pivot_body decoder blocks diag_D matrix_U)
        (matrix0, matrix_L0, uninit_bytes uninit8 256, g, b, 0) in
    let '(matrix, row_U) := for_down (N - 1) 1 ldu_fold_body (matrix, matrix_U) in
    store matrix (diag_D + (N - 1))
      (gf256_div
         (gf256_mul (load g (N - 1))
            (gf256_mul (load b (N - 1)) (gf256_add x0 (ys (N - 1)))))
         (gf256_add (xs (N - 1)) (ys (N - 1)))).
Proof. reflexivity. Qed.

Hypothesis HN : 1 <= N <= 256.
Hypothesis HU : 0 <= matrix_U.
Hypothesis HUD : matrix_U + tri N <= diag_D.
Hypothesis HDL : diag_D + N <= matrix_L0.
Hypothesis HLen : matrix_L0 + tri N <= Z.of_nat (length matrix0).

Lemma init_generators_spec :
  let '(g, b) :=
    for_up 0 N (fun i '(g, b) => (store g i x01, store b i x01))
      (uninit_bytes uninit8 256, uninit_bytes uninit8 256) in
  length g = 256%nat /\ length b = 256%nat /\
  forall i, 0 <= i < N -> load g i = x01 /\ load b i = x01.
Proof.
  apply (for_up_inv (fun n '(g, b) =>
    length g = 256%nat /\ length b = 256%nat /\
    forall i, 0 <= i < n -> load g i = x01 /\ load b i = x01)); [lia| |].
  - rewrite length_uninit_bytes. repeat split; lia.
  - intros i [g b] Hi (Hg & Hb & Hv). rewrite !length_store.
    split; [assumption|]. split; [assumption|]. intros j Hj.
    rewrite !load_store by lia.
    destruct (Z.eqb_spec i j) as [E|E]; simpl.
    + destruct (Z.ltb_spec i (Z.of_nat (length g))); [|lia].
      destruct (Z.ltb_spec i (Z.of_nat (length b))); [|lia]. now split.
    + apply Hv. lia.
Qed.

Lemma pivot_loop_spec g b :
  length g = 256%nat -> length b = 256%nat ->
  (forall i, 0 <= i < N -> load g i = x01 /\ load b i = x01) ->
  pivot_inv decoder blocks matrix0 matrix_L0 diag_D matrix_U (N - 1)
    (for_up 0 (N - 1) (ldu_pivot_body decoder blocks diag_D matrix_U)
       (matrix0, matrix_L0, uninit_bytes uninit8 256, g, b, 0)).
Proof.
  intros Hg Hb Hv.
  apply (for_up_inv (pivot_inv decoder blocks matrix0 matrix_L0 diag_D matrix_U));
    [lia| |].
  - unfold pivot_inv. rewrite length_uninit_bytes, Z.sub_0_r.
    repeat split; try assumption; try lia; try reflexivity.
    + intros j Hj. now apply Hv.
    + intros j Hj. now apply Hv.
  - intros k st Hk Hinv. now apply pivot_step.
Qed.

(** The invariant of the loop that multiplies the diagonal into U, before
    the iteration at column [j]. *)
Definition fold_inv (mem1 : list byte) (j : Z) (st : list byte * Z) : Prop :=
  let '(mem, row_U) := st in
  length mem = length matrix0 /\
  row_U = matrix_U + tri N - tri (j + 1) /\
  (forall t j', 0 <= t < j' -> j' < N ->
     load mem (matrix_U + posU N t j')
     = if j <? j' then zU decoder blocks t j' else zU_rot decoder blocks t j') /\
  (forall q, 0 <= q -> q < matrix_U \/ matrix_U + tri N <= q ->
     load mem q = load mem1 q).

Lemma fold_loop_spec mem1 :
  length mem1 = length matrix0 ->
  (forall t j, 0 <= t < j -> j < N ->
     load mem1 (matrix_U + posU N t j) = zU_rot decoder blocks t j) ->
  fold_inv mem1 0 (for_down (N - 1) 1 ldu_fold_body (mem1, matrix_U)).
Proof.
  intros Hl Hv.
  apply (for_down_inv (fold_inv mem1) (N - 1) 1); [lia| |].
  - unfold fold_inv. replace (N - 1 + 1) with N by lia.
    split; [assumption|]. split; [lia|]. split; [|reflexivity].
    intros t j' Ht Hj'. destruct (Z.ltb_spec (N - 1) j'); [lia|]. now apply Hv.
  - intros j [mem row_U] Hj (Hlm & Hr & Hval & Hfr). subst row_U.
    unfold ldu_fold_body, fold_inv. cbv zeta. fold x0. fold (ys j).
    pose proof (tri_succ j ltac:(lia)) as Ej.
    pose proof (tri_mono (j + 1) N ltac:(lia)) as Ejm.
    pose proof (tri_nonneg j ltac:(lia)) as Ej0.
    assert (Hload : forall q, 0 <= q ->
      load (at_ptr (matrix_U + tri N - tri (j + 1))
              (fun row_U => gf256_mul_mem row_U row_U (gf256_add x0 (ys j)) j) mem) q
      = if (matrix_U + tri N - tri (j + 1) <=? q)
           && (q <? matrix_U + tri N - tri (j + 1) + j)
        then gf256_mul (gf256_add x0 (ys j)) (load mem q) else load mem q).
    { intros q Hq. apply load_mul_mem_at; lia. }
    split.
    { unfold gf256_mul_mem.
      rewrite (length_at_ptr_mem_set mem _ (Z.to_nat j)
                 (fun r i _ => gf256_mul (gf256_add x0 (ys j)) (byte_at r i))).
      assumption. }
    split; [replace (j - 1 + 1) with j by lia; lia|]. split.
    + intros t j' Ht Hj'.
      pose proof (posU_range N t j' ltac:(lia) ltac:(lia)) as Hr.
      rewrite Hload by lia. rewrite Hval by lia.
      destruct (Z.eq_dec j' j) as [->|Hne].
      * assert (Ep : posU N t j = tri N - tri (j + 1) + (j - 1 - t)) by reflexivity.
        destruct (Z.leb_spec (matrix_U + tri N - tri (j + 1)) (matrix_U + posU N t j));
          [|lia].
        destruct (Z.ltb_spec (matrix_U + posU N t j)
                    (matrix_U + tri N - tri (j + 1) + j)); [|lia].
        simpl. destruct (Z.ltb_spec j j); [lia|].
        destruct (Z.ltb_spec (j - 1) j); [|lia]. now rewrite zU_eq by lia.
      * assert (Hout : (matrix_U + tri N - tri (j + 1) <=? matrix_U + posU N t j')
                       && (matrix_U + posU N t j' <? matrix_U + tri N - tri (j + 1) + j)
                       = false).
        { assert (Ep : posU N t j' = tri N - tri (j' + 1) + (j' - 1 - t)) by reflexivity.
          pose proof (tri_succ j' ltac:(lia)) as Ej'.
          destruct (Z.lt_total j' j) as [Hlt|[Heq|Hgt]]; [|lia|].
          - pose proof (tri_mono (j' + 1) j ltac:(lia)).
            destruct (Z.ltb_spec (matrix_U + posU N t j')
                        (matrix_U + tri N - tri (j + 1) + j)); [lia|].
            apply andb_false_r.
          - pose proof (tri_mono (j + 1) j' ltac:(lia)).
            destruct (Z.leb_spec (matrix_U + tri N - tri (j + 1))
                        (matrix_U + posU N t j')); [lia|]. reflexivity. }
        rewrite Hout.
        destruct (Z.ltb_spec j j'), (Z.ltb_spec (j - 1) j'); try reflexivity; lia.
    + intros q Hq Hout. rewrite Hload by lia.
      destruct (Z.leb_spec (matrix_U + tri N - tri (j + 1)) q),
               (Z.ltb_spec q (matrix_U + tri N - tri (j + 1) + j));
        simpl; try (apply Hfr; assumption). lia.
Qed.

(** The entry of the diagonal factor. *)
Definition zD (t : Z) : byte :=
  ldu_D (fun i => xs (Z.of_nat i)) (fun j => ys (Z.of_nat j)) x0 (Z.to_nat N)
    (Z.to_nat t).

(** The memory after [GenerateLDUDecomposition]: the three regions hold the
    three factors. *)
Theorem GenerateLDUDecomposition_spec :
  let mem :=
    GenerateLDUDecomposition uninit8 decoder blocks matrix0 matrix_L0 diag_D matrix_U in
  length mem = length matrix0 /\
  (forall t, 0 <= t < N -> load mem (diag_D + t) = zD t) /\
  (forall i k, 0 <= k < i -> i < N ->
     load mem (matrix_L0 + posL N i k) = zL decoder blocks i k) /\
  (forall t j, 0 <= t < j -> j < N ->
     load mem (matrix_U + posU N t j) = zU decoder blocks t j).
Proof.
  cbv zeta. rewrite GenerateLDUDecomposition_unfold.
  pose proof init_generators_spec as Hgb.
  destruct (for_up 0 N _ (uninit_bytes uninit8 256, uninit_bytes uninit8 256)) as [g b].
  destruct Hgb as (Hg & Hb & Hv).
  pose proof (pivot_loop_spec g b Hg Hb Hv) as Hp.
  destruct (for_up 0 (N - 1) _ _) as [[[[[mem1 mL] rot] g1] b1] fo].
  destruct Hp as (Hlm & _ & Hlg & Hlb & _ & _ & Hg1 & Hb1 & HD & HL & HUr).
  pose proof (fold_loop_spec mem1 Hlm) as Hf.
  specialize (Hf ltac:(intros t j Ht Hj; apply HUr; lia)).
  destruct (for_down (N - 1) 1 ldu_fold_body (mem1, matrix_U)) as [mem2 rU].
  destruct Hf as (Hlm2 & _ & HU2 & Hfr2).
  rewrite (Hg1 (N - 1)), (Hb1 (N - 1)) by lia.
  pose proof (tri_nonneg N ltac:(lia)) as HtN.
  rewrite length_store. split; [assumption|]. split; [|split].
  - intros t Ht. rewrite load_store by lia.
    destruct (Z.eqb_spec (diag_D + (N - 1)) (diag_D + t)) as [E|E]; simpl.
    + assert (t = N - 1) by lia. subst t.
      destruct (Z.ltb_spec (diag_D + (N - 1)) (Z.of_nat (length mem2))); [|lia].
      unfold zD, ldu_D.
      replace (S (Z.to_nat (N - 1))) with (Z.to_nat N) by lia.
      rewrite Nat.eqb_refl. unfold ldu_D_last, zgen_g, zgen_b.
      now rewrite !Z2Nat.id by lia.
    + rewrite Hfr2 by lia. rewrite HD by lia.
      unfold zD, ldu_D, zD_pivot.
      destruct (Nat.eqb_spec (S (Z.to_nat t)) (Z.to_nat N)); [lia|]. reflexivity.
  - intros i k Hk Hi. pose proof (posL_range N i k Hk Hi).
    rewrite load_store by lia.
    destruct (Z.eqb_spec (diag_D + (N - 1)) (matrix_L0 + posL N i k)); [lia|]. simpl.
    rewrite Hfr2 by lia. apply HL; lia.
  - intros t j Ht Hj. pose proof (posU_range N t j Ht Hj).
    rewrite load_store by lia.
    destruct (Z.eqb_spec (diag_D + (N - 1)) (matrix_U + posU N t j)); [lia|]. simpl.
    rewrite HU2 by lia. destruct (Z.ltb_spec 0 j); [reflexivity|lia].
Qed.

End LDUSpec.


(** * The decoder state after a successful [Initialize] *)

Lemma nth_of_firstn {A} (arr l : list A) n i d :
  firstn n arr = l -> (i < n)%nat -> nth i arr d = nth i l d.
Proof.
  intros <-. revert arr i. induction n as [|n IH]; intros arr i Hi; [lia|].
  destruct arr as [|a arr]; [destruct i; reflexivity|].
  destruct i as [|i]; [reflexivity|]. simpl. apply IH. lia.
Qed.

Section Ready.

Variable params : cm256_encoder_params.
Variable blocks : list cm256_block.
Variable d : CM256Decoder.

Local Abbreviation k := (OriginalCount params).
Local Abbreviation N := (dec_RecoveryCount d).

Hypothesis Hv : valid_params params.
Hypothesis Hl : length blocks = Z.to_nat (OriginalCount params).
Hypothesis Hn : NoDup (map Index blocks).
Hypothesis Hi : initialized params blocks d.

Lemma ready_params : Params d = params.
Proof. apply Hi. Qed.

Lemma ready_counts :
  0 <= N /\ 0 <= dec_OriginalCount d /\ dec_OriginalCount d + N = k.
Proof.
  destruct Hi as (_ & HOC & HRC & _). destruct Hv as (Hk & _).
  pose proof (length_originals_recoveries params blocks k ltac:(lia)). lia.
Qed.

(** The i-th recovery pointer: a position among the supplied blocks whose
    block has a recovery index. *)
Lemma ready_recovery i :
  0 <= i < N ->
  0 <= loadp (Recovery d) i < k /\ k <= block_index blocks (loadp (Recovery d) i).
Proof.
  intros Hr. destruct Hi as (_ & _ & HRC & _ & HFR & _).
  unfold loadp. rewrite (nth_of_firstn _ _ _ _ _ HFR) by lia.
  apply in_recoveries_of, nth_In. lia.
Qed.

Lemma ready_recovery_inj i j :
  0 <= i < N -> 0 <= j < N -> loadp (Recovery d) i = loadp (Recovery d) j -> i = j.
Proof.
  intros Hr Hj. destruct Hi as (_ & _ & HRC & _ & HFR & _).
  unfold loadp. rewrite !(nth_of_firstn _ _ _ _ _ HFR) by lia. intros E.
  apply NoDup_nth in E; [lia| |lia|lia].
  apply NoDup_filter, NoDup_zrange.
Qed.

(** The i-th pointer to a supplied original. *)
Lemma ready_original i :
  0 <= i < dec_OriginalCount d ->
  0 <= loadp (Original d) i < k /\ block_index blocks (loadp (Original d) i) < k.
Proof.
  intros Hr. destruct Hi as (_ & HOC & _ & HFO & _).
  unfold loadp. rewrite (nth_of_firstn _ _ _ _ _ HFO) by lia.
  apply in_originals_of, nth_In. lia.
Qed.

Lemma ready_original_nth i :
  0 <= i < dec_OriginalCount d ->
  loadp (Original d) i = nth (Z.to_nat i) (originals_of params blocks k) (-1).
Proof.
  intros Hr. destruct Hi as (_ & HOC & _ & HFO & _).
  unfold loadp. now rewrite (nth_of_firstn _ _ _ _ _ HFO) by lia.
Qed.

Lemma ready_recovery_nth i :
  0 <= i < N ->
  loadp (Recovery d) i = nth (Z.to_nat i) (recoveries_of params blocks k) (-1).
Proof.
  intros Hr. destruct Hi as (_ & _ & HRC & _ & HFR & _).
  unfold loadp. now rewrite (nth_of_firstn _ _ _ _ _ HFR) by lia.
Qed.

(** The j-th erased original index. *)
Definition erasure (j : Z) : Z := nth (Z.to_nat j) (erasures_of params blocks) 0.

Lemma ready_erasure j :
  0 <= j < N ->
  era_y d j = u8 (erasure j) /\ In (erasure j) (erasures_of params blocks).
Proof.
  intros Hj. destruct Hi as (_ & _ & HRC & _ & _ & HLE & HFE).
  split.
  - unfold era_y, load.
    rewrite (nth_of_firstn _ _ _ _ _ HFE) by lia.
    rewrite (nth_indep _ _ (u8 0)) by (rewrite length_map; lia).
    apply map_nth.
  - apply nth_In. lia.
Qed.

Lemma erasure_range j : 0 <= j < N -> 0 <= erasure j < k.
Proof.
  intros Hj. destruct (ready_erasure j Hj) as [_ H].
  apply in_erasures_of in H. lia.
Qed.

Lemma erasure_inj i j : 0 <= i < N -> 0 <= j < N -> erasure i = erasure j -> i = j.
Proof.
  intros Hr Hj E. destruct Hi as (_ & _ & HRC & _ & _ & HLE & _).
  unfold erasure in E. apply NoDup_nth in E; [lia| |lia|lia].
  apply NoDup_filter, NoDup_zrange.
Qed.

Lemma ready_x0 : norm_x0 d = u8 k.
Proof. unfold norm_x0. now rewrite ready_params. Qed.

Lemma rec_x_ge i : 0 <= i < N -> k <= int_of (rec_x d blocks i).
Proof. intros Hr. apply (ready_recovery i Hr). Qed.

Lemma rec_x_inj i j :
  0 <= i < N -> 0 <= j < N -> rec_x d blocks i = rec_x d blocks j -> i = j.
Proof.
  intros Hr Hj E. apply ready_recovery_inj; try assumption.
  destruct (ready_recovery i Hr) as [Hp _]. destruct (ready_recovery j Hj) as [Hq _].
  unfold rec_x, blk in E. rewrite <- !(map_nth Index) in E.
  apply (NoDup_nth (map Index blocks) (Index {| Block := []; Index := x00 |})) in E;
    try assumption; try (rewrite length_map; lia).
  lia.
Qed.

Lemma era_y_lt j : 0 <= j < N -> int_of (era_y d j) < k.
Proof.
  intros Hj. destruct (ready_erasure j Hj) as [E _]. rewrite E.
  pose proof (erasure_range j Hj). destruct Hv as (? & ? & ? & ?).
  rewrite int_of_u8_small; lia.
Qed.

Lemma era_y_inj i j : 0 <= i < N -> 0 <= j < N -> era_y d i = era_y d j -> i = j.
Proof.
  intros Hr Hj E.
  destruct (ready_erasure i Hr) as [Ei _]. destruct (ready_erasure j Hj) as [Ej _].
  rewrite Ei, Ej in E. pose proof (erasure_range i Hr). pose proof (erasure_range j Hj).
  destruct Hv as (? & ? & ? & ?).
  apply u8_inj in E; try lia. now apply erasure_inj.
Qed.

(** The coordinates satisfy what the LDU algebra asks for. *)
Lemma ready_xy i j :
  (i < Z.to_nat N)%nat -> (j < Z.to_nat N)%nat ->
  gf256_add (rec_x d blocks (Z.of_nat i)) (era_y d (Z.of_nat j)) <> x00.
Proof.
  intros Hr Hj. apply gf256_add_neq0. intros E.
  pose proof (rec_x_ge (Z.of_nat i) ltac:(lia)).
  pose proof (era_y_lt (Z.of_nat j) ltac:(lia)). rewrite E in *. lia.
Qed.

Lemma ready_xx i j :
  (i < Z.to_nat N)%nat -> (j < Z.to_nat N)%nat -> i <> j ->
  gf256_add (rec_x d blocks (Z.of_nat i)) (rec_x d blocks (Z.of_nat j)) <> x00.
Proof.
  intros Hr Hj Hne. apply gf256_add_neq0. intros E.
  apply rec_x_inj in E; lia.
Qed.

Lemma ready_yy i j :
  (i < Z.to_nat N)%nat -> (j < Z.to_nat N)%nat -> i <> j ->
  gf256_add (era_y d (Z.of_nat i)) (era_y d (Z.of_nat j)) <> x00.
Proof.
  intros Hr Hj Hne. apply gf256_add_neq0. intros E.
  apply era_y_inj in E; lia.
Qed.

Lemma ready_x0y j :
  (j < Z.to_nat N)%nat -> gf256_add (norm_x0 d) (era_y d (Z.of_nat j)) <> x00.
Proof.
  intros Hj. apply gf256_add_neq0. intros E.
  pose proof (era_y_lt (Z.of_nat j) ltac:(lia)) as H.
  rewrite <- E, ready_x0 in H. destruct Hv as (? & ? & ? & ?).
  rewrite int_of_u8_small in H; lia.
Qed.

End Ready.


(** * The recovery rows as the decode solver transforms them *)

Section Rows.

Variable d : CM256Decoder.
Variable bl0 : list cm256_block.

Local Abbreviation N := (dec_RecoveryCount d).
Local Abbreviation B := (BlockBytes (Params d)).
Local Abbreviation rptr := (loadp (Recovery d)).

Hypothesis rptr_range : forall i, 0 <= i < N -> 0 <= rptr i < Z.of_nat (length bl0).
Hypothesis rptr_inj : forall i j, 0 <= i < N -> 0 <= j < N -> rptr i = rptr j -> i = j.

(** The blocks [bl] differ from the blocks [bl0] of the caller in the
    descriptors that the recovery pointers point to only: the i-th of them
    has the index [I i] and a buffer of [B] bytes [V i 0], [V i 1], ... *)
Definition rows_are (bl : list cm256_block) (I : Z -> byte) (V : Z -> nat -> byte)
  : Prop :=
  length bl = length bl0 /\
  (forall q, 0 <= q -> (forall i, 0 <= i < N -> q <> rptr i) -> blk bl q = blk bl0 q) /\
  (forall i, 0 <= i < N ->
     Index (blk bl (rptr i)) = I i /\
     length (Block (blk bl (rptr i))) = Z.to_nat B /\
     forall p, (p < Z.to_nat B)%nat -> byte_at (Block (blk bl (rptr i))) p = V i p).

Lemma rows_are_ext bl I V I' V' :
  rows_are bl I V ->
  (forall i, 0 <= i < N -> I i = I' i) ->
  (forall i p, 0 <= i < N -> (p < Z.to_nat B)%nat -> V i p = V' i p) ->
  rows_are bl I' V'.
Proof.
  intros (Hl & Hf & Hr) HI HV. split; [assumption|]. split; [assumption|].
  intros i Hi. destruct (Hr i Hi) as (E1 & E2 & E3).
  split; [now rewrite <- HI|]. split; [assumption|].
  intros p Hp. rewrite <- HV by assumption. now apply E3.
Qed.

Lemma rows_are_initial :
  (forall i, 0 <= i < N -> length (Block (blk bl0 (rptr i))) = Z.to_nat B) ->
  rows_are bl0 (fun i => Index (blk bl0 (rptr i)))
    (fun i p => byte_at (Block (blk bl0 (rptr i))) p).
Proof.
  intros Hlen. split; [reflexivity|]. split; [reflexivity|].
  intros i Hi. split; [reflexivity|]. split; [now apply Hlen|reflexivity].
Qed.

(** A new buffer for the row [i]. *)
Lemma rows_set_Block bl I V i buf W :
  rows_are bl I V -> 0 <= i < N ->
  length buf = Z.to_nat B ->
  (forall p, (p < Z.to_nat B)%nat -> byte_at buf p = W p) ->
  rows_are (set_Block bl (rptr i) buf) I (fun i' p => if i' =? i then W p else V i' p).
Proof.
  intros (Hl & Hf & Hr) Hi Hlb Hb.
  pose proof (rptr_range i Hi) as Hri.
  split; [now rewrite length_set_Block|]. split.
  - intros q Hq Hne. rewrite blk_set_Block_neq; [now apply Hf|lia|lia|].
    intros E. now apply (Hne i).
  - intros i' Hi'. destruct (Z.eqb_spec i' i) as [->|Hne].
    + rewrite blk_set_Block_eq by lia. simpl.
      split; [apply (Hr i Hi)|]. split; assumption.
    + pose proof (rptr_range i' Hi').
      rewrite blk_set_Block_neq; [now apply Hr|lia|lia|].
      intros E. apply Hne. symmetry. now apply rptr_inj.
Qed.

(** [row i += c * src] *)
Lemma rows_muladd bl I V i c src W :
  rows_are bl I V -> 0 <= i < N -> 0 <= B ->
  (forall p, (p < Z.to_nat B)%nat -> byte_at src p = W p) ->
  rows_are
    (set_Block bl (rptr i) (gf256_muladd_mem (Block (blk bl (rptr i))) c src B))
    I (fun i' p => if i' =? i then gf256_add (V i p) (gf256_mul c (W p)) else V i' p).
Proof.
  intros Hrows Hi HB HW. pose proof Hrows as (Hl & Hf & Hr).
  destruct (Hr i Hi) as (_ & Hlen & Hv).
  apply rows_set_Block; try assumption.
  - unfold gf256_muladd_mem. now rewrite length_mem_set.
  - intros p Hp. unfold gf256_muladd_mem. rewrite byte_at_mem_set, Hlen.
    destruct (Nat.ltb_spec p (Z.to_nat B)); [|lia]. simpl.
    now rewrite Hv, HW by assumption.
Qed.

(** [row i /= c], after [row i] got the index [idx]. *)
Lemma rows_set_Index_div bl I V i idx c :
  rows_are bl I V -> 0 <= i < N -> 0 <= B ->
  let bl1 := set_Index bl (rptr i) idx in
  rows_are
    (set_Block bl1 (rptr i)
       (gf256_div_mem (Block (blk bl1 (rptr i))) (Block (blk bl1 (rptr i))) c B))
    (fun i' => if i' =? i then idx else I i')
    (fun i' p => if i' =? i then gf256_div (V i p) c else V i' p).
Proof.
  intros (Hl & Hf & Hr) Hi HB bl1.
  pose proof (rptr_range i Hi) as Hri.
  destruct (Hr i Hi) as (_ & Hlen & Hv).
  assert (E1 : blk bl1 (rptr i) = {| Block := Block (blk bl (rptr i)); Index := idx |})
    by (unfold bl1; apply blk_set_Index_eq; lia).
  rewrite E1. simpl.
  split; [now rewrite length_set_Block; unfold bl1; rewrite length_set_Index|]. split.
  - intros q Hq Hne. assert (q <> rptr i) by (apply Hne; assumption).
    rewrite blk_set_Block_neq by lia. unfold bl1.
    rewrite blk_set_Index_neq by lia. now apply Hf.
  - intros i' Hi'. destruct (Z.eqb_spec i' i) as [->|Hne].
    + rewrite blk_set_Block_eq by (unfold bl1; rewrite length_set_Index; lia).
      rewrite E1. simpl. split; [reflexivity|].
      unfold gf256_div_mem. rewrite length_mem_set. split; [assumption|].
      intros p Hp. rewrite byte_at_mem_set, Hlen.
      destruct (Nat.ltb_spec p (Z.to_nat B)); [|lia]. simpl. now rewrite Hv.
    + pose proof (rptr_range i' Hi').
      assert (rptr i <> rptr i') by (intros E; apply Hne; symmetry; now apply rptr_inj).
      rewrite blk_set_Block_neq by lia. unfold bl1.
      rewrite blk_set_Index_neq by lia. now apply Hr.
Qed.

End Rows.


(** * The phases of [Decode] *)

(** Eliminate the supplied originals from the recovery rows. *)
Definition decode_cancel (decoder : CM256Decoder) (blocks : list cm256_block)
  : list cm256_block :=
  let N := dec_RecoveryCount decoder in
  let x_0 := u8 (OriginalCount (Params decoder)) in
  for_up 0 (dec_OriginalCount decoder)
    (fun originalIndex blocks =>
       let inBlock := loadp (Original decoder) originalIndex in
       let inRow := Index (blk blocks inBlock) in
       for_up 0 N
         (fun recoveryIndex blocks =>
            let outBlock := loadp (Recovery decoder) recoveryIndex in
            let x_i := Index (blk blocks outBlock) in
            let y_j := inRow in
            let matrixElement := GetMatrixElement x_i x_0 y_j in
            set_Block blocks outBlock
              (gf256_muladd_mem (Block (blk blocks outBlock)) matrixElement
                 (Block (blk blocks inBlock)) (BlockBytes (Params decoder))))
         blocks)
    blocks.

(** Eliminate the lower left triangle. *)
Definition decode_lower (decoder : CM256Decoder) (matrix : list byte)
    (st : list cm256_block * Z) : list cm256_block * Z :=
  let N := dec_RecoveryCount decoder in
  for_up 0 (N - 1)
    (fun j st =>
       let block_j := loadp (Recovery decoder) j in
       for_up (j + 1) N
         (fun i '(blocks, matrix_L) =>
            let block_i := loadp (Recovery decoder) i in
            let c_ij := load matrix matrix_L in
            (set_Block blocks block_i
               (gf256_muladd_mem (Block (blk blocks block_i)) c_ij
                  (Block (blk blocks block_j)) (BlockBytes (Params decoder))),
             matrix_L + 1))
         st)
    st.

(** Eliminate the diagonal. *)
Definition decode_diag (decoder : CM256Decoder) (matrix : list byte) (diag_D : Z)
    (blocks : list cm256_block) : list cm256_block :=
  let N := dec_RecoveryCount decoder in
  for_up 0 N
    (fun i blocks =>
       let block := loadp (Recovery decoder) i in
       let blocks := set_Index blocks block (load (ErasuresIndices decoder) i) in
       set_Block blocks block
         (gf256_div_mem (Block (blk blocks block)) (Block (blk blocks block))
            (load matrix (diag_D + i)) (BlockBytes (Params decoder))))
    blocks.

(** Eliminate the upper right triangle. *)
Definition decode_upper (decoder : CM256Decoder) (matrix : list byte)
    (st : list cm256_block * Z) : list cm256_block * Z :=
  let N := dec_RecoveryCount decoder in
  for_down (N - 1) 1
    (fun j st =>
       let block_j := loadp (Recovery decoder) j in
       for_down (j - 1) 0
         (fun i '(blocks, matrix_U) =>
            let block_i := loadp (Recovery decoder) i in
            let c_ij := load matrix matrix_U in
            (set_Block blocks block_i
               (gf256_muladd_mem (Block (blk blocks block_i)) c_ij
                  (Block (blk blocks block_j)) (BlockBytes (Params decoder))),
             matrix_U + 1))
         st)
    st.

(** The memory [Decode] allocates for the matrix. *)
Definition decode_matrix (uninit8 : nat -> byte) (decoder : CM256Decoder) : list byte :=
  let N := dec_RecoveryCount decoder in
  if N * N >? StackAllocSize then uninit_bytes uninit8 (Z.to_nat (N * N))
  else uninit_bytes uninit8 (Z.to_nat StackAllocSize).

Lemma Decode_unfold uninit8 decoder blocks :
  Decode uninit8 decoder blocks
  = let N := dec_RecoveryCount decoder in
    let blocks := decode_cancel decoder blocks in
    let matrix_U := 0 in
    let diag_D := matrix_U + Z.quot ((N - 1) * N) 2 in
    let matrix_L := diag_D + N in
    let matrix :=
      GenerateLDUDecomposition uninit8 decoder blocks (decode_matrix uninit8 decoder)
        matrix_L diag_D matrix_U in
    let '(blocks, _) := decode_lower decoder matrix (blocks, matrix_L) in
    let blocks := decode_diag decoder matrix diag_D blocks in
    let '(blocks, _) := decode_upper decoder matrix (blocks, matrix_U) in
    blocks.
Proof. reflexivity. Qed.

Section Cancel.

Variable d : CM256Decoder.
Variable bl0 : list cm256_block.

Local Abbreviation N := (dec_RecoveryCount d).
Local Abbreviation B := (BlockBytes (Params d)).
Local Abbreviation rptr := (loadp (Recovery d)).
Local Abbreviation optr := (loadp (Original d)).
Local Abbreviation x0 := (u8 (OriginalCount (Params d))).

Hypothesis rptr_range : forall i, 0 <= i < N -> 0 <= rptr i < Z.of_nat (length bl0).
Hypothesis rptr_inj : forall i j, 0 <= i < N -> 0 <= j < N -> rptr i = rptr j -> i = j.
Hypothesis optr_range : forall a, 0 <= a < dec_OriginalCount d -> 0 <= optr a.
Hypothesis optr_rptr : forall a i,
  0 <= a < dec_OriginalCount d -> 0 <= i < N -> optr a <> rptr i.
Hypothesis row_length : forall i,
  0 <= i < N -> length (Block (blk bl0 (rptr i))) = Z.to_nat B.
Hypothesis HB : 0 <= B.
Hypothesis HN : 0 <= N.
Hypothesis HOC : 0 <= dec_OriginalCount d.

(** The term that the supplied original [a] contributes to the row [i]. *)
Definition cancel_term (i : Z) (p : nat) (a : nat) : byte :=
  gf256_mul
    (GetMatrixElement (Index (blk bl0 (rptr i))) x0
       (Index (blk bl0 (optr (Z.of_nat a)))))
    (byte_at (Block (blk bl0 (optr (Z.of_nat a)))) p).

(** The row [i] after the first [a] supplied originals are eliminated. *)
Definition cancelled (a : nat) (i : Z) (p : nat) : byte :=
  gf256_add (byte_at (Block (blk bl0 (rptr i))) p) (gsum (cancel_term i p) a).

Lemma decode_cancel_spec :
  rows_are d bl0 (decode_cancel d bl0) (fun i => Index (blk bl0 (rptr i)))
    (cancelled (Z.to_nat (dec_OriginalCount d))).
Proof.
  unfold decode_cancel. cbv zeta.
  apply (for_up_inv (fun a bl =>
    rows_are d bl0 bl (fun i => Index (blk bl0 (rptr i))) (cancelled (Z.to_nat a))));
    [lia| |].
  - eapply rows_are_ext; [apply rows_are_initial; assumption|reflexivity|].
    intros i p Hi Hp. unfold cancelled. simpl. ring.
  - intros a bl Ha Hrows.
    assert (Eo : blk bl (optr a) = blk bl0 (optr a)).
    { apply Hrows; [now apply optr_range|]. intros i Hi. now apply optr_rptr. }
    rewrite Eo.
    eapply rows_are_ext with
      (I := fun i => Index (blk bl0 (rptr i)))
      (V := fun i p => if i <? N then cancelled (Z.to_nat (a + 1)) i p
                       else cancelled (Z.to_nat a) i p).
    2: reflexivity.
    2: { intros i p Hi Hp. destruct (Z.ltb_spec i N); [reflexivity|lia]. }
    apply (for_up_inv (fun ri bl' =>
      rows_are d bl0 bl' (fun i => Index (blk bl0 (rptr i)))
        (fun i p => if i <? ri then cancelled (Z.to_nat (a + 1)) i p
                    else cancelled (Z.to_nat a) i p))); [lia| |].
    + eapply rows_are_ext; [exact Hrows|reflexivity|].
      intros i p Hi Hp. destruct (Z.ltb_spec i 0); [lia|reflexivity].
    + intros ri bl' Hri Hrows'.
      assert (Eo' : blk bl' (optr a) = blk bl0 (optr a)).
      { apply Hrows'; [now apply optr_range|]. intros i Hi. now apply optr_rptr. }
      rewrite Eo'.
      pose proof Hrows' as (Hl' & Hf' & Hr').
      destruct (Hr' ri ltac:(lia)) as (EI & _ & _). rewrite EI.
      eapply rows_are_ext.
      * apply (rows_muladd d bl0 rptr_range rptr_inj bl' _ _ ri _
                 (Block (blk bl0 (optr a)))
                 (fun p => byte_at (Block (blk bl0 (optr a))) p) Hrows');
          [lia | assumption | intros; reflexivity].
      * reflexivity.
      * intros i p Hi Hp. cbv beta.
        destruct (Z.eqb_spec i ri) as [->|Hne].
        -- destruct (Z.ltb_spec ri ri); [lia|].
           destruct (Z.ltb_spec ri (ri + 1)); [|lia].
           unfold cancelled.
           replace (Z.to_nat (a + 1)) with (S (Z.to_nat a)) by lia. simpl.
           unfold cancel_term at 3. rewrite Z2Nat.id by lia. ring.
        -- destruct (Z.ltb_spec i ri), (Z.ltb_spec i (ri + 1)); try reflexivity; lia.
Qed.

End Cancel.


(** * Sums over an interval of integers *)

(** The sum of [f t] over [lo <= t < hi]. *)
Definition zsum (f : Z -> byte) (lo hi : Z) : byte :=
  gsum (fun t => f (lo + Z.of_nat t)) (Z.to_nat (hi - lo)).

Lemma zsum_nil f lo hi : hi <= lo -> zsum f lo hi = x00.
Proof. intros H. unfold zsum. now replace (Z.to_nat (hi - lo)) with O by lia. Qed.

Lemma zsum_last f lo hi :
  lo < hi -> zsum f lo hi = gf256_add (zsum f lo (hi - 1)) (f (hi - 1)).
Proof.
  intros H. unfold zsum.
  replace (Z.to_nat (hi - lo)) with (S (Z.to_nat (hi - 1 - lo))) by lia. simpl.
  do 2 f_equal. lia.
Qed.

Lemma zsum_ext f g lo hi :
  (forall t, lo <= t < hi -> f t = g t) -> zsum f lo hi = zsum g lo hi.
Proof. intros H. unfold zsum. apply gsum_ext. intros i Hi. apply H. lia. Qed.

Lemma zsum_0 f lo hi : (forall t, lo <= t < hi -> f t = x00) -> zsum f lo hi = x00.
Proof.
  intros H. rewrite (zsum_ext f (fun _ => x00)) by assumption.
  unfold zsum. apply gsum_0.
Qed.

Lemma zsum_split f lo mid hi :
  lo <= mid <= hi -> zsum f lo hi = gf256_add (zsum f lo mid) (zsum f mid hi).
Proof.
  intros [H1 H2]. pattern hi. apply (Zlt_lower_bound_ind _ mid); [|assumption].
  intros h IH Hh. destruct (Z.eq_dec h mid) as [->|Hne].
  - rewrite (zsum_nil f mid mid) by lia. ring.
  - rewrite (zsum_last f lo h), (zsum_last f mid h) by lia.
    rewrite (IH (h - 1)) by lia. ring.
Qed.

Lemma zsum_first f lo hi :
  lo < hi -> zsum f lo hi = gf256_add (f lo) (zsum f (lo + 1) hi).
Proof.
  intros H. rewrite (zsum_split f lo (lo + 1) hi) by lia.
  rewrite (zsum_last f lo (lo + 1)) by lia.
  replace (lo + 1 - 1) with lo by lia. rewrite zsum_nil by lia. ring.
Qed.

Lemma zsum_add f g lo hi :
  zsum (fun t => gf256_add (f t) (g t)) lo hi = gf256_add (zsum f lo hi) (zsum g lo hi).
Proof. unfold zsum. apply (gsum_add (fun t => f (lo + Z.of_nat t))). Qed.

Lemma zsum_mul_l c f lo hi :
  zsum (fun t => gf256_mul c (f t)) lo hi = gf256_mul c (zsum f lo hi).
Proof. unfold zsum. apply (gsum_mul_l c (fun t => f (lo + Z.of_nat t))). Qed.

Lemma zsum_mul_r c f lo hi :
  zsum (fun t => gf256_mul (f t) c) lo hi = gf256_mul (zsum f lo hi) c.
Proof. unfold zsum. apply (gsum_mul_r c (fun t => f (lo + Z.of_nat t))). Qed.

Lemma gsum_exchange (f : nat -> nat -> byte) n m :
  gsum (fun i => gsum (fun j => f i j) m) n = gsum (fun j => gsum (fun i => f i j) n) m.
Proof.
  induction n as [|n IH]; simpl.
  - now rewrite gsum_0.
  - rewrite IH. now rewrite <- gsum_add.
Qed.

Lemma zsum_exchange (f : Z -> Z -> byte) lo hi lo' hi' :
  zsum (fun i => zsum (fun j => f i j) lo' hi') lo hi
  = zsum (fun j => zsum (fun i => f i j) lo hi) lo' hi'.
Proof.
  unfold zsum.
  apply (gsum_exchange (fun i j => f (lo + Z.of_nat i) (lo' + Z.of_nat j))).
Qed.

Lemma zsum_gsum f n : zsum f 0 (Z.of_nat n) = gsum (fun t => f (Z.of_nat t)) n.
Proof. unfold zsum. rewrite Z.sub_0_r, Nat2Z.id. reflexivity. Qed.

(** The only nonzero term of a sum. *)
Lemma zsum_single f lo hi t :
  lo <= t < hi -> (forall s, lo <= s < hi -> s <> t -> f s = x00) ->
  zsum f lo hi = f t.
Proof.
  intros Ht H. rewrite (zsum_split f lo t hi) by lia.
  rewrite (zsum_first f t hi) by lia.
  rewrite (zsum_0 f lo t), (zsum_0 f (t + 1) hi) by (intros; apply H; lia). ring.
Qed.

(** * The three elimination passes of [Decode] *)


Section Solve.

Variable d : CM256Decoder.
Variable bl0 : list cm256_block.
Variable matrix : list byte.
Variables matrix_L0 diag_D matrix_U : Z.
Variables cL cU : Z -> Z -> byte.
Variable cD : Z -> byte.

Local Abbreviation N := (dec_RecoveryCount d).
Local Abbreviation B := (BlockBytes (Params d)).
Local Abbreviation rptr := (loadp (Recovery d)).

Hypothesis rptr_range : forall i, 0 <= i < N -> 0 <= rptr i < Z.of_nat (length bl0).
Hypothesis rptr_inj : forall i j, 0 <= i < N -> 0 <= j < N -> rptr i = rptr j -> i = j.
Hypothesis HB : 0 <= B.
Hypothesis HN : 1 <= N.

Hypothesis HL : forall i j, 0 <= j < i -> i < N ->
  load matrix (matrix_L0 + posL N i j) = cL i j.
Hypothesis HD : forall i, 0 <= i < N -> load matrix (diag_D + i) = cD i.
Hypothesis HU : forall i j, 0 <= i < j -> j < N ->
  load matrix (matrix_U + posU N i j) = cU i j.

(** Forward substitution: the rows hold [L * Y] before and [Y] after. *)
Lemma decode_lower_spec bl I V Y :
  rows_are d bl0 bl I V ->
  (forall i p, 0 <= i < N -> (p < Z.to_nat B)%nat ->
     V i p = gf256_add (Y i p) (zsum (fun t => gf256_mul (cL i t) (Y t p)) 0 i)) ->
  rows_are d bl0 (fst (decode_lower d matrix (bl, matrix_L0))) I Y.
Proof.
  intros Hrows HV.
  set (term := fun i p t => gf256_mul (cL i t) (Y t p)) in *.
  pose (P := fun j (st : list cm256_block * Z) =>
    snd st = matrix_L0 + tri N - tri (N - j) /\
    rows_are d bl0 (fst st) I
      (fun i p => if i <=? j then Y i p
                  else gf256_add (Y i p) (zsum (term i p) j i))).
  assert (Hinv : P (N - 1) (decode_lower d matrix (bl, matrix_L0))).
  { unfold decode_lower. cbv zeta. apply (for_up_inv P); [lia| |].
    - unfold P. cbn [fst snd]. split; [rewrite Z.sub_0_r; lia|].
      eapply rows_are_ext; [exact Hrows|reflexivity|].
      intros i p Hi Hp. rewrite HV by assumption. cbv beta.
      destruct (Z.leb_spec i 0); [|reflexivity].
      rewrite zsum_nil by lia. ring.
    - intros j [blj mLj] Hj [Hp Hrj]. cbn [fst snd] in Hp, Hrj. subst mLj.
      pose (Q := fun i (st : list cm256_block * Z) =>
        snd st = matrix_L0 + posL N i j /\
        rows_are d bl0 (fst st) I
          (fun i' p =>
             if i' <=? j then Y i' p
             else if i' <? i then gf256_add (Y i' p) (zsum (term i' p) (j + 1) i')
             else gf256_add (Y i' p) (zsum (term i' p) j i'))).
      match goal with |- P _ (for_up ?lo ?hi ?body ?s) =>
        assert (Hin : Q hi (for_up lo hi body s)) end.
      { apply (for_up_inv Q); [lia| |].
        - unfold Q. cbn [fst snd]. split; [unfold posL; lia|].
          eapply rows_are_ext; [exact Hrj|reflexivity|].
          intros i p Hi Hp. cbv beta.
          destruct (Z.leb_spec i j); [reflexivity|].
          destruct (Z.ltb_spec i (j + 1)); [lia|reflexivity].
        - intros i [bli mLi] Hi [Hp Hri]. cbn [fst snd] in Hp, Hri. subst mLi.
          unfold Q. cbn [fst snd].
          split; [unfold posL; lia|].
          rewrite HL by lia.
          assert (Hsrc : forall p, (p < Z.to_nat B)%nat ->
                           byte_at (Block (blk bli (rptr j))) p = Y j p).
          { intros p Hp. destruct Hri as (_ & _ & Hr).
            destruct (Hr j ltac:(lia)) as (_ & _ & Hb). rewrite Hb by assumption.
            destruct (Z.leb_spec j j); [reflexivity|lia]. }
          eapply rows_are_ext.
          + apply (rows_muladd d bl0 rptr_range rptr_inj bli _ _ i (cL i j)
                     (Block (blk bli (rptr j))) (fun p => Y j p) Hri);
              [lia | assumption | assumption].
          + reflexivity.
          + intros i' p Hi' Hp. cbv beta.
            destruct (Z.eqb_spec i' i) as [->|Hne].
            * destruct (Z.leb_spec i j); [lia|].
              destruct (Z.ltb_spec i i); [lia|].
              destruct (Z.ltb_spec i (i + 1)); [|lia].
              rewrite (zsum_first (term i p) j i) by lia. unfold term at 1. ring.
            * destruct (Z.leb_spec i' j); [reflexivity|].
              destruct (Z.ltb_spec i' i), (Z.ltb_spec i' (i + 1)); try reflexivity; lia. }
      destruct (for_up (j + 1) N _ _) as [blo mLo]. unfold Q in Hin.
      cbn [fst snd] in Hin. destruct Hin as [Hp Hro].
      unfold P. cbn [fst snd]. split.
      + rewrite Hp. unfold posL.
        pose proof (tri_succ (N - (j + 1)) ltac:(lia)) as Et.
        replace (N - (j + 1) + 1) with (N - j) in Et by lia. lia.
      + eapply rows_are_ext; [exact Hro|reflexivity|].
        intros i p Hi Hpp. cbv beta.
        destruct (Z.leb_spec i j), (Z.leb_spec i (j + 1)); try lia; try reflexivity.
        * destruct (Z.ltb_spec i N); [|lia].
          rewrite zsum_nil by lia. ring.
        * destruct (Z.ltb_spec i N); [reflexivity|lia]. }
  destruct Hinv as [_ Hr].
  eapply rows_are_ext; [exact Hr|reflexivity|].
  intros i p Hi Hp. cbv beta. destruct (Z.leb_spec i (N - 1)); [reflexivity|lia].
Qed.

(** The diagonal: the row [i] is divided by [D i] and gets the index of the
    original that it now holds. *)
Lemma decode_diag_spec bl I V :
  rows_are d bl0 bl I V ->
  rows_are d bl0 (decode_diag d matrix diag_D bl)
    (fun i => load (ErasuresIndices d) i)
    (fun i p => gf256_div (V i p) (cD i)).
Proof.
  intros Hrows.
  pose (P := fun i bl' =>
    rows_are d bl0 bl'
      (fun i' => if i' <? i then load (ErasuresIndices d) i' else I i')
      (fun i' p => if i' <? i then gf256_div (V i' p) (cD i') else V i' p)).
  assert (Hinv : P N (decode_diag d matrix diag_D bl)).
  { unfold decode_diag. cbv zeta. apply (for_up_inv P); [lia| |].
    - unfold P.
      eapply rows_are_ext; [exact Hrows| |];
        intros; cbv beta; destruct (Z.ltb_spec i 0); try reflexivity; lia.
    - intros i bli Hi Hri. unfold P in Hri |- *. rewrite HD by lia.
      eapply rows_are_ext.
      + apply (rows_set_Index_div d bl0 rptr_range rptr_inj bli _ _ i
                 (load (ErasuresIndices d) i) (cD i) Hri); [lia|assumption].
      + intros i' Hi'. cbv beta.
        destruct (Z.eqb_spec i' i) as [->|Hne].
        * destruct (Z.ltb_spec i (i + 1)); [reflexivity|lia].
        * destruct (Z.ltb_spec i' i), (Z.ltb_spec i' (i + 1)); try reflexivity; lia.
      + intros i' p Hi' Hp. cbv beta.
        destruct (Z.eqb_spec i' i) as [->|Hne].
        * destruct (Z.ltb_spec i i); [lia|].
          destruct (Z.ltb_spec i (i + 1)); [reflexivity|lia].
        * destruct (Z.ltb_spec i' i), (Z.ltb_spec i' (i + 1)); try reflexivity; lia. }
  unfold P in Hinv.
  eapply rows_are_ext; [exact Hinv| |];
    intros; cbv beta; destruct (Z.ltb_spec i N); try reflexivity; lia.
Qed.

(** Back substitution: the rows hold [U * X] before and [X] after. *)
Lemma decode_upper_spec bl I V X :
  rows_are d bl0 bl I V ->
  (forall i p, 0 <= i < N -> (p < Z.to_nat B)%nat ->
     V i p = gf256_add (X i p) (zsum (fun c => gf256_mul (cU i c) (X c p)) (i + 1) N)) ->
  rows_are d bl0 (fst (decode_upper d matrix (bl, matrix_U))) I X.
Proof.
  intros Hrows HV.
  set (term := fun i p c => gf256_mul (cU i c) (X c p)) in *.
  pose (P := fun j (st : list cm256_block * Z) =>
    snd st = matrix_U + tri N - tri (j + 1) /\
    rows_are d bl0 (fst st) I
      (fun i p => if j <=? i then X i p
                  else gf256_add (X i p) (zsum (term i p) (i + 1) (j + 1)))).
  assert (Hinv : P (1 - 1) (decode_upper d matrix (bl, matrix_U))).
  { unfold decode_upper. cbv zeta. apply (for_down_inv P); [lia| |].
    - unfold P. cbn [fst snd]. split; [replace (N - 1 + 1) with N by lia; lia|].
      eapply rows_are_ext; [exact Hrows|reflexivity|].
      intros i p Hi Hp. rewrite HV by assumption. cbv beta.
      replace (N - 1 + 1) with N by lia.
      destruct (Z.leb_spec (N - 1) i); [|reflexivity].
      rewrite zsum_nil by lia. ring.
    - intros j [blj mUj] Hj [Hp Hrj]. cbn [fst snd] in Hp, Hrj. subst mUj.
      pose (Q := fun i (st : list cm256_block * Z) =>
        snd st = matrix_U + posU N i j /\
        rows_are d bl0 (fst st) I
          (fun i' p =>
             if j <=? i' then X i' p
             else if i <? i' then gf256_add (X i' p) (zsum (term i' p) (i' + 1) j)
             else gf256_add (X i' p) (zsum (term i' p) (i' + 1) (j + 1)))).
      match goal with |- P _ (for_down ?hi ?lo ?body ?s) =>
        assert (Hin : Q (lo - 1) (for_down hi lo body s)) end.
      { apply (for_down_inv Q); [lia| |].
        - unfold Q. cbn [fst snd]. split; [unfold posU; lia|].
          eapply rows_are_ext; [exact Hrj|reflexivity|].
          intros i p Hi Hp. cbv beta.
          destruct (Z.leb_spec j i); [reflexivity|].
          destruct (Z.ltb_spec (j - 1) i); [lia|reflexivity].
        - intros i [bli mUi] Hi [Hp Hri]. cbn [fst snd] in Hp, Hri. subst mUi.
          unfold Q. cbn [fst snd].
          split; [unfold posU; lia|].
          rewrite HU by lia.
          assert (Hsrc : forall p, (p < Z.to_nat B)%nat ->
                           byte_at (Block (blk bli (rptr j))) p = X j p).
          { intros p Hp. destruct Hri as (_ & _ & Hr).
            destruct (Hr j ltac:(lia)) as (_ & _ & Hb). rewrite Hb by assumption.
            destruct (Z.leb_spec j j); [reflexivity|lia]. }
          eapply rows_are_ext.
          + apply (rows_muladd d bl0 rptr_range rptr_inj bli _ _ i (cU i j)
                     (Block (blk bli (rptr j))) (fun p => X j p) Hri);
              [lia | assumption | assumption].
          + reflexivity.
          + intros i' p Hi' Hp. cbv beta.
            destruct (Z.eqb_spec i' i) as [->|Hne].
            * destruct (Z.leb_spec j i); [lia|].
              destruct (Z.ltb_spec i i); [lia|].
              destruct (Z.ltb_spec (i - 1) i); [|lia].
              rewrite (zsum_last (term i p) (i + 1) (j + 1)) by lia.
              replace (j + 1 - 1) with j by lia. unfold term at 2. ring.
            * destruct (Z.leb_spec j i'); [reflexivity|].
              destruct (Z.ltb_spec i i'), (Z.ltb_spec (i - 1) i'); try reflexivity; lia. }
      destruct (for_down (j - 1) 0 _ _) as [blo mUo]. unfold Q in Hin.
      cbn [fst snd] in Hin. destruct Hin as [Hp Hro].
      unfold P. cbn [fst snd]. split.
      + rewrite Hp. unfold posU.
        pose proof (tri_succ j ltac:(lia)) as Et.
        replace (j - 1 + 1) with j by lia. lia.
      + eapply rows_are_ext; [exact Hro|reflexivity|].
        intros i p Hi Hpp. cbv beta. replace (j - 1 + 1) with j by lia.
        destruct (Z.leb_spec j i), (Z.leb_spec (j - 1) i); try lia; try reflexivity.
        * destruct (Z.ltb_spec (0 - 1) i); [|lia].
          rewrite zsum_nil by lia. ring.
        * destruct (Z.ltb_spec (0 - 1) i); [reflexivity|lia]. }
  destruct Hinv as [_ Hr].
  eapply rows_are_ext; [exact Hr|reflexivity|].
  intros i p Hi Hp. cbv beta. destruct (Z.leb_spec (1 - 1) i); [reflexivity|lia].
Qed.

End Solve.


(** * The factors in memory *)

(** The lower factor as a full matrix: [cL] below the diagonal, ones on it. *)
Definition Lfull (cL : Z -> Z -> byte) (i t : Z) : byte :=
  if i =? t then x01 else if t <? i then cL i t else x00.

(** The upper factor as a full matrix: [cU] above the diagonal, ones on it. *)
Definition Ufull (cU : Z -> Z -> byte) (t j : Z) : byte :=
  if t =? j then x01 else if t <? j then cU t j else x00.

(** A product with a row of the lower factor. *)
Lemma zsum_Lfull cL (g : Z -> byte) i n :
  0 <= i < n ->
  zsum (fun t => gf256_mul (Lfull cL i t) (g t)) 0 n
  = gf256_add (g i) (zsum (fun t => gf256_mul (cL i t) (g t)) 0 i).
Proof.
  intros Hi. rewrite (zsum_split _ 0 i n) by lia.
  rewrite (zsum_first _ i n) by lia.
  rewrite (zsum_0 _ (i + 1) n).
  2:{ intros t Ht. unfold Lfull.
      destruct (Z.eqb_spec i t); [lia|]. destruct (Z.ltb_spec t i); [lia|]. ring. }
  rewrite (zsum_ext _ (fun t => gf256_mul (cL i t) (g t)) 0 i).
  2:{ intros t Ht. unfold Lfull.
      destruct (Z.eqb_spec i t); [lia|]. destruct (Z.ltb_spec t i); [reflexivity|lia]. }
  unfold Lfull. rewrite Z.eqb_refl. ring.
Qed.

(** A product with a row of the upper factor. *)
Lemma zsum_Ufull cU (g : Z -> byte) t n :
  0 <= t < n ->
  zsum (fun c => gf256_mul (Ufull cU t c) (g c)) 0 n
  = gf256_add (g t) (zsum (fun c => gf256_mul (cU t c) (g c)) (t + 1) n).
Proof.
  intros Ht. rewrite (zsum_split _ 0 t n) by lia.
  rewrite (zsum_first _ t n) by lia.
  rewrite (zsum_0 _ 0 t).
  2:{ intros c Hc. unfold Ufull.
      destruct (Z.eqb_spec t c); [lia|]. destruct (Z.ltb_spec t c); [lia|]. ring. }
  rewrite (zsum_ext _ (fun c => gf256_mul (cU t c) (g c)) (t + 1) n).
  2:{ intros c Hc. unfold Ufull.
      destruct (Z.eqb_spec t c); [lia|]. destruct (Z.ltb_spec t c); [reflexivity|lia]. }
  unfold Ufull. rewrite Z.eqb_refl. ring.
Qed.

Section Factors.

Variable d : CM256Decoder.
Variable b : list cm256_block.

Local Abbreviation N := (dec_RecoveryCount d).
Local Abbreviation n := (Z.to_nat (dec_RecoveryCount d)).
Local Abbreviation xn := (fun i : nat => rec_x d b (Z.of_nat i)).
Local Abbreviation yn := (fun j : nat => era_y d (Z.of_nat j)).
Local Abbreviation x0 := (norm_x0 d).

Hypothesis Hxy : forall i j, (i < n)%nat -> (j < n)%nat -> gf256_add (xn i) (yn j) <> x00.
Hypothesis Hxx : forall i j, (i < n)%nat -> (j < n)%nat -> i <> j ->
  gf256_add (xn i) (xn j) <> x00.
Hypothesis Hyy : forall i j, (i < n)%nat -> (j < n)%nat -> i <> j ->
  gf256_add (yn i) (yn j) <> x00.
Hypothesis Hx0 : forall j, (j < n)%nat -> gf256_add x0 (yn j) <> x00.

Lemma zD_neq0 t : 0 <= t < N -> zD d b t <> x00.
Proof.
  intros Ht. unfold zD. apply ldu_D_neq0; try assumption. lia.
Qed.

(** The product of the three factors is the matrix of the Cauchy elements
    of the recovery rows and the erased columns. *)
Lemma factors_product i j :
  0 <= i < N -> 0 <= j < N ->
  zsum (fun t => gf256_mul (Lfull (zL d b) i t)
                   (gf256_mul (zD d b t) (Ufull (zU d b) t j))) 0 N
  = GetMatrixElement (rec_x d b i) (norm_x0 d) (era_y d j).
Proof.
  intros Hi Hj.
  replace N with (Z.of_nat n) at 1 by lia. rewrite zsum_gsum.
  rewrite (gsum_ext _
    (fun t => gf256_mul (Lmat xn yn (Z.to_nat i) t)
                (gf256_mul (ldu_D xn yn x0 n t) (Umat xn yn x0 t (Z.to_nat j))))).
  - rewrite ldu_product by (assumption || lia).
    unfold Gmat. now rewrite !Z2Nat.id by lia.
  - intros t Ht. f_equal; [|f_equal].
    + unfold Lfull, Lmat, zL. rewrite Nat2Z.id.
      destruct (Z.eqb_spec i (Z.of_nat t)), (Nat.eqb_spec (Z.to_nat i) t);
        try lia; try reflexivity.
      destruct (Z.ltb_spec (Z.of_nat t) i), (Nat.ltb_spec t (Z.to_nat i));
        try lia; reflexivity.
    + unfold zD. now rewrite Nat2Z.id.
    + unfold Ufull, Umat, zU. rewrite Nat2Z.id.
      destruct (Z.eqb_spec (Z.of_nat t) j), (Nat.eqb_spec t (Z.to_nat j));
        try lia; try reflexivity.
      destruct (Z.ltb_spec (Z.of_nat t) j), (Nat.ltb_spec t (Z.to_nat j));
        try lia; reflexivity.
Qed.

End Factors.


(** * The decomposition that [GenerateLDUDecomposition] leaves in memory *)

(** One original and both recovery blocks of three originals. *)
Definition ldu_blocks : list cm256_block :=
  [ {| Block := repeat x11 64; Index := x01 |};
    {| Block := repeat x22 64; Index := x03 |};
    {| Block := repeat x33 64; Index := x04 |} ].

Definition ldu_decoder : CM256Decoder :=
  snd (Initialize example_decoder S5_params ldu_blocks).

(** C2. After [Initialize] has accepted [k] blocks with pairwise distinct
    indices and found [N >= 2] erasures, [GenerateLDUDecomposition] leaves in
    memory a unit lower triangular [L] (strict part at [matrix_L], column
    after column, each from the top down), a diagonal [D] (at [diag_D]) and
    a unit upper triangular [U] (strict part at [matrix_U], in the order in
    which the back substitution of [Decode] reads it) with
    [L * D * U = G], where [G i j] is the Cauchy element
    [(y_j + k) / (x_i + y_j)] of the index [x_i] of the i-th recovery block
    and the j-th erased original index [y_j]; no denominator is zero. *)
Theorem LDU_decomposition :
  forall uninit8 params blocks decoder0 decoder matrix0 matrix_L diag_D matrix_U,
    valid_params params ->
    length blocks = Z.to_nat (OriginalCount params) ->
    NoDup (map Index blocks) ->
    length (Recovery decoder0) = 256%nat ->
    length (Original decoder0) = 256%nat ->
    length (ErasuresIndices decoder0) = 256%nat ->
    Initialize decoder0 params blocks = (0, decoder) ->
    2 <= dec_RecoveryCount decoder ->
    0 <= matrix_U ->
    matrix_U + tri (dec_RecoveryCount decoder) <= diag_D ->
    diag_D + dec_RecoveryCount decoder <= matrix_L ->
    matrix_L + tri (dec_RecoveryCount decoder) <= Z.of_nat (length matrix0) ->
    let N := dec_RecoveryCount decoder in
    let mem :=
      GenerateLDUDecomposition uninit8 decoder blocks matrix0 matrix_L diag_D matrix_U in
    let L := Lfull (fun i t => load mem (matrix_L + posL N i t)) in
    let D := fun t => load mem (diag_D + t) in
    let U := Ufull (fun t j => load mem (matrix_U + posU N t j)) in
    forall i j, 0 <= i < N -> 0 <= j < N ->
      let x_i := Index (blk blocks (loadp (Recovery decoder) i)) in
      let y_j := load (ErasuresIndices decoder) j in
      zsum (fun t => gf256_mul (L i t) (gf256_mul (D t) (U t j))) 0 N
      = GetMatrixElement x_i (u8 (OriginalCount params)) y_j /\
      GetMatrixElement x_i (u8 (OriginalCount params)) y_j
      = gf256_div (gf256_add y_j (u8 (OriginalCount params))) (gf256_add x_i y_j) /\
      gf256_add x_i y_j <> x00.
Proof.
  intros uninit8 params blocks decoder0 decoder matrix0 matrix_L diag_D matrix_U
    Hv Hl Hn HLR HLO HLE HI HN HU HUD HDL HLen N mem L D U i j Hi Hj x_i y_j.
  pose proof Hv as (Hk & Hm & HB & Hs).
  destruct (Initialize_distinct params blocks ltac:(lia) decoder0 HLR HLO HLE
              (NoDup_distinct_originals params blocks Hl Hn)) as (d' & HI' & Hini).
  rewrite HI in HI'. injection HI' as <-.
  pose proof (ready_counts params blocks decoder Hv Hl Hini) as (_ & HOC & Hsum).
  destruct (GenerateLDUDecomposition_spec uninit8 decoder blocks matrix0 matrix_L
              diag_D matrix_U ltac:(lia) HU HUD HDL HLen) as (_ & HDs & HLs & HUs).
  fold N in HDs, HLs, HUs. fold mem in HDs, HLs, HUs.
  assert (Hxy : gf256_add x_i y_j <> x00).
  { pose proof (ready_xy params blocks decoder Hv Hl Hini (Z.to_nat i) (Z.to_nat j)
                  ltac:(lia) ltac:(lia)) as H.
    rewrite !Z2Nat.id in H by lia. exact H. }
  split; [|split; [reflexivity|exact Hxy]].
  rewrite (zsum_ext _
    (fun t => gf256_mul (Lfull (zL decoder blocks) i t)
                (gf256_mul (zD decoder blocks t) (Ufull (zU decoder blocks) t j)))).
  - rewrite factors_product; try assumption.
    + now rewrite (ready_x0 params blocks decoder Hini).
    + apply (ready_xy params blocks decoder Hv Hl Hini).
    + apply (ready_xx params blocks decoder Hl Hn Hini).
    + apply (ready_yy params blocks decoder Hv Hl Hini).
    + apply (ready_x0y params blocks decoder Hv Hl Hini).
  - intros t Ht. unfold L, D, U, Lfull, Ufull. rewrite HDs by lia.
    f_equal; [|f_equal].
    + destruct (Z.eqb_spec i t); [reflexivity|].
      destruct (Z.ltb_spec t i); [|reflexivity]. apply HLs; lia.
    + destruct (Z.eqb_spec t j); [reflexivity|].
      destruct (Z.ltb_spec t j); [|reflexivity]. apply HUs; lia.
Qed.

Lemma LDU_decomposition_witness :
  Initialize example_decoder S5_params ldu_blocks = (0, ldu_decoder) /\
  dec_RecoveryCount ldu_decoder = 2 /\
  forall i j, 0 <= i < dec_RecoveryCount ldu_decoder ->
              0 <= j < dec_RecoveryCount ldu_decoder ->
    zsum (fun t =>
            gf256_mul
              (Lfull (fun i t =>
                        load (GenerateLDUDecomposition (fun _ => x00) ldu_decoder
                                ldu_blocks (repeat x00 4) 3 1 0)
                          (3 + posL (dec_RecoveryCount ldu_decoder) i t)) i t)
              (gf256_mul
                 (load (GenerateLDUDecomposition (fun _ => x00) ldu_decoder
                          ldu_blocks (repeat x00 4) 3 1 0) (1 + t))
                 (Ufull (fun t j =>
                           load (GenerateLDUDecomposition (fun _ => x00) ldu_decoder
                                   ldu_blocks (repeat x00 4) 3 1 0)
                             (0 + posU (dec_RecoveryCount ldu_decoder) t j)) t j)))
      0 (dec_RecoveryCount ldu_decoder)
    = GetMatrixElement (Index (blk ldu_blocks (loadp (Recovery ldu_decoder) i)))
        (u8 (OriginalCount S5_params)) (load (ErasuresIndices ldu_decoder) j) /\
    GetMatrixElement (Index (blk ldu_blocks (loadp (Recovery ldu_decoder) i)))
      (u8 (OriginalCount S5_params)) (load (ErasuresIndices ldu_decoder) j)
    = gf256_div
        (gf256_add (load (ErasuresIndices ldu_decoder) j) (u8 (OriginalCount S5_params)))
        (gf256_add (Index (blk ldu_blocks (loadp (Recovery ldu_decoder) i)))
           (load (ErasuresIndices ldu_decoder) j)) /\
    gf256_add (Index (blk ldu_blocks (loadp (Recovery ldu_decoder) i)))
      (load (ErasuresIndices ldu_decoder) j) <> x00.
Proof.
  assert (EI : Initialize example_decoder S5_params ldu_blocks = (0, ldu_decoder))
    by (vm_compute; reflexivity).
  assert (EN : dec_RecoveryCount ldu_decoder = 2) by (vm_compute; reflexivity).
  split; [exact EI|]. split; [exact EN|].
  apply (LDU_decomposition (fun _ => x00) S5_params ldu_blocks example_decoder
           ldu_decoder (repeat x00 4) 3 1 0).
  - unfold valid_params; simpl; lia.
  - reflexivity.
  - simpl. repeat constructor; simpl; intuition discriminate.
  - reflexivity.
  - reflexivity.
  - reflexivity.
  - exact EI.
  - rewrite EN. lia.
  - lia.
  - rewrite EN. vm_compute. discriminate.
  - rewrite EN. lia.
  - rewrite EN. vm_compute. discriminate.
Defined.


(** * Sums over the supplied and over the erased originals *)

Lemma gsum_nth {A} (f : A -> byte) (l : list A) (dflt : A) :
  gsum (fun a => f (nth a l dflt)) (length l) = lsum f l.
Proof.
  rewrite gsum_lsum. rewrite <- (lsum_map f (fun a => nth a l dflt)).
  f_equal. induction l as [|x l IH]; [reflexivity|].
  simpl. f_equal. rewrite <- seq_shift, map_map. exact IH.
Qed.

Lemma gsum_zrange (F : Z -> byte) n :
  gsum (fun j => F (Z.of_nat j)) (Z.to_nat n) = lsum F (zrange n).
Proof. rewrite gsum_lsum. unfold zrange. now rewrite lsum_map. Qed.

Section Present.

Variable params : cm256_encoder_params.
Variable blocks : list cm256_block.
Variable d : CM256Decoder.

Local Abbreviation k := (OriginalCount params).
Local Abbreviation N := (dec_RecoveryCount d).

Hypothesis Hv : valid_params params.
Hypothesis Hl : length blocks = Z.to_nat (OriginalCount params).
Hypothesis Hn : NoDup (map Index blocks).
Hypothesis Hi : initialized params blocks d.

(** The original indices that are present are those of the supplied
    originals. *)
Lemma present_perm :
  Permutation (filter (present blocks k) (zrange k))
    (map (block_index blocks) (originals_of params blocks k)).
Proof.
  pose proof (NoDup_distinct_originals params blocks Hl Hn) as Hd.
  apply NoDup_Permutation.
  - apply NoDup_filter, NoDup_zrange.
  - apply NoDup_map_inj_in; [|apply NoDup_filter, NoDup_zrange].
    intros a b Ha Hb E. apply in_originals_of in Ha, Hb.
    destruct (Z.lt_total a b) as [Hlt|[Heq|Hgt]]; [|assumption|].
    + exfalso. apply (Hd a b); try lia. unfold is_original. lia.
    + exfalso. apply (Hd b a); try lia. unfold is_original. lia.
  - intros x. rewrite filter_In, in_zrange, in_map_iff, present_true. split.
    + intros (Hx & p & Hp & E). exists p. split; [assumption|].
      apply in_originals_of. lia.
    + intros (p & E & Hp). apply in_originals_of in Hp.
      pose proof (block_index_range blocks p). split; [lia|]. exists p. lia.
Qed.

(** In characteristic 2, the sum over all original indices and the sum over
    the supplied ones leave the sum over the erased ones. *)
Lemma sum_erased (F : Z -> byte) :
  gf256_add (gsum (fun j => F (Z.of_nat j)) (Z.to_nat k))
    (gsum (fun a => F (block_index blocks (loadp (Original d) (Z.of_nat a))))
       (Z.to_nat (dec_OriginalCount d)))
  = zsum (fun t => F (erasure params blocks t)) 0 N.
Proof.
  pose proof Hi as (_ & HOC & HRC & _ & _ & HLE & _).
  rewrite gsum_zrange.
  rewrite <- (lsum_perm F _ _ (filter_split_perm (present blocks k) (zrange k))).
  rewrite lsum_app, (lsum_perm F _ _ present_perm), lsum_map.
  rewrite (gsum_ext _
    (fun a => F (block_index blocks (nth a (originals_of params blocks k) (-1))))).
  2:{ intros a Ha.
      rewrite (ready_original_nth params blocks d Hl Hi) by lia.
      now rewrite Nat2Z.id. }
  rewrite HOC, Nat2Z.id.
  rewrite (gsum_nth (fun p => F (block_index blocks p))).
  rewrite HRC, <- HLE, zsum_gsum.
  rewrite (gsum_ext _ (fun t => F (nth t (erasures_of params blocks) 0))).
  2:{ intros t Ht. unfold erasure. now rewrite Nat2Z.id. }
  rewrite (gsum_nth F). fold (erasures_of params blocks).
  set (a := lsum (fun p => F (block_index blocks p)) _).
  set (e := lsum F (erasures_of params blocks)).
  replace (lsum F (filter (fun r => negb (present blocks k r)) (zrange k))) with e
    by reflexivity.
  ring.
Qed.

(** An original index is that of a supplied block or that of an erasure. *)
Lemma supplied_or_erased r :
  0 <= r < k ->
  (exists p, 0 <= p < k /\ block_index blocks p = r) \/
  (exists t, 0 <= t < N /\ erasure params blocks t = r).
Proof.
  intros Hr. pose proof Hi as (_ & _ & HRC & _ & _ & HLE & _).
  destruct (present blocks k r) eqn:E.
  - left. apply present_true in E. destruct E as (p & Hp & E).
    exists p. split; [lia|assumption].
  - right. assert (Hin : In r (erasures_of params blocks)).
    { apply filter_In. split; [now apply in_zrange|]. now rewrite E. }
    destruct (In_nth _ _ 0 Hin) as (t & Ht & E').
    exists (Z.of_nat t). split; [lia|]. unfold erasure. now rewrite Nat2Z.id.
Qed.

End Present.


(** * [DecodeM1]: one recovery block *)

Section M1.

Variable d : CM256Decoder.
Variable bl0 : list cm256_block.

Local Abbreviation N := (dec_RecoveryCount d).
Local Abbreviation B := (BlockBytes (Params d)).
Local Abbreviation rptr := (loadp (Recovery d)).
Local Abbreviation optr := (loadp (Original d)).

Hypothesis rptr_range : forall i, 0 <= i < N -> 0 <= rptr i < Z.of_nat (length bl0).
Hypothesis rptr_inj : forall i j, 0 <= i < N -> 0 <= j < N -> rptr i = rptr j -> i = j.
Hypothesis optr_range : forall a, 0 <= a < dec_OriginalCount d -> 0 <= optr a.
Hypothesis optr_rptr : forall a i,
  0 <= a < dec_OriginalCount d -> 0 <= i < N -> optr a <> rptr i.
Hypothesis row_length : forall i,
  0 <= i < N -> length (Block (blk bl0 (rptr i))) = Z.to_nat B.
Hypothesis HB : 0 <= B.
Hypothesis HN : N = 1.
Hypothesis HOC : 0 <= dec_OriginalCount d.

(** A new index for the row [i]. *)
Lemma rows_set_Index bl I V i idx :
  rows_are d bl0 bl I V -> 0 <= i < N ->
  rows_are d bl0 (set_Index bl (rptr i) idx) (fun i' => if i' =? i then idx else I i') V.
Proof.
  intros (Hl & Hf & Hr) Hi. pose proof (rptr_range i Hi) as Hri.
  split; [now rewrite length_set_Index|]. split.
  - intros q Hq Hne. assert (q <> rptr i) by (apply Hne; assumption).
    rewrite blk_set_Index_neq by lia. now apply Hf.
  - intros i' Hi'. destruct (Z.eqb_spec i' i) as [->|Hne].
    + rewrite blk_set_Index_eq by lia. simpl.
      split; [reflexivity|]. apply (Hr i Hi).
    + pose proof (rptr_range i' Hi').
      assert (rptr i <> rptr i') by (intros E; apply Hne; symmetry; now apply rptr_inj).
      rewrite blk_set_Index_neq by lia. now apply Hr.
Qed.

(** The recovery row after the first [a] supplied originals are added. *)
Definition m1_sum (a : nat) (i : Z) (p : nat) : byte :=
  gf256_add (byte_at (Block (blk bl0 (rptr i))) p)
    (gsum (fun a' => byte_at (Block (blk bl0 (optr (Z.of_nat a')))) p) a).

(** The state of the loop of [DecodeM1] before the iteration [ii]: the
    pending buffer, if there is one, is that of the previous original. *)
Definition m1_inv (ii : Z) (st : option Z * list cm256_block) : Prop :=
  match fst st with
  | None =>
      rows_are d bl0 (snd st) (fun i => Index (blk bl0 (rptr i))) (m1_sum (Z.to_nat ii))
  | Some q =>
      1 <= ii /\ q = optr (ii - 1) /\
      rows_are d bl0 (snd st) (fun i => Index (blk bl0 (rptr i)))
        (m1_sum (Z.to_nat (ii - 1)))
  end.

Lemma m1_sum_succ a i p :
  0 <= a ->
  m1_sum (Z.to_nat (a + 1)) i p
  = gf256_add (m1_sum (Z.to_nat a) i p) (byte_at (Block (blk bl0 (optr a))) p).
Proof.
  intros Ha. unfold m1_sum. replace (Z.to_nat (a + 1)) with (S (Z.to_nat a)) by lia.
  simpl. rewrite Z2Nat.id by lia. ring.
Qed.

Lemma DecodeM1_spec :
  rows_are d bl0 (DecodeM1 d bl0) (fun i => load (ErasuresIndices d) i)
    (m1_sum (Z.to_nat (dec_OriginalCount d))).
Proof.
  unfold DecodeM1. cbv zeta.
  match goal with |- context [for_up ?lo ?hi ?body ?s] =>
    assert (Hinv : m1_inv hi (for_up lo hi body s)) end.
  { apply (for_up_inv m1_inv); [lia| |].
    - unfold m1_inv. cbn [fst snd].
      eapply rows_are_ext; [apply rows_are_initial; assumption|reflexivity|].
      intros i p Hi Hp. unfold m1_sum. simpl. ring.
    - intros ii [[q|] bl] Hii Hst; unfold m1_inv in Hst |- *; cbn [fst snd] in Hst |- *.
      + destruct Hst as (H1 & -> & Hrows).
        assert (Eq : blk bl (optr (ii - 1)) = blk bl0 (optr (ii - 1))).
        { apply Hrows; [apply optr_range; lia|]. intros i Hi. apply optr_rptr; lia. }
        assert (Eo : blk bl (optr ii) = blk bl0 (optr ii)).
        { apply Hrows; [apply optr_range; lia|]. intros i Hi. apply optr_rptr; lia. }
        rewrite Eq, Eo. pose proof Hrows as (_ & _ & Hr).
        destruct (Hr 0 ltac:(lia)) as (_ & Hlen & Hv).
        eapply rows_are_ext.
        * apply (rows_set_Block d bl0 rptr_range rptr_inj bl _ _ 0
                   (gf256_add2_mem (Block (blk bl (rptr 0)))
                      (Block (blk bl0 (optr (ii - 1)))) (Block (blk bl0 (optr ii))) B)
                   (fun p => m1_sum (Z.to_nat (ii + 1)) 0 p) Hrows); [lia| |].
          -- unfold gf256_add2_mem. now rewrite length_mem_set.
          -- intros p Hp. unfold gf256_add2_mem. rewrite byte_at_mem_set, Hlen.
             destruct (Nat.ltb_spec p (Z.to_nat B)); [|lia]. simpl.
             rewrite Hv by assumption.
             rewrite (m1_sum_succ ii) by lia.
             pose proof (m1_sum_succ (ii - 1) 0 p ltac:(lia)) as E.
             replace (ii - 1 + 1) with ii in E by lia. rewrite E. ring.
        * reflexivity.
        * intros i p Hi Hp. cbv beta. assert (i = 0) by lia. subst i. reflexivity.
      + split; [lia|]. split; [f_equal; lia|].
        replace (ii + 1 - 1) with ii by lia. exact Hst. }
  destruct (for_up 0 (dec_OriginalCount d) _ _) as [[q|] bl];
    unfold m1_inv in Hinv; cbn [fst snd] in Hinv.
  - destruct Hinv as (H1 & -> & Hrows).
    assert (Eq : blk bl (optr (dec_OriginalCount d - 1))
                 = blk bl0 (optr (dec_OriginalCount d - 1))).
    { apply Hrows; [apply optr_range; lia|]. intros i Hi. apply optr_rptr; lia. }
    rewrite Eq. pose proof Hrows as (_ & _ & Hr).
    destruct (Hr 0 ltac:(lia)) as (_ & Hlen & Hv).
    eapply rows_are_ext.
    + apply rows_set_Index; [|lia].
      apply (rows_set_Block d bl0 rptr_range rptr_inj bl _ _ 0
               (gf256_add_mem (Block (blk bl (rptr 0)))
                  (Block (blk bl0 (optr (dec_OriginalCount d - 1)))) B)
               (fun p => m1_sum (Z.to_nat (dec_OriginalCount d)) 0 p) Hrows); [lia| |].
      * unfold gf256_add_mem. now rewrite length_mem_set.
      * intros p Hp. unfold gf256_add_mem. rewrite byte_at_mem_set, Hlen.
        destruct (Nat.ltb_spec p (Z.to_nat B)); [|lia]. simpl.
        rewrite Hv by assumption.
        pose proof (m1_sum_succ (dec_OriginalCount d - 1) 0 p ltac:(lia)) as E.
        replace (dec_OriginalCount d - 1 + 1) with (dec_OriginalCount d) in E by lia.
        now rewrite E.
    + intros i Hi. cbv beta. assert (i = 0) by lia. subst i. reflexivity.
    + intros i p Hi Hp. cbv beta. assert (i = 0) by lia. subst i. reflexivity.
  - eapply rows_are_ext.
    + apply rows_set_Index; [exact Hinv|lia].
    + intros i Hi. cbv beta. assert (i = 0) by lia. subst i. reflexivity.
    + reflexivity.
Qed.

End M1.


(** * Solving with the three factors *)

Lemma gf256_div_mul_cancel c w : c <> x00 -> gf256_div (gf256_mul c w) c = w.
Proof. intros H. field. assumption. Qed.

(** With [G = L * D * U], the vector [G * X] is [L * Y] for
    [Y = D * (U * X)]. *)
Lemma solve_algebra (cL cU : Z -> Z -> byte) (cD : Z -> byte) (G : Z -> Z -> byte)
    (X : Z -> byte) n :
  (forall i j, 0 <= i < n -> 0 <= j < n ->
     zsum (fun t => gf256_mul (Lfull cL i t) (gf256_mul (cD t) (Ufull cU t j))) 0 n
     = G i j) ->
  let Y := fun t =>
    gf256_mul (cD t)
      (gf256_add (X t) (zsum (fun c => gf256_mul (cU t c) (X c)) (t + 1) n)) in
  forall i, 0 <= i < n ->
    zsum (fun c => gf256_mul (G i c) (X c)) 0 n
    = gf256_add (Y i) (zsum (fun t => gf256_mul (cL i t) (Y t)) 0 i).
Proof.
  intros HG Y i Hi.
  rewrite <- (zsum_Lfull cL Y i n Hi).
  rewrite (zsum_ext _
    (fun c => zsum (fun t => gf256_mul (Lfull cL i t)
                               (gf256_mul (cD t) (gf256_mul (Ufull cU t c) (X c)))) 0 n)
    0 n).
  2:{ intros c Hc. rewrite <- (HG i c Hi Hc). rewrite <- zsum_mul_r.
      apply zsum_ext. intros t Ht. ring. }
  rewrite zsum_exchange. apply zsum_ext. intros t Ht.
  rewrite zsum_mul_l, zsum_mul_l. unfold Y.
  now rewrite (zsum_Ufull cU X t n Ht).
Qed.

(** * The decoder on blocks drawn from an encoding *)

(** The block [b] is what the encoder's caller holds under the index of [b]:
    the original with that index, or the recovery shard with that index in
    the output [out] of the encoder. *)
Definition drawn_from (params : cm256_encoder_params) (originals : list cm256_block)
    (out : list byte) (b : cm256_block) : Prop :=
  (0 <= int_of (Index b) < OriginalCount params /\
   Block b = Block (blk originals (int_of (Index b)))) \/
  (OriginalCount params <= int_of (Index b)
     < OriginalCount params + RecoveryCount params /\
   Block b = recovery_shard params out (int_of (Index b) - OriginalCount params)).

Section RoundTrip.

Variable uninit8 : nat -> byte.
Variable params : cm256_encoder_params.
Variable originals : list cm256_block.
Variable out : list byte.
Variable blocks : list cm256_block.
Variable d : CM256Decoder.

Local Abbreviation k := (OriginalCount params).
Local Abbreviation m := (RecoveryCount params).
Local Abbreviation N := (dec_RecoveryCount d).
Local Abbreviation rptr := (loadp (Recovery d)).
Local Abbreviation optr := (loadp (Original d)).

Hypothesis Hv : valid_params params.
Hypothesis Hs : shards_ok params originals.
Hypothesis Hrec : forall r p,
  0 <= r < RecoveryCount params -> (p < Z.to_nat (BlockBytes params))%nat ->
  byte_at (recovery_shard params out r) p
  = recovery_byte params originals (OriginalCount params + r) p.
Hypothesis Hrl : forall r,
  0 <= r < RecoveryCount params ->
  length (recovery_shard params out r) = Z.to_nat (BlockBytes params).
Hypothesis Hl : length blocks = Z.to_nat (OriginalCount params).
Hypothesis Hn : NoDup (map Index blocks).
Hypothesis Hdrawn : forall p,
  0 <= p < OriginalCount params -> drawn_from params originals out (blk blocks p).
Hypothesis Hi : initialized params blocks d.

(** The bytes of the t-th erased original. *)
Definition erased_byte (t : Z) (p : nat) : byte :=
  orig_byte originals p (Z.to_nat (erasure params blocks t)).

Lemma rt_rptr_range i : 0 <= i < N -> 0 <= rptr i < Z.of_nat (length blocks).
Proof.
  intros Hr. destruct (ready_recovery params blocks d Hl Hi i Hr) as [H _].
  destruct Hv. lia.
Qed.

Lemma rt_rptr_inj i j : 0 <= i < N -> 0 <= j < N -> rptr i = rptr j -> i = j.
Proof. apply (ready_recovery_inj params blocks d Hl Hi). Qed.

Lemma rt_optr_range a : 0 <= a < dec_OriginalCount d -> 0 <= optr a.
Proof. intros Ha. apply (ready_original params blocks d Hl Hi a Ha). Qed.

Lemma rt_optr_rptr a i :
  0 <= a < dec_OriginalCount d -> 0 <= i < N -> optr a <> rptr i.
Proof.
  intros Ha Hr E.
  destruct (ready_original params blocks d Hl Hi a Ha) as [_ H1].
  destruct (ready_recovery params blocks d Hl Hi i Hr) as [_ H2].
  rewrite E in H1. lia.
Qed.

(** A recovery row holds the recovery shard of its index. *)
Lemma rt_recovery_row i :
  0 <= i < N ->
  OriginalCount params <= int_of (rec_x d blocks i)
    < OriginalCount params + RecoveryCount params /\
  Block (blk blocks (rptr i))
  = recovery_shard params out (int_of (rec_x d blocks i) - OriginalCount params).
Proof.
  intros Hr. destruct (ready_recovery params blocks d Hl Hi i Hr) as [H1 H2].
  destruct (Hdrawn (rptr i) H1) as [[H _]|H]; [unfold block_index in H2; lia|].
  exact H.
Qed.

Lemma rt_row_length i :
  0 <= i < N -> length (Block (blk blocks (rptr i))) = Z.to_nat (BlockBytes (Params d)).
Proof.
  intros Hr. destruct (rt_recovery_row i Hr) as [H ->].
  rewrite (ready_params params blocks d Hi). apply Hrl. lia.
Qed.

(** A supplied original holds the original of its index. *)
Lemma rt_original_row a p :
  0 <= a < dec_OriginalCount d ->
  Index (blk blocks (optr a)) = u8 (block_index blocks (optr a)) /\
  byte_at (Block (blk blocks (optr a))) p
  = orig_byte originals p (Z.to_nat (block_index blocks (optr a))).
Proof.
  intros Ha. destruct (ready_original params blocks d Hl Hi a Ha) as [H1 H2].
  split; [unfold block_index; now rewrite u8_int_of|].
  destruct (Hdrawn (optr a) H1) as [[H ->]|[H _]]; [|unfold block_index in H2; lia].
  unfold orig_byte, block_index. now rewrite Z2Nat.id by lia.
Qed.

Lemma rt_B : 0 <= BlockBytes (Params d).
Proof. rewrite (ready_params params blocks d Hi). destruct Hv as (_ & _ & H & _). lia. Qed.

Lemma rt_counts : 0 <= N /\ 0 <= dec_OriginalCount d /\ dec_OriginalCount d + N = k.
Proof. apply (ready_counts params blocks d Hv Hl Hi). Qed.

(** The recovery rows after the supplied originals are eliminated: the
    products of the Cauchy matrix and the erased originals. *)
Lemma rt_cancelled i p :
  0 <= i < N ->
  (p < Z.to_nat (BlockBytes (Params d)))%nat ->
  cancelled d blocks (Z.to_nat (dec_OriginalCount d)) i p
  = zsum (fun c =>
            gf256_mul (GetMatrixElement (rec_x d blocks i) (norm_x0 d) (era_y d c))
              (erased_byte c p)) 0 N.
Proof.
  intros Hr Hp. rewrite (ready_params params blocks d Hi) in Hp.
  pose proof Hv as (Hk1 & Hm & HB & Hsum).
  set (F := fun c : Z =>
    gf256_mul (GetMatrixElement (rec_x d blocks i) (u8 k) (u8 c))
      (orig_byte originals p (Z.to_nat c))).
  rewrite (zsum_ext _ (fun t => F (erasure params blocks t))).
  2:{ intros t Ht. unfold F, erased_byte.
      destruct (ready_erasure params blocks d Hl Hi t Ht) as [-> _].
      now rewrite (ready_x0 params blocks d Hi). }
  rewrite <- (sum_erased params blocks d Hl Hn Hi F).
  unfold cancelled. f_equal.
  - destruct (rt_recovery_row i Hr) as [Hx ->].
    rewrite Hrec by (assumption || lia).
    replace (k + (int_of (rec_x d blocks i) - k)) with (int_of (rec_x d blocks i)) by lia.
    unfold recovery_byte. apply gsum_ext. intros j Hj.
    unfold F, coef. now rewrite u8_int_of, Nat2Z.id.
  - apply gsum_ext. intros a Ha. unfold cancel_term, F.
    destruct (rt_original_row (Z.of_nat a) p ltac:(lia)) as [-> ->].
    now rewrite (ready_params params blocks d Hi).
Qed.

(** [Decode] leaves in the recovery rows the erased originals, under their
    indices, and changes nothing else. *)
Lemma Decode_spec :
  1 <= N ->
  rows_are d blocks (Decode uninit8 d blocks) (fun i => load (ErasuresIndices d) i)
    erased_byte.
Proof.
  intros HN. pose proof rt_counts as (_ & HOC & Hsum).
  pose proof Hv as (Hk1 & Hm & HB & Hkm).
  pose proof (decode_cancel_spec d blocks rt_rptr_range rt_rptr_inj rt_optr_range
                rt_optr_rptr rt_row_length rt_B ltac:(lia) HOC) as HA.
  rewrite Decode_unfold. cbv zeta.
  set (bl1 := decode_cancel d blocks) in *.
  fold (tri N).
  set (matrix := GenerateLDUDecomposition uninit8 d bl1 (decode_matrix uninit8 d)
                   (0 + tri N + N) (0 + tri N) 0).
  (* the indices of the recovery rows are as before *)
  assert (Ex : forall i, 0 <= i < N -> rec_x d bl1 i = rec_x d blocks i).
  { intros i Hr. destruct HA as (_ & _ & Hrows). apply (Hrows i Hr). }
  (* the factors *)
  pose proof (tri_nonneg N ltac:(lia)) as Ht0.
  pose proof (tri_le_square N ltac:(lia)) as Hsq.
  assert (Hlen : 0 + tri N + N + tri N <= Z.of_nat (length (decode_matrix uninit8 d))).
  { unfold decode_matrix. cbv zeta.
    destruct (Z.gtb_spec (N * N) StackAllocSize);
      rewrite length_uninit_bytes; unfold StackAllocSize in *; lia. }
  destruct (GenerateLDUDecomposition_spec uninit8 d bl1 (decode_matrix uninit8 d)
              (0 + tri N + N) (0 + tri N) 0 ltac:(lia) ltac:(lia) ltac:(lia)
              ltac:(lia) Hlen) as (_ & HDs & HLs & HUs).
  fold matrix in HDs, HLs, HUs.
  assert (Hxy : forall i j, (i < Z.to_nat N)%nat -> (j < Z.to_nat N)%nat ->
            gf256_add (rec_x d bl1 (Z.of_nat i)) (era_y d (Z.of_nat j)) <> x00).
  { intros i j Hi' Hj'. rewrite Ex by lia.
    now apply (ready_xy params blocks d Hv Hl Hi). }
  assert (Hxx : forall i j, (i < Z.to_nat N)%nat -> (j < Z.to_nat N)%nat -> i <> j ->
            gf256_add (rec_x d bl1 (Z.of_nat i)) (rec_x d bl1 (Z.of_nat j)) <> x00).
  { intros i j Hi' Hj' Hne. rewrite !Ex by lia.
    now apply (ready_xx params blocks d Hl Hn Hi). }
  pose proof (ready_yy params blocks d Hv Hl Hi) as Hyy.
  pose proof (ready_x0y params blocks d Hv Hl Hi) as Hx0.
  pose proof (factors_product d bl1 Hxy Hxx Hyy Hx0) as HG.
  pose proof (zD_neq0 d bl1 Hxy Hxx Hyy Hx0) as HDnz.
  (* forward substitution *)
  set (W := fun t p =>
    gf256_add (erased_byte t p)
      (zsum (fun c => gf256_mul (zU d bl1 t c) (erased_byte c p)) (t + 1) N)).
  set (Y := fun t p => gf256_mul (zD d bl1 t) (W t p)).
  pose proof (decode_lower_spec d blocks matrix (0 + tri N + N) (zL d bl1)
                rt_rptr_range rt_rptr_inj rt_B HN HLs bl1 _ _ Y HA) as HC.
  destruct (decode_lower d matrix (bl1, 0 + tri N + N)) as [bl2 mL2].
  cbn [fst] in HC.
  assert (HC' : rows_are d blocks bl2 (fun i => Index (blk blocks (rptr i))) Y).
  { apply HC. intros i p Hr Hp. rewrite rt_cancelled by assumption.
    rewrite (zsum_ext _
      (fun c => gf256_mul (GetMatrixElement (rec_x d bl1 i) (norm_x0 d) (era_y d c))
                  (erased_byte c p))) by (intros c Hc; now rewrite Ex).
    apply (solve_algebra (zL d bl1) (zU d bl1) (zD d bl1)
             (fun i c => GetMatrixElement (rec_x d bl1 i) (norm_x0 d) (era_y d c))
             (fun c => erased_byte c p) N HG i Hr). }
  clear HC.
  (* the diagonal *)
  pose proof (decode_diag_spec d blocks matrix (0 + tri N) (zD d bl1)
                rt_rptr_range rt_rptr_inj rt_B HN HDs bl2 _ _ HC') as HD.
  set (bl3 := decode_diag d matrix (0 + tri N) bl2) in *.
  (* back substitution *)
  pose proof (decode_upper_spec d blocks matrix 0 (zU d bl1)
                rt_rptr_range rt_rptr_inj rt_B HN HUs bl3 _ _ erased_byte HD) as HE.
  destruct (decode_upper d matrix (bl3, 0)) as [bl4 mU4]. cbn [fst] in HE.
  apply HE. intros i p Hr Hp. unfold Y.
  rewrite gf256_div_mul_cancel by (now apply HDnz). reflexivity.
Qed.

(** With one recovery block, which is the parity of the originals,
    [DecodeM1] does the same. *)
Lemma DecodeM1_recovers :
  RecoveryCount params = 1 -> N = 1 ->
  rows_are d blocks (DecodeM1 d blocks) (fun i => load (ErasuresIndices d) i)
    erased_byte.
Proof.
  intros Hm1 HN. pose proof rt_counts as (_ & HOC & Hsum).
  pose proof Hv as (Hk1 & Hm & HB & Hkm).
  eapply rows_are_ext.
  - apply (DecodeM1_spec d blocks rt_rptr_range rt_rptr_inj rt_optr_range
             rt_optr_rptr rt_row_length HN HOC).
  - reflexivity.
  - intros i p Hr Hp. rewrite (ready_params params blocks d Hi) in Hp.
    set (F := fun c : Z => orig_byte originals p (Z.to_nat c)).
    transitivity (zsum (fun t => F (erasure params blocks t)) 0 N).
    + rewrite <- (sum_erased params blocks d Hl Hn Hi F).
      unfold m1_sum. f_equal.
      * destruct (rt_recovery_row i Hr) as [Hx ->].
        rewrite Hrec by (assumption || lia).
        replace (k + (int_of (rec_x d blocks i) - k)) with k by lia.
        unfold recovery_byte. apply gsum_ext. intros j Hj.
        rewrite coef_first_row by assumption. unfold F. rewrite Nat2Z.id. ring.
      * apply gsum_ext. intros a Ha. unfold F.
        now destruct (rt_original_row (Z.of_nat a) p ltac:(lia)) as [_ ->].
    + rewrite HN. rewrite (zsum_first _ 0 1) by lia. rewrite zsum_nil by lia.
      assert (i = 0) by lia. subst i. unfold F, erased_byte. ring.
Qed.

(** With one recovery shard there is at most one recovery block. *)
Lemma one_recovery_row : RecoveryCount params = 1 -> N <= 1.
Proof.
  intros Hm1. destruct (Z.le_gt_cases N 1) as [H|H]; [assumption|exfalso].
  destruct (rt_recovery_row 0 ltac:(lia)) as [H0 _].
  destruct (rt_recovery_row 1 ltac:(lia)) as [H1 _].
  assert (E : rec_x d blocks 0 = rec_x d blocks 1) by (apply int_of_inj; lia).
  apply (rec_x_inj params blocks d Hl Hn Hi) in E; lia.
Qed.

(** Once the recovery rows hold the erased originals, every original is in
    a block with its index. *)
Lemma recovered_all bl' :
  rows_are d blocks bl' (fun i => load (ErasuresIndices d) i) erased_byte ->
  forall r, 0 <= r < OriginalCount params ->
    exists b, In b bl' /\ int_of (Index b) = r /\ Block b = Block (blk originals r).
Proof.
  intros (Hlen & Hf & Hr) r Hrr. pose proof Hv as (Hk1 & Hm & HB & Hkm).
  destruct (supplied_or_erased params blocks d Hl Hi r Hrr)
    as [(p & Hp & E)|(t & Ht & E)].
  - exists (blk bl' p). split; [unfold blk; apply nth_In; lia|].
    rewrite Hf; [|lia|].
    + split; [exact E|]. destruct (Hdrawn p Hp) as [[_ ->]|[H _]].
      * unfold block_index in E. now rewrite E.
      * unfold block_index in E. lia.
    + intros i Hi' Ep.
      destruct (ready_recovery params blocks d Hl Hi i Hi') as [_ H2].
      rewrite <- Ep in H2. lia.
  - pose proof (rt_rptr_range t Ht) as Hpt.
    exists (blk bl' (rptr t)). split; [unfold blk; apply nth_In; lia|].
    destruct (Hr t Ht) as (EI & EL & EB). split.
    + rewrite EI. fold (era_y d t).
      destruct (ready_erasure params blocks d Hl Hi t Ht) as [-> _].
      rewrite E. apply int_of_u8_small. lia.
    + destruct Hs as [_ Hsl]. rewrite (ready_params params blocks d Hi) in EL, EB.
      apply list_eq_byte_at; [now rewrite EL, Hsl|].
      intros q Hq. rewrite EB by lia. unfold erased_byte, orig_byte.
      rewrite E. now rewrite Z2Nat.id by lia.
Qed.

End RoundTrip.


(** * Encoding, then decoding *)

(** Three originals of two bytes and two recovery shards. *)
Definition rt_params : cm256_encoder_params :=
  {| OriginalCount := 3; RecoveryCount := 2; BlockBytes := 2 |}.

Definition rt_originals : list cm256_block :=
  [ {| Block := [x01; x02]; Index := x00 |};
    {| Block := [x10; x20]; Index := x01 |};
    {| Block := [xa5; x5a]; Index := x02 |} ].

(** The recovery shards that the encoder writes for them. *)
Definition rt_out : list byte :=
  match snd (cm256_encode rt_params (Some rt_originals) (Some (repeat x00 4))) with
  | Some o => o
  | None => []
  end.

(** The first original and both recovery shards, the second one first. *)
Definition rt_blocks : list cm256_block :=
  [ {| Block := recovery_shard rt_params rt_out 1; Index := x04 |};
    {| Block := [x01; x02]; Index := x00 |};
    {| Block := recovery_shard rt_params rt_out 0; Index := x03 |} ].

(** C1. For valid parameters and originals of [BlockBytes] bytes each,
    [cm256_encode] succeeds, and when [cm256_decode] is given any [k] blocks
    with pairwise distinct indices, each of them the original or the
    recovery shard of its index, it returns 0 and afterwards every original
    index [r < k] is the index of a block whose buffer is the r-th original,
    byte for byte. *)
Theorem encode_decode_round_trip :
  forall uninit8 uninitp params originals out,
    valid_params params ->
    shards_ok params originals ->
    length out = Z.to_nat (RecoveryCount params * BlockBytes params) ->
    exists out',
      cm256_encode params (Some originals) (Some out) = (0, Some out') /\
      forall blocks,
        length blocks = Z.to_nat (OriginalCount params) ->
        NoDup (map Index blocks) ->
        (forall b, In b blocks -> drawn_from params originals out' b) ->
        exists blocks',
          cm256_decode uninit8 uninitp params (Some blocks) = (0, Some blocks') /\
          forall r, 0 <= r < OriginalCount params ->
            exists b, In b blocks' /\ int_of (Index b) = r /\
                      Block b = Block (blk originals r).
Proof.
  intros uninit8 uninitp params originals out Hv Hs Hlo.
  pose proof Hv as (Hk & Hm & HB & Hkm).
  destruct (cm256_encode_spec params originals out Hv Hlo) as (out' & Henc & Hlen' & Hbytes).
  exists out'. split; [exact Henc|].
  intros blocks Hl Hn Hdr.
  assert (Hdrawn : forall p, 0 <= p < OriginalCount params ->
            drawn_from params originals out' (blk blocks p)).
  { intros p Hp. apply Hdr. unfold blk. apply nth_In. lia. }
  assert (Hrl : forall r, 0 <= r < RecoveryCount params ->
            length (recovery_shard params out' r) = Z.to_nat (BlockBytes params)).
  { intros r Hr. apply length_recovery_shard; try assumption. congruence. }
  unfold cm256_decode. cbv zeta.
  destruct (Z.leb_spec (OriginalCount params) 0); [lia|].
  destruct (Z.leb_spec (RecoveryCount params) 0); [lia|].
  destruct (Z.leb_spec (BlockBytes params) 0); [lia|]. cbn [orb].
  rewrite int_add_small by lia.
  destruct (Z.gtb_spec (OriginalCount params + RecoveryCount params) 256); [lia|].
  destruct (Z.eqb_spec (OriginalCount params) 1) as [Hk1|Hk1].
  - (* one original: every shard is a copy of it *)
    exists (set_Index blocks 0 x00). split; [reflexivity|].
    intros r Hr. assert (r = 0) by lia. subst r.
    exists (blk (set_Index blocks 0 x00) 0).
    split; [unfold blk; apply nth_In; rewrite length_set_Index; lia|].
    rewrite blk_set_Index_eq by lia. cbn [Index Block].
    split; [reflexivity|].
    destruct (Hdrawn 0 ltac:(lia)) as [[Hx ->]|[Hx ->]].
    + f_equal. f_equal. lia.
    + destruct Hs as [_ Hsl].
      apply list_eq_byte_at; [rewrite Hrl, Hsl by lia; reflexivity|].
      intros p Hp. rewrite Hrl in Hp by lia. rewrite Hbytes by (assumption || lia).
      reflexivity.
  - destruct (kmalloc_CM256Decoder_lengths uninit8 uninitp) as (L1 & L2 & L3).
    destruct (Initialize_distinct params blocks ltac:(lia)
                (kmalloc_CM256Decoder uninit8 uninitp) L1 L2 L3
                (NoDup_distinct_originals params blocks Hl Hn)) as (d & HI & Hini).
    rewrite HI. cbn [Z.eqb negb].
    pose proof (ready_counts params blocks d Hv Hl Hini) as (HN0 & HOC & Hsum).
    assert (Hall : forall bl',
              rows_are d blocks bl' (fun i => load (ErasuresIndices d) i)
                (erased_byte params originals blocks) ->
              forall r, 0 <= r < OriginalCount params ->
                exists b, In b bl' /\ int_of (Index b) = r /\
                          Block b = Block (blk originals r)).
    { intros bl' Hrows. eapply recovered_all; eassumption. }
    destruct (Z.leb_spec (dec_RecoveryCount d) 0) as [HN|HN].
    + exists blocks. split; [reflexivity|]. apply Hall.
      split; [reflexivity|]. split; [reflexivity|]. intros i Hi'. lia.
    + destruct (Z.eqb_spec (RecoveryCount params) 1) as [Hm1|Hm1].
      * exists (DecodeM1 d blocks). split; [reflexivity|]. apply Hall.
        assert (HN1 : dec_RecoveryCount d <= 1)
          by (eapply one_recovery_row; eassumption).
        eapply DecodeM1_recovers; try eassumption. lia.
      * exists (Decode uninit8 d blocks). split; [reflexivity|]. apply Hall.
        eapply Decode_spec; try eassumption. lia.
Qed.

Lemma encode_decode_round_trip_witness :
  exists blocks',
    cm256_decode (fun _ => x00) (fun _ => 0) rt_params (Some rt_blocks)
    = (0, Some blocks') /\
    forall r, 0 <= r < OriginalCount rt_params ->
      exists b, In b blocks' /\ int_of (Index b) = r /\
                Block b = Block (blk rt_originals r).
Proof.
  assert (Hnd : NoDup (map Index rt_blocks)).
  { unfold rt_blocks. cbn [map Index].
    repeat constructor; cbn [In]; intuition discriminate. }
  assert (Hdr : forall b, In b rt_blocks -> drawn_from rt_params rt_originals rt_out b).
  { intros b [<- | [<- | [<- | []]]].
    - right. split; [vm_compute; split; [discriminate|reflexivity]|].
      vm_compute; reflexivity.
    - left. split; [vm_compute; split; [discriminate|reflexivity]|reflexivity].
    - right. split; [vm_compute; split; [discriminate|reflexivity]|].
      vm_compute; reflexivity. }
  assert (E : cm256_encode rt_params (Some rt_originals) (Some (repeat x00 4))
              = (0, Some rt_out)) by (vm_compute; reflexivity).
  destruct (encode_decode_round_trip (fun _ => x00) (fun _ => 0) rt_params rt_originals
              (repeat x00 4)) as (out' & Henc & Hdec).
  - unfold valid_params; simpl; lia.
  - split; [reflexivity|]. intros j Hj.
    assert (j = 0 \/ j = 1 \/ j = 2) as [-> | [-> | ->]] by (simpl in Hj; lia);
      reflexivity.
  - reflexivity.
  - rewrite E in Henc. injection Henc as <-.
    apply Hdec; [reflexivity | exact Hnd | exact Hdr].
Defined.


(** * Where the decoder leaves the originals *)

(** The blocks [blocks'] after decoding [blocks]: a supplied original is as
    it was, and the t-th recovery block (in the order of the supply) holds
    the t-th erased original (in ascending order) under its index. *)
Definition decoded_layout (params : cm256_encoder_params)
    (originals blocks blocks' : list cm256_block) : Prop :=
  length blocks' = length blocks /\
  (forall p, 0 <= p < OriginalCount params ->
     block_index blocks p < OriginalCount params -> blk blocks' p = blk blocks p) /\
  (forall t, (t < length (recoveries_of params blocks (OriginalCount params)))%nat ->
     blk blocks' (nth t (recoveries_of params blocks (OriginalCount params)) (-1))
     = {| Block := Block (blk originals (nth t (erasures_of params blocks) 0));
          Index := u8 (nth t (erasures_of params blocks) 0) |}).

Lemma block_eta (b : cm256_block) : {| Block := Block b; Index := Index b |} = b.
Proof. now destruct b. Qed.

Section Layout.

Variable params : cm256_encoder_params.
Variable originals : list cm256_block.
Variable out : list byte.
Variable blocks : list cm256_block.

Hypothesis Hv : valid_params params.
Hypothesis Hs : shards_ok params originals.
Hypothesis Hl : length blocks = Z.to_nat (OriginalCount params).
Hypothesis Hn : NoDup (map Index blocks).
Hypothesis Hdrawn : forall p,
  0 <= p < OriginalCount params -> drawn_from params originals out (blk blocks p).

(** The layout of the rows that [Decode] and [DecodeM1] leave. *)
Lemma rows_layout d bl' :
  initialized params blocks d ->
  rows_are d blocks bl' (fun i => load (ErasuresIndices d) i)
    (erased_byte params originals blocks) ->
  decoded_layout params originals blocks bl'.
Proof.
  intros Hi (Hlen & Hf & Hr). pose proof Hv as (Hk1 & Hm & HB & Hkm).
  pose proof Hi as (HP & _ & HRC & _).
  split; [assumption|]. split.
  - intros p Hp Ho. apply Hf; [lia|]. intros i Hi' E.
    destruct (ready_recovery params blocks d Hl Hi i Hi') as [_ H2].
    rewrite <- E in H2. lia.
  - intros t Ht.
    assert (Ht' : 0 <= Z.of_nat t < dec_RecoveryCount d) by lia.
    pose proof (ready_recovery_nth params blocks d Hl Hi (Z.of_nat t) Ht') as Ep.
    rewrite Nat2Z.id in Ep. rewrite <- Ep.
    destruct (Hr (Z.of_nat t) Ht') as (EI & EL & EB).
    assert (Ee : erasure params blocks (Z.of_nat t) = nth t (erasures_of params blocks) 0)
      by (unfold erasure; now rewrite Nat2Z.id).
    pose proof (erasure_range params blocks d Hl Hi (Z.of_nat t) Ht') as Her.
    rewrite <- Ee. rewrite <- (block_eta (blk bl' _)). f_equal.
    + destruct Hs as [_ Hsl]. rewrite HP in EL, EB.
      apply list_eq_byte_at; [now rewrite EL, Hsl|].
      intros q Hq. rewrite EB by lia. unfold erased_byte, orig_byte.
      now rewrite Z2Nat.id by lia.
    + rewrite EI. fold (era_y d (Z.of_nat t)).
      now destruct (ready_erasure params blocks d Hl Hi (Z.of_nat t) Ht') as [-> _].
Qed.

(** With that layout, every original is in a block with its index. *)
Lemma layout_recovers bl' :
  decoded_layout params originals blocks bl' ->
  forall r, 0 <= r < OriginalCount params ->
    exists b, In b bl' /\ int_of (Index b) = r /\ Block b = Block (blk originals r).
Proof.
  intros (Hlen & Ho & Hrec) r Hr. pose proof Hv as (Hk1 & Hm & HB & Hkm).
  destruct (present blocks (OriginalCount params) r) eqn:E.
  - apply present_true in E. destruct E as (p & Hp & E).
    exists (blk bl' p). split; [unfold blk; apply nth_In; lia|].
    rewrite Ho by lia. split; [exact E|].
    destruct (Hdrawn p Hp) as [[_ ->]|[H _]]; unfold block_index in E; [|lia].
    now rewrite E.
  - assert (Hin : In r (erasures_of params blocks)).
    { apply filter_In. split; [now apply in_zrange|]. now rewrite E. }
    destruct (In_nth _ _ 0 Hin) as (t & Ht & Et).
    rewrite (length_erasures_of params blocks ltac:(lia)
               (NoDup_distinct_originals params blocks Hl Hn)) in Ht.
    pose proof (nth_In _ (-1) Ht) as Hp. apply in_recoveries_of in Hp.
    exists (blk bl' (nth t (recoveries_of params blocks (OriginalCount params)) (-1))).
    split; [unfold blk; apply nth_In; lia|].
    rewrite (Hrec t Ht), Et. cbn [Index Block].
    split; [apply int_of_u8_small; lia|reflexivity].
Qed.

End Layout.

(** A list of [k] blocks that has every index below [k] has each once, and
    no other. *)
Lemma all_indices_once params (bl : list cm256_block) :
  valid_params params ->
  length bl = Z.to_nat (OriginalCount params) ->
  (forall r, 0 <= r < OriginalCount params -> exists b, In b bl /\ int_of (Index b) = r) ->
  NoDup (map Index bl) /\
  forall b, In b bl -> 0 <= int_of (Index b) < OriginalCount params.
Proof.
  intros (Hk & Hm & HB & Hkm) Hl Hall.
  set (l := map u8 (zrange (OriginalCount params))).
  assert (Hnd : NoDup l).
  { apply NoDup_map_inj_in; [|apply NoDup_zrange].
    intros a b Ha Hb. apply in_zrange in Ha, Hb. apply u8_inj; lia. }
  assert (Hlen : (length (map Index bl) <= length l)%nat).
  { unfold l. rewrite !length_map, length_zrange. lia. }
  assert (Hincl : incl l (map Index bl)).
  { intros x Hx. apply in_map_iff in Hx. destruct Hx as (r & <- & Hr).
    apply in_zrange in Hr. destruct (Hall r Hr) as (b & Hb & E).
    apply in_map_iff. exists b. split; [|assumption].
    now rewrite <- E, u8_int_of. }
  split; [exact (@NoDup_incl_NoDup _ l _ Hnd Hlen Hincl)|].
  intros b Hb.
  assert (Hx : In (Index b) l).
  { apply (@NoDup_length_incl _ l _ Hnd Hlen Hincl). now apply in_map. }
  apply in_map_iff in Hx. destruct Hx as (r & E & Hr). apply in_zrange in Hr.
  rewrite <- E. rewrite int_of_u8_small; lia.
Qed.

Lemma NoDup_map_In_inj {A B} (f : A -> B) (l : list A) a b :
  NoDup (map f l) -> In a l -> In b l -> f a = f b -> a = b.
Proof.
  induction l as [|x l IH]; intros Hn Ha Hb E; [contradiction|].
  simpl in Hn. inversion Hn as [|? ? Hx Hn']; subst.
  destruct Ha as [->|Ha], Hb as [->|Hb]; try reflexivity.
  - exfalso. apply Hx. rewrite E. now apply in_map.
  - exfalso. apply Hx. rewrite <- E. now apply in_map.
  - now apply IH.
Qed.

(** * [cm256_decode] on blocks drawn from an encoding *)

Lemma cm256_decode_layout uninit8 uninitp params originals out' blocks :
  valid_params params ->
  shards_ok params originals ->
  (forall r, 0 <= r < RecoveryCount params ->
     length (recovery_shard params out' r) = Z.to_nat (BlockBytes params)) ->
  (forall r p, 0 <= r < RecoveryCount params ->
     (p < Z.to_nat (BlockBytes params))%nat ->
     byte_at (recovery_shard params out' r) p
     = if OriginalCount params =? 1 then orig_byte originals p 0
       else recovery_byte params originals (OriginalCount params + r) p) ->
  length blocks = Z.to_nat (OriginalCount params) ->
  NoDup (map Index blocks) ->
  (forall b, In b blocks -> drawn_from params originals out' b) ->
  exists blocks',
    cm256_decode uninit8 uninitp params (Some blocks) = (0, Some blocks') /\
    decoded_layout params originals blocks blocks'.
Proof.
  intros Hv Hs Hrl Hbytes Hl Hn Hdr.
  pose proof Hv as (Hk & Hm & HB & Hkm).
  assert (Hdrawn : forall p, 0 <= p < OriginalCount params ->
            drawn_from params originals out' (blk blocks p)).
  { intros p Hp. apply Hdr. unfold blk. apply nth_In. lia. }
  unfold cm256_decode. cbv zeta.
  destruct (Z.leb_spec (OriginalCount params) 0); [lia|].
  destruct (Z.leb_spec (RecoveryCount params) 0); [lia|].
  destruct (Z.leb_spec (BlockBytes params) 0); [lia|]. cbn [orb].
  rewrite int_add_small by lia.
  destruct (Z.gtb_spec (OriginalCount params + RecoveryCount params) 256); [lia|].
  destruct (Z.eqb_spec (OriginalCount params) 1) as [Hk1|Hk1].
  - (* one original: every shard is a copy of it *)
    exists (set_Index blocks 0 x00). split; [reflexivity|].
    pose proof (block_index_range blocks 0) as Hb0.
    unfold decoded_layout, recoveries_of, erasures_of, present, is_original.
    rewrite Hk1. change (zrange 1) with [0]. cbn [filter existsb].
    split; [apply length_set_Index|]. split.
    + intros p Hp Ho. assert (p = 0) by lia. subst p.
      rewrite blk_set_Index_eq by lia.
      assert (E : Index (blk blocks 0) = x00)
        by (apply int_of_inj; unfold block_index in *; change (int_of x00) with 0; lia).
      rewrite <- E. apply block_eta.
    + intros t Ht.
      destruct (Z.ltb_spec (block_index blocks 0) 1) as [Ho|Ho]; cbn [negb length] in Ht;
        [lia|].
      assert (t = 0%nat) by (cbn [length] in Ht; lia). subst t.
      destruct (Z.eqb_spec (block_index blocks 0) 0) as [E0|E0]; [lia|].
      cbn [orb negb nth]. rewrite blk_set_Index_eq by lia. f_equal.
      destruct (Hdrawn 0 ltac:(lia)) as [[Hx _]|[Hx ->]];
        [unfold block_index in Ho; lia|].
      destruct Hs as [_ Hsl].
      apply list_eq_byte_at; [rewrite Hrl, Hsl by lia; reflexivity|].
      intros p Hp. rewrite Hrl in Hp by lia. rewrite Hbytes by (assumption || lia).
      reflexivity.
  - assert (Hrec : forall r p,
              0 <= r < RecoveryCount params -> (p < Z.to_nat (BlockBytes params))%nat ->
              byte_at (recovery_shard params out' r) p
              = recovery_byte params originals (OriginalCount params + r) p)
      by exact Hbytes.
    destruct (kmalloc_CM256Decoder_lengths uninit8 uninitp) as (L1 & L2 & L3).
    destruct (Initialize_distinct params blocks ltac:(lia)
                (kmalloc_CM256Decoder uninit8 uninitp) L1 L2 L3
                (NoDup_distinct_originals params blocks Hl Hn)) as (d & HI & Hini).
    rewrite HI. cbn [Z.eqb negb].
    pose proof (ready_counts params blocks d Hv Hl Hini) as (HN0 & HOC & Hsum).
    assert (Hall : forall bl',
              rows_are d blocks bl' (fun i => load (ErasuresIndices d) i)
                (erased_byte params originals blocks) ->
              decoded_layout params originals blocks bl').
    { intros bl' Hrows. eapply rows_layout; eassumption. }
    destruct (Z.leb_spec (dec_RecoveryCount d) 0) as [HN|HN].
    + exists blocks. split; [reflexivity|]. apply Hall.
      split; [reflexivity|]. split; [reflexivity|]. intros i Hi'. lia.
    + destruct (Z.eqb_spec (RecoveryCount params) 1) as [Hm1|Hm1].
      * exists (DecodeM1 d blocks). split; [reflexivity|]. apply Hall.
        assert (HN1 : dec_RecoveryCount d <= 1)
          by (eapply one_recovery_row; eassumption).
        eapply DecodeM1_recovers; try eassumption. lia.
      * exists (Decode uninit8 d blocks). split; [reflexivity|]. apply Hall.
        eapply Decode_spec; try eassumption. lia.
Qed.


(** * What a caller of the encoder and the decoder can rely on *)

(** The recovery shards in the output of a successful [cm256_encode]. *)
Lemma encode_facts params originals out out' :
  valid_params params ->
  length out = Z.to_nat (RecoveryCount params * BlockBytes params) ->
  cm256_encode params (Some originals) (Some out) = (0, Some out') ->
  length out' = length out /\
  (forall r, 0 <= r < RecoveryCount params ->
     length (recovery_shard params out' r) = Z.to_nat (BlockBytes params)) /\
  (forall r p, 0 <= r < RecoveryCount params ->
     (p < Z.to_nat (BlockBytes params))%nat ->
     byte_at (recovery_shard params out' r) p
     = if OriginalCount params =? 1 then orig_byte originals p 0
       else recovery_byte params originals (OriginalCount params + r) p).
Proof.
  intros Hv Hlo Henc.
  destruct (cm256_encode_spec params originals out Hv Hlo) as (o & E & Hlen & Hbytes).
  rewrite Henc in E. injection E as <-.
  split; [assumption|]. split; [|assumption].
  intros r Hr. apply length_recovery_shard; try assumption. congruence.
Qed.

Lemma upd_nth_same {A} (l : list A) : forall n d, upd n (nth n l d) l = l.
Proof.
  induction l as [|a l IH]; intros [|n] d; simpl; try reflexivity.
  now rewrite IH.
Qed.

Lemma set_Index_same bl p : set_Index bl p (Index (blk bl p)) = bl.
Proof. unfold set_Index. rewrite block_eta. apply upd_nth_same. Qed.

Lemma cm256_decode_one_original uninit8 uninitp params blocks :
  valid_params params -> OriginalCount params = 1 ->
  cm256_decode uninit8 uninitp params (Some blocks)
  = (0, Some (set_Index blocks 0 x00)).
Proof.
  intros (Hk & Hm & HB & Hkm) Hk1. unfold cm256_decode. cbv zeta.
  destruct (Z.leb_spec (OriginalCount params) 0); [lia|].
  destruct (Z.leb_spec (RecoveryCount params) 0); [lia|].
  destruct (Z.leb_spec (BlockBytes params) 0); [lia|]. cbn [orb].
  rewrite int_add_small by lia.
  destruct (Z.gtb_spec (OriginalCount params + RecoveryCount params) 256); [lia|].
  destruct (Z.eqb_spec (OriginalCount params) 1); [reflexivity|contradiction].
Qed.

(** The first original and the first recovery shard of [rt_originals], under
    indices that differ from those of [rt_originals]. *)
Definition rt_originals' : list cm256_block :=
  [ {| Block := [x01; x02]; Index := x07 |};
    {| Block := [x10; x20]; Index := x07 |};
    {| Block := [xa5; x5a]; Index := x07 |} ].

Lemma rt_valid : valid_params rt_params.
Proof. unfold valid_params; simpl; lia. Qed.

Lemma rt_shards_ok : shards_ok rt_params rt_originals.
Proof.
  split; [reflexivity|]. intros j Hj.
  assert (j = 0 \/ j = 1 \/ j = 2) as [-> | [-> | ->]] by (simpl in Hj; lia);
    reflexivity.
Qed.

Lemma rt_shards_ok' : shards_ok rt_params rt_originals'.
Proof.
  split; [reflexivity|]. intros j Hj.
  assert (j = 0 \/ j = 1 \/ j = 2) as [-> | [-> | ->]] by (simpl in Hj; lia);
    reflexivity.
Qed.

Lemma rt_encode :
  cm256_encode rt_params (Some rt_originals) (Some (repeat x00 4)) = (0, Some rt_out).
Proof. vm_compute. reflexivity. Qed.

Lemma rt_encode' :
  cm256_encode rt_params (Some rt_originals') (Some (repeat xff 4)) = (0, Some rt_out).
Proof. vm_compute. reflexivity. Qed.

Lemma rt_nodup : NoDup (map Index rt_blocks).
Proof.
  unfold rt_blocks. cbn [map Index].
  repeat constructor; cbn [In]; intuition discriminate.
Qed.

Lemma rt_drawn : forall b, In b rt_blocks -> drawn_from rt_params rt_originals rt_out b.
Proof.
  intros b [<- | [<- | [<- | []]]].
  - right. split; [vm_compute; split; [discriminate|reflexivity]|].
    vm_compute; reflexivity.
  - left. split; [vm_compute; split; [discriminate|reflexivity]|reflexivity].
  - right. split; [vm_compute; split; [discriminate|reflexivity]|].
    vm_compute; reflexivity.
Qed.

Lemma rt_drawn' : forall b, In b rt_blocks -> drawn_from rt_params rt_originals' rt_out b.
Proof.
  intros b [<- | [<- | [<- | []]]].
  - right. split; [vm_compute; split; [discriminate|reflexivity]|].
    vm_compute; reflexivity.
  - left. split; [vm_compute; split; [discriminate|reflexivity]|reflexivity].
  - right. split; [vm_compute; split; [discriminate|reflexivity]|].
    vm_compute; reflexivity.
Qed.

(** X6. When [cm256_decode] is given [k] blocks with pairwise distinct
    indices, each the original or the recovery shard of its index, it
    returns 0, keeps the number of descriptors, leaves every supplied
    original (descriptor and buffer) as it was, and turns the t-th supplied
    recovery block, in the order of the supply, into the t-th missing
    original, in ascending order of the index: the buffer holds that
    original and [Index] is its index. *)
Theorem decode_placement :
  forall uninit8 uninitp params originals out out' blocks,
    valid_params params ->
    shards_ok params originals ->
    length out = Z.to_nat (RecoveryCount params * BlockBytes params) ->
    cm256_encode params (Some originals) (Some out) = (0, Some out') ->
    length blocks = Z.to_nat (OriginalCount params) ->
    NoDup (map Index blocks) ->
    (forall b, In b blocks -> drawn_from params originals out' b) ->
    let k := OriginalCount params in
    let recoveries :=
      filter (fun p => negb (int_of (Index (blk blocks p)) <? k)) (zrange k) in
    let erased :=
      filter (fun r => negb (existsb (fun p => int_of (Index (blk blocks p)) =? r)
                               (zrange k)))
        (zrange k) in
    exists blocks',
      cm256_decode uninit8 uninitp params (Some blocks) = (0, Some blocks') /\
      length blocks' = length blocks /\
      length erased = length recoveries /\
      (forall p, 0 <= p < k -> int_of (Index (blk blocks p)) < k ->
         blk blocks' p = blk blocks p) /\
      (forall t, (t < length recoveries)%nat ->
         blk blocks' (nth t recoveries (-1))
         = {| Block := Block (blk originals (nth t erased 0));
              Index := u8 (nth t erased 0) |}).
Proof.
  intros uninit8 uninitp params originals out out' blocks Hv Hs Hlo Henc Hl Hn Hdr
    k recoveries erased.
  destruct (encode_facts params originals out out' Hv Hlo Henc) as (_ & Hrl & Hbytes).
  destruct (cm256_decode_layout uninit8 uninitp params originals out' blocks
              Hv Hs Hrl Hbytes Hl Hn Hdr) as (blocks' & Hdec & Hlen & Ho & Hr).
  exists blocks'. split; [exact Hdec|]. split; [exact Hlen|].
  destruct Hv as (Hk & Hm & _ & Hkm). split.
  - apply (length_erasures_of params blocks ltac:(lia)
             (NoDup_distinct_originals params blocks Hl Hn)).
  - split; [exact Ho|exact Hr].
Qed.

Lemma decode_placement_witness :
  let k := OriginalCount rt_params in
  let recoveries :=
    filter (fun p => negb (int_of (Index (blk rt_blocks p)) <? k)) (zrange k) in
  let erased :=
    filter (fun r => negb (existsb (fun p => int_of (Index (blk rt_blocks p)) =? r)
                             (zrange k)))
      (zrange k) in
  exists blocks',
    cm256_decode (fun _ => x00) (fun _ => 0) rt_params (Some rt_blocks)
    = (0, Some blocks') /\
    length blocks' = length rt_blocks /\
    length erased = length recoveries /\
    (forall p, 0 <= p < k -> int_of (Index (blk rt_blocks p)) < k ->
       blk blocks' p = blk rt_blocks p) /\
    (forall t, (t < length recoveries)%nat ->
       blk blocks' (nth t recoveries (-1))
       = {| Block := Block (blk rt_originals (nth t erased 0));
            Index := u8 (nth t erased 0) |}).
Proof.
  exact (decode_placement (fun _ => x00) (fun _ => 0) rt_params rt_originals
           (repeat x00 4) rt_out rt_blocks rt_valid rt_shards_ok eq_refl rt_encode
           eq_refl rt_nodup rt_drawn).
Defined.

(** X7. Decoding is idempotent: the blocks that [cm256_decode] returns for
    [k] distinct blocks of an encoding are accepted by [cm256_decode] again,
    with return code 0, and come back unchanged. *)
Theorem decode_idempotent :
  forall uninit8 uninitp params originals out out' blocks,
    valid_params params ->
    shards_ok params originals ->
    length out = Z.to_nat (RecoveryCount params * BlockBytes params) ->
    cm256_encode params (Some originals) (Some out) = (0, Some out') ->
    length blocks = Z.to_nat (OriginalCount params) ->
    NoDup (map Index blocks) ->
    (forall b, In b blocks -> drawn_from params originals out' b) ->
    exists blocks',
      cm256_decode uninit8 uninitp params (Some blocks) = (0, Some blocks') /\
      cm256_decode uninit8 uninitp params (Some blocks') = (0, Some blocks').
Proof.
  intros uninit8 uninitp params originals out out' blocks Hv Hs Hlo Henc Hl Hn Hdr.
  destruct (encode_facts params originals out out' Hv Hlo Henc) as (_ & Hrl & Hbytes).
  destruct (cm256_decode_layout uninit8 uninitp params originals out' blocks
              Hv Hs Hrl Hbytes Hl Hn Hdr) as (blocks' & Hdec & Hlay).
  exists blocks'. split; [exact Hdec|].
  assert (Hdrawn : forall p, 0 <= p < OriginalCount params ->
            drawn_from params originals out' (blk blocks p)).
  { intros p Hp. apply Hdr. unfold blk. apply nth_In. lia. }
  pose proof (layout_recovers params originals out' blocks Hv Hl Hn Hdrawn blocks' Hlay)
    as Hall.
  pose proof Hlay as (Hlen & _ & _).
  destruct (all_indices_once params blocks' Hv ltac:(congruence)) as [Hn' Hi'].
  { intros r Hr. destruct (Hall r Hr) as (b & Hb & E & _). now exists b. }
  destruct (Z.eq_dec (OriginalCount params) 1) as [Hk1|Hk1].
  - rewrite cm256_decode_one_original by assumption. do 2 f_equal.
    assert (E : Index (blk blocks' 0) = x00).
    { apply int_of_inj. change (int_of x00) with 0.
      assert (In (blk blocks' 0) blocks') by (unfold blk; apply nth_In; lia).
      specialize (Hi' _ H). lia. }
    rewrite <- E. apply set_Index_same.
  - pose proof Hv as (Hk & _).
    apply cm256_decode_all_originals; try assumption; [lia|congruence|].
    intros b Hb. now apply Hi'.
Qed.

Lemma decode_idempotent_witness :
  exists blocks',
    cm256_decode (fun _ => x00) (fun _ => 0) rt_params (Some rt_blocks)
    = (0, Some blocks') /\
    cm256_decode (fun _ => x00) (fun _ => 0) rt_params (Some blocks')
    = (0, Some blocks').
Proof.
  exact (decode_idempotent (fun _ => x00) (fun _ => 0) rt_params rt_originals
           (repeat x00 4) rt_out rt_blocks rt_valid rt_shards_ok eq_refl rt_encode
           eq_refl rt_nodup rt_drawn).
Defined.

(** X8. Any [k] shards determine the originals: when the same [k] blocks
    with pairwise distinct indices are drawn from the encoding of the
    originals [A] and from the encoding of the originals [A'], every shard
    of [A] is the shard of [A'] with the same number. *)
Theorem shards_determine_originals :
  forall params A A' outA outA' encA encA' blocks,
    valid_params params ->
    shards_ok params A -> shards_ok params A' ->
    length outA = Z.to_nat (RecoveryCount params * BlockBytes params) ->
    length outA' = Z.to_nat (RecoveryCount params * BlockBytes params) ->
    cm256_encode params (Some A) (Some outA) = (0, Some encA) ->
    cm256_encode params (Some A') (Some outA') = (0, Some encA') ->
    length blocks = Z.to_nat (OriginalCount params) ->
    NoDup (map Index blocks) ->
    (forall b, In b blocks -> drawn_from params A encA b) ->
    (forall b, In b blocks -> drawn_from params A' encA' b) ->
    forall r, 0 <= r < OriginalCount params -> Block (blk A r) = Block (blk A' r).
Proof.
  intros params A A' outA outA' encA encA' blocks Hv Hs Hs' Hlo Hlo' Henc Henc'
    Hl Hn Hdr Hdr' r Hr.
  destruct (encode_facts params A outA encA Hv Hlo Henc) as (_ & Hrl & Hbytes).
  destruct (encode_facts params A' outA' encA' Hv Hlo' Henc') as (_ & Hrl' & Hbytes').
  destruct (cm256_decode_layout (fun _ => x00) (fun _ => 0) params A encA blocks
              Hv Hs Hrl Hbytes Hl Hn Hdr) as (bl & Hdec & Hlay).
  destruct (cm256_decode_layout (fun _ => x00) (fun _ => 0) params A' encA' blocks
              Hv Hs' Hrl' Hbytes' Hl Hn Hdr') as (bl' & Hdec' & Hlay').
  rewrite Hdec in Hdec'. injection Hdec' as <-.
  assert (Hdrawn : forall p, 0 <= p < OriginalCount params ->
            drawn_from params A encA (blk blocks p)).
  { intros p Hp. apply Hdr. unfold blk. apply nth_In. lia. }
  assert (Hdrawn' : forall p, 0 <= p < OriginalCount params ->
            drawn_from params A' encA' (blk blocks p)).
  { intros p Hp. apply Hdr'. unfold blk. apply nth_In. lia. }
  pose proof (layout_recovers params A encA blocks Hv Hl Hn Hdrawn bl Hlay) as Hall.
  pose proof (layout_recovers params A' encA' blocks Hv Hl Hn Hdrawn' bl Hlay') as Hall'.
  pose proof Hlay as (Hlen & _ & _).
  destruct (all_indices_once params bl Hv ltac:(congruence)) as [Hn' _].
  { intros r' Hr'. destruct (Hall r' Hr') as (b & Hb & E & _). now exists b. }
  destruct (Hall r Hr) as (b & Hb & E & EB).
  destruct (Hall' r Hr) as (b' & Hb' & E' & EB').
  assert (b = b').
  { apply (NoDup_map_In_inj Index bl); try assumption.
    apply int_of_inj. congruence. }
  subst b'. congruence.
Qed.

Lemma shards_determine_originals_witness :
  valid_params rt_params /\
  forall r, 0 <= r < OriginalCount rt_params ->
    Block (blk rt_originals r) = Block (blk rt_originals' r).
Proof.
  split; [exact rt_valid|].
  exact (shards_determine_originals rt_params rt_originals rt_originals'
           (repeat x00 4) (repeat xff 4) rt_out rt_out rt_blocks rt_valid rt_shards_ok
           rt_shards_ok' eq_refl eq_refl rt_encode rt_encode' eq_refl rt_nodup
           rt_drawn rt_drawn').
Defined.

(** X13. [cm256_decode] checks the supplied indices for one thing only: with
    valid parameters and at least two originals it returns 0 whenever no two
    of the [k] blocks share an original index, whatever the recovery
    indices are (repeated or beyond [k + m]). *)
Theorem decode_accepts_distinct_originals :
  forall uninit8 uninitp params blocks,
    valid_params params -> 2 <= OriginalCount params ->
    length blocks = Z.to_nat (OriginalCount params) ->
    (forall p q, 0 <= p < q -> q < OriginalCount params ->
       int_of (Index (blk blocks p)) < OriginalCount params ->
       Index (blk blocks p) <> Index (blk blocks q)) ->
    fst (cm256_decode uninit8 uninitp params (Some blocks)) = 0.
Proof.
  intros uninit8 uninitp params blocks Hv Hk2 Hl Hd.
  pose proof Hv as (Hk & Hm & HB & Hkm).
  unfold cm256_decode. cbv zeta.
  destruct (Z.leb_spec (OriginalCount params) 0); [lia|].
  destruct (Z.leb_spec (RecoveryCount params) 0); [lia|].
  destruct (Z.leb_spec (BlockBytes params) 0); [lia|]. cbn [orb].
  rewrite int_add_small by lia.
  destruct (Z.gtb_spec (OriginalCount params + RecoveryCount params) 256); [lia|].
  destruct (Z.eqb_spec (OriginalCount params) 1); [lia|].
  destruct (kmalloc_CM256Decoder_lengths uninit8 uninitp) as (L1 & L2 & L3).
  destruct (Initialize_distinct params blocks ltac:(lia)
              (kmalloc_CM256Decoder uninit8 uninitp) L1 L2 L3) as (d & HI & _).
  { intros p q Hpq Hq Ho E. apply (Hd p q Hpq Hq).
    - unfold is_original, block_index in Ho. lia.
    - apply int_of_inj. exact E. }
  rewrite HI. cbn [Z.eqb negb].
  destruct (dec_RecoveryCount d <=? 0); [reflexivity|].
  destruct (RecoveryCount params =? 1); reflexivity.
Qed.

(** One original and twice the same recovery index. *)
Definition repeated_recovery : list cm256_block :=
  [ {| Block := repeat x11 64; Index := x01 |};
    {| Block := repeat x22 64; Index := x03 |};
    {| Block := repeat x33 64; Index := x03 |} ].

Lemma decode_accepts_distinct_originals_witness :
  fst (cm256_decode (fun _ => x00) (fun _ => 0) S5_params (Some repeated_recovery)) = 0.
Proof.
  apply (decode_accepts_distinct_originals (fun _ => x00) (fun _ => 0) S5_params
           repeated_recovery).
  - unfold valid_params; simpl; lia.
  - simpl; lia.
  - reflexivity.
  - intros p q Hpq Hq Ho.
    assert (Hc : (p = 0 /\ q = 1) \/ (p = 0 /\ q = 2) \/ (p = 1 /\ q = 2))
      by (simpl in Hq; lia).
    destruct Hc as [[-> ->]|[[-> ->]|[-> ->]]].
    + discriminate.
    + discriminate.
    + exfalso. revert Ho. vm_compute. discriminate.
Defined.


(** * What a caller of the encoder can rely on *)

(** A byte of the output region is a byte of one of the recovery shards. *)
Lemma recovery_shard_byte params (out : list byte) q :
  1 <= BlockBytes params ->
  byte_at out q
  = byte_at (recovery_shard params out (Z.of_nat q / BlockBytes params))
      (Z.to_nat (Z.of_nat q mod BlockBytes params)).
Proof.
  intros HB. unfold recovery_shard.
  pose proof (Z.mod_pos_bound (Z.of_nat q) (BlockBytes params) ltac:(lia)) as Hm.
  pose proof (Z.div_pos (Z.of_nat q) (BlockBytes params) ltac:(lia) ltac:(lia)) as Hd.
  pose proof (Z.div_mod (Z.of_nat q) (BlockBytes params) ltac:(lia)) as E.
  rewrite byte_at_firstn by lia. rewrite byte_at_skipn. f_equal. nia.
Qed.

(** X11. [cm256_encode] overwrites the whole recovery region: its result
    does not depend on what the region held before the call. *)
Theorem encode_overwrites_output :
  forall params originals out1 out2 enc1 enc2,
    valid_params params ->
    length out1 = Z.to_nat (RecoveryCount params * BlockBytes params) ->
    length out2 = Z.to_nat (RecoveryCount params * BlockBytes params) ->
    cm256_encode params (Some originals) (Some out1) = (0, Some enc1) ->
    cm256_encode params (Some originals) (Some out2) = (0, Some enc2) ->
    enc1 = enc2.
Proof.
  intros params originals out1 out2 enc1 enc2 Hv Hl1 Hl2 He1 He2.
  destruct (encode_facts params originals out1 enc1 Hv Hl1 He1) as (Hlen1 & _ & Hb1).
  destruct (encode_facts params originals out2 enc2 Hv Hl2 He2) as (Hlen2 & _ & Hb2).
  destruct Hv as (Hk & Hm & HB & Hkm).
  apply list_eq_byte_at; [congruence|].
  intros q Hq. rewrite Hlen1, Hl1 in Hq.
  rewrite (recovery_shard_byte params enc1 q HB), (recovery_shard_byte params enc2 q HB).
  pose proof (Z.mod_pos_bound (Z.of_nat q) (BlockBytes params) ltac:(lia)) as Hmod.
  assert (Hr : 0 <= Z.of_nat q / BlockBytes params < RecoveryCount params).
  { split; [apply Z.div_pos; lia|]. apply Z.div_lt_upper_bound; [lia|]. nia. }
  rewrite Hb1, Hb2 by (assumption || lia). reflexivity.
Qed.

(** The encoding of [rt_originals] into a region that held ones. *)
Definition rt_out_ff : list byte :=
  match snd (cm256_encode rt_params (Some rt_originals) (Some (repeat xff 4))) with
  | Some o => o
  | None => []
  end.

Lemma rt_encode_ff :
  cm256_encode rt_params (Some rt_originals) (Some (repeat xff 4)) = (0, Some rt_out_ff).
Proof. vm_compute. reflexivity. Qed.

Lemma encode_overwrites_output_witness : rt_out = rt_out_ff.
Proof.
  exact (encode_overwrites_output rt_params rt_originals (repeat x00 4) (repeat xff 4)
           rt_out rt_out_ff rt_valid eq_refl eq_refl rt_encode rt_encode_ff).
Defined.

(** X9. The code is linear: when every byte of the originals [C] is the XOR
    of the bytes at its place in the originals [A] and [B], every byte of a
    recovery shard of [C] is the XOR of the bytes at its place in that
    recovery shard of [A] and of [B]. *)
Theorem encode_linear :
  forall params A B C outA outB outC encA encB encC,
    valid_params params ->
    length outA = Z.to_nat (RecoveryCount params * BlockBytes params) ->
    length outB = Z.to_nat (RecoveryCount params * BlockBytes params) ->
    length outC = Z.to_nat (RecoveryCount params * BlockBytes params) ->
    cm256_encode params (Some A) (Some outA) = (0, Some encA) ->
    cm256_encode params (Some B) (Some outB) = (0, Some encB) ->
    cm256_encode params (Some C) (Some outC) = (0, Some encC) ->
    (forall j p, 0 <= j < OriginalCount params ->
       (p < Z.to_nat (BlockBytes params))%nat ->
       byte_at (Block (blk C j)) p
       = gf256_add (byte_at (Block (blk A j)) p) (byte_at (Block (blk B j)) p)) ->
    forall r p, 0 <= r < RecoveryCount params ->
      (p < Z.to_nat (BlockBytes params))%nat ->
      byte_at (recovery_shard params encC r) p
      = gf256_add (byte_at (recovery_shard params encA r) p)
          (byte_at (recovery_shard params encB r) p).
Proof.
  intros params A B C outA outB outC encA encB encC Hv HlA HlB HlC HeA HeB HeC Hxor
    r p Hr Hp.
  destruct (encode_facts params A outA encA Hv HlA HeA) as (_ & _ & HbA).
  destruct (encode_facts params B outB encB Hv HlB HeB) as (_ & _ & HbB).
  destruct (encode_facts params C outC encC Hv HlC HeC) as (_ & _ & HbC).
  rewrite HbA, HbB, HbC by assumption.
  destruct Hv as (Hk & Hm & HB & Hkm).
  destruct (OriginalCount params =? 1).
  - unfold orig_byte. apply Hxor; [simpl; lia|assumption].
  - unfold recovery_byte. rewrite <- gsum_add. apply gsum_ext. intros j Hj.
    unfold orig_byte. rewrite Hxor by (assumption || lia). ring.
Qed.

Definition lin_B : list cm256_block :=
  [ {| Block := [x0f; xf0]; Index := x00 |};
    {| Block := [x33; xcc]; Index := x01 |};
    {| Block := [x55; xaa]; Index := x02 |} ].

Definition lin_C : list cm256_block :=
  [ {| Block := [x0e; xf2]; Index := x00 |};
    {| Block := [x23; xec]; Index := x01 |};
    {| Block := [xf0; xf0]; Index := x02 |} ].

Definition lin_encB : list byte :=
  match snd (cm256_encode rt_params (Some lin_B) (Some (repeat x00 4))) with
  | Some o => o
  | None => []
  end.

Definition lin_encC : list byte :=
  match snd (cm256_encode rt_params (Some lin_C) (Some (repeat x00 4))) with
  | Some o => o
  | None => []
  end.

Lemma encode_linear_witness :
  valid_params rt_params /\
  forall r p, 0 <= r < RecoveryCount rt_params ->
    (p < Z.to_nat (BlockBytes rt_params))%nat ->
    byte_at (recovery_shard rt_params lin_encC r) p
    = gf256_add (byte_at (recovery_shard rt_params rt_out r) p)
        (byte_at (recovery_shard rt_params lin_encB r) p).
Proof.
  split; [exact rt_valid|].
  apply (encode_linear rt_params rt_originals lin_B lin_C (repeat x00 4) (repeat x00 4)
           (repeat x00 4) rt_out lin_encB lin_encC rt_valid eq_refl eq_refl eq_refl
           rt_encode).
  - vm_compute. reflexivity.
  - vm_compute. reflexivity.
  - intros j p Hj Hp.
    assert (Hjc : j = 0 \/ j = 1 \/ j = 2) by (simpl in Hj; lia).
    assert (Hpc : p = 0%nat \/ p = 1%nat) by (simpl in Hp; lia).
    destruct Hjc as [-> | [-> | ->]], Hpc as [-> | ->]; reflexivity.
Defined.

(** X10. A recovery shard does not depend on how many recovery shards are
    asked for: encoders with the same [OriginalCount] and [BlockBytes]
    write the same r-th recovery shard for the same originals. *)
Theorem recovery_shard_independent_of_count :
  forall params1 params2 originals out1 out2 enc1 enc2,
    valid_params params1 -> valid_params params2 ->
    OriginalCount params1 = OriginalCount params2 ->
    BlockBytes params1 = BlockBytes params2 ->
    length out1 = Z.to_nat (RecoveryCount params1 * BlockBytes params1) ->
    length out2 = Z.to_nat (RecoveryCount params2 * BlockBytes params2) ->
    cm256_encode params1 (Some originals) (Some out1) = (0, Some enc1) ->
    cm256_encode params2 (Some originals) (Some out2) = (0, Some enc2) ->
    forall r, 0 <= r < RecoveryCount params1 -> r < RecoveryCount params2 ->
      recovery_shard params1 enc1 r = recovery_shard params2 enc2 r.
Proof.
  intros params1 params2 originals out1 out2 enc1 enc2 Hv1 Hv2 Ek EB Hl1 Hl2 He1 He2
    r Hr1 Hr2.
  destruct (encode_facts params1 originals out1 enc1 Hv1 Hl1 He1) as (_ & Hrl1 & Hb1).
  destruct (encode_facts params2 originals out2 enc2 Hv2 Hl2 He2) as (_ & Hrl2 & Hb2).
  apply list_eq_byte_at; [rewrite Hrl1, Hrl2 by lia; congruence|].
  intros p Hp. rewrite Hrl1 in Hp by lia.
  rewrite Hb1, Hb2 by (lia || congruence).
  unfold recovery_byte, coef. now rewrite Ek.
Qed.

(** The parameters of [rt_params] with one recovery shard. *)
Definition rt_params1 : cm256_encoder_params :=
  {| OriginalCount := 3; RecoveryCount := 1; BlockBytes := 2 |}.

Definition rt_out1 : list byte :=
  match snd (cm256_encode rt_params1 (Some rt_originals) (Some (repeat x00 2))) with
  | Some o => o
  | None => []
  end.

Lemma recovery_shard_independent_of_count_witness :
  valid_params rt_params1 /\
  forall r, 0 <= r < RecoveryCount rt_params -> r < RecoveryCount rt_params1 ->
    recovery_shard rt_params rt_out r = recovery_shard rt_params1 rt_out1 r.
Proof.
  assert (Hv1 : valid_params rt_params1) by (unfold valid_params; simpl; lia).
  split; [exact Hv1|].
  apply (recovery_shard_independent_of_count rt_params rt_params1 rt_originals
           (repeat x00 4) (repeat x00 2) rt_out rt_out1 rt_valid Hv1 eq_refl eq_refl
           eq_refl eq_refl rt_encode).
  vm_compute. reflexivity.
Defined.


(** * The diagonal factor *)

(** X12. After [Initialize] has accepted [k] blocks with pairwise distinct
    indices and found at least one erasure, no entry of the diagonal that
    [GenerateLDUDecomposition] writes at [diag_D] is zero: the division of
    the diagonal pass of [Decode] is never a division by zero. *)
Theorem diagonal_never_zero :
  forall uninit8 params blocks decoder0 decoder matrix0 matrix_L diag_D matrix_U,
    valid_params params ->
    length blocks = Z.to_nat (OriginalCount params) ->
    NoDup (map Index blocks) ->
    length (Recovery decoder0) = 256%nat ->
    length (Original decoder0) = 256%nat ->
    length (ErasuresIndices decoder0) = 256%nat ->
    Initialize decoder0 params blocks = (0, decoder) ->
    1 <= dec_RecoveryCount decoder ->
    0 <= matrix_U ->
    matrix_U + tri (dec_RecoveryCount decoder) <= diag_D ->
    diag_D + dec_RecoveryCount decoder <= matrix_L ->
    matrix_L + tri (dec_RecoveryCount decoder) <= Z.of_nat (length matrix0) ->
    forall t, 0 <= t < dec_RecoveryCount decoder ->
      load (GenerateLDUDecomposition uninit8 decoder blocks matrix0 matrix_L diag_D
              matrix_U) (diag_D + t) <> x00.
Proof.
  intros uninit8 params blocks decoder0 decoder matrix0 matrix_L diag_D matrix_U
    Hv Hl Hn HLR HLO HLE HI HN HU HUD HDL HLen t Ht.
  pose proof Hv as (Hk & Hm & HB & Hs).
  destruct (Initialize_distinct params blocks ltac:(lia) decoder0 HLR HLO HLE
              (NoDup_distinct_originals params blocks Hl Hn)) as (d' & HI' & Hini).
  rewrite HI in HI'. injection HI' as <-.
  pose proof (ready_counts params blocks decoder Hv Hl Hini) as (_ & HOC & Hsum).
  destruct (GenerateLDUDecomposition_spec uninit8 decoder blocks matrix0 matrix_L
              diag_D matrix_U ltac:(lia) HU HUD HDL HLen) as (_ & HDs & _).
  rewrite HDs by assumption.
  apply zD_neq0; try assumption.
  - apply (ready_xy params blocks decoder Hv Hl Hini).
  - apply (ready_xx params blocks decoder Hl Hn Hini).
  - apply (ready_yy params blocks decoder Hv Hl Hini).
  - apply (ready_x0y params blocks decoder Hv Hl Hini).
Qed.

Lemma diagonal_never_zero_witness :
  dec_RecoveryCount ldu_decoder = 2 /\
  forall t, 0 <= t < dec_RecoveryCount ldu_decoder ->
    load (GenerateLDUDecomposition (fun _ => x00) ldu_decoder ldu_blocks (repeat x00 4)
            3 1 0) (1 + t) <> x00.
Proof.
  assert (EI : Initialize example_decoder S5_params ldu_blocks = (0, ldu_decoder))
    by (vm_compute; reflexivity).
  assert (EN : dec_RecoveryCount ldu_decoder = 2) by (vm_compute; reflexivity).
  split; [exact EN|].
  apply (diagonal_never_zero (fun _ => x00) S5_params ldu_blocks example_decoder
           ldu_decoder (repeat x00 4) 3 1 0).
  - unfold valid_params; simpl; lia.
  - reflexivity.
  - simpl. repeat constructor; simpl; intuition discriminate.
  - reflexivity.
  - reflexivity.
  - reflexivity.
  - exact EI.
  - rewrite EN. lia.
  - lia.
  - rewrite EN. vm_compute. discriminate.
  - rewrite EN. lia.
  - rewrite EN. vm_compute. discriminate.
Defined.


(** * The encoder as a matrix product *)

(** X14. With at least two originals, [cm256_encode] succeeds and writes, at
    the byte [p] of the r-th block of the recovery region, the sum over the
    originals [j] of the Cauchy element [(j + k) / ((k + r) + j)] times the
    byte [p] of the original [j], all in GF(256). *)
Theorem encode_is_cauchy_product :
  forall params originals out,
    valid_params params -> 2 <= OriginalCount params ->
    length out = Z.to_nat (RecoveryCount params * BlockBytes params) ->
    exists out',
      cm256_encode params (Some originals) (Some out) = (0, Some out') /\
      length out' = length out /\
      forall r p, 0 <= r < RecoveryCount params ->
        (p < Z.to_nat (BlockBytes params))%nat ->
        byte_at out' (Z.to_nat (r * BlockBytes params) + p)
        = gsum (fun j =>
                  gf256_mul
                    (gf256_div
                       (gf256_add (u8 (Z.of_nat j)) (u8 (OriginalCount params)))
                       (gf256_add (u8 (OriginalCount params + r)) (u8 (Z.of_nat j))))
                    (byte_at (Block (blk originals (Z.of_nat j))) p))
            (Z.to_nat (OriginalCount params)).
Proof.
  intros params originals out Hv Hk2 Hlo.
  destruct (cm256_encode_spec params originals out Hv Hlo) as (out' & Henc & Hlen & Hb).
  exists out'. split; [exact Henc|]. split; [exact Hlen|].
  intros r p Hr Hp. specialize (Hb r p Hr Hp).
  unfold recovery_shard in Hb. rewrite byte_at_firstn, byte_at_skipn in Hb by assumption.
  rewrite Hb. destruct (Z.eqb_spec (OriginalCount params) 1); [lia|].
  reflexivity.
Qed.

Lemma encode_is_cauchy_product_witness :
  exists out',
    cm256_encode rt_params (Some rt_originals) (Some (repeat x00 4)) = (0, Some out') /\
    length out' = length (repeat x00 4) /\
    forall r p, 0 <= r < RecoveryCount rt_params ->
      (p < Z.to_nat (BlockBytes rt_params))%nat ->
      byte_at out' (Z.to_nat (r * BlockBytes rt_params) + p)
      = gsum (fun j =>
                gf256_mul
                  (gf256_div
                     (gf256_add (u8 (Z.of_nat j)) (u8 (OriginalCount rt_params)))
                     (gf256_add (u8 (OriginalCount rt_params + r)) (u8 (Z.of_nat j))))
                  (byte_at (Block (blk rt_originals (Z.of_nat j))) p))
          (Z.to_nat (OriginalCount rt_params)).
Proof.
  apply (encode_is_cauchy_product rt_params rt_originals (repeat x00 4) rt_valid).
  - simpl; lia.
  - reflexivity.
Defined.


(** * The decoder on arbitrary data *)

(** A unit lower triangular system has a solution. *)
Lemma forward_solution (cL : Z -> Z -> byte) (R : Z -> nat -> byte) n :
  0 <= n ->
  exists Y : Z -> nat -> byte,
    forall i p, 0 <= i < n ->
      R i p = gf256_add (Y i p) (zsum (fun t => gf256_mul (cL i t) (Y t p)) 0 i).
Proof.
  intros Hn. pattern n. apply natlike_ind; [| |assumption].
  - exists (fun _ _ => x00). intros i p Hi. lia.
  - clear n Hn. intros n Hn (Y & HY).
    set (Y' := fun i p =>
                 if i =? n
                 then gf256_add (R n p) (zsum (fun t => gf256_mul (cL n t) (Y t p)) 0 n)
                 else Y i p).
    exists Y'. intros i p Hi.
    assert (Es : zsum (fun t => gf256_mul (cL i t) (Y' t p)) 0 i
                 = zsum (fun t => gf256_mul (cL i t) (Y t p)) 0 i).
    { apply zsum_ext. intros t Ht. unfold Y'.
      destruct (Z.eqb_spec t n); [lia|reflexivity]. }
    rewrite Es. unfold Y'.
    destruct (Z.eqb_spec i n) as [->|Hne]; [ring|]. apply HY. lia.
Qed.

(** A unit upper triangular system has a solution. *)
Lemma backward_solution (cU : Z -> Z -> byte) (W : Z -> nat -> byte) N :
  0 <= N ->
  exists X : Z -> nat -> byte,
    forall i p, 0 <= i < N ->
      W i p = gf256_add (X i p) (zsum (fun c => gf256_mul (cU i c) (X c p)) (i + 1) N).
Proof.
  intros HN.
  assert (H : forall n, 0 <= n -> n <= N ->
            exists X : Z -> nat -> byte,
              forall i p, N - n <= i < N ->
                W i p = gf256_add (X i p)
                          (zsum (fun c => gf256_mul (cU i c) (X c p)) (i + 1) N)).
  { intros n Hn. pattern n. apply natlike_ind; [| |assumption].
    - intros _. exists (fun _ _ => x00). intros i p Hi. lia.
    - clear n Hn. intros n Hn IH Hle. destruct (IH ltac:(lia)) as (X & HX).
      set (X' := fun i p =>
                   if i =? N - n - 1
                   then gf256_add (W i p)
                          (zsum (fun c => gf256_mul (cU i c) (X c p)) (i + 1) N)
                   else X i p).
      exists X'. intros i p Hi.
      assert (Es : zsum (fun c => gf256_mul (cU i c) (X' c p)) (i + 1) N
                   = zsum (fun c => gf256_mul (cU i c) (X c p)) (i + 1) N).
      { apply zsum_ext. intros c Hc. unfold X'.
        destruct (Z.eqb_spec c (N - n - 1)); [lia|reflexivity]. }
      rewrite Es. unfold X'.
      destruct (Z.eqb_spec i (N - n - 1)) as [E|Hne]; [ring|]. apply HX. lia. }
  destruct (H N HN ltac:(lia)) as (X & HX). exists X.
  intros i p Hi. apply HX. lia.
Qed.

Section DecodeAny.

Variable uninit8 : nat -> byte.
Variable params : cm256_encoder_params.
Variable blocks : list cm256_block.
Variable d : CM256Decoder.

Local Abbreviation k := (OriginalCount params).
Local Abbreviation N := (dec_RecoveryCount d).
Local Abbreviation rptr := (loadp (Recovery d)).
Local Abbreviation optr := (loadp (Original d)).

Hypothesis Hv : valid_params params.
Hypothesis Hl : length blocks = Z.to_nat (OriginalCount params).
Hypothesis Hn : NoDup (map Index blocks).
Hypothesis Hi : initialized params blocks d.
Hypothesis Hlen : forall p,
  0 <= p < OriginalCount params ->
  length (Block (blk blocks p)) = Z.to_nat (BlockBytes params).

(** The element of the Cauchy matrix for the i-th recovery block and the
    c-th erased original. *)
Definition solve_G (i c : Z) : byte :=
  GetMatrixElement (rec_x d blocks i) (norm_x0 d) (era_y d c).

Lemma any_rptr_range i : 0 <= i < N -> 0 <= rptr i < Z.of_nat (length blocks).
Proof.
  intros Hr. destruct (ready_recovery params blocks d Hl Hi i Hr) as [H _].
  destruct Hv. lia.
Qed.

Lemma any_rptr_inj i j : 0 <= i < N -> 0 <= j < N -> rptr i = rptr j -> i = j.
Proof. apply (ready_recovery_inj params blocks d Hl Hi). Qed.

Lemma any_optr_range a : 0 <= a < dec_OriginalCount d -> 0 <= optr a.
Proof. intros Ha. apply (ready_original params blocks d Hl Hi a Ha). Qed.

Lemma any_optr_rptr a i :
  0 <= a < dec_OriginalCount d -> 0 <= i < N -> optr a <> rptr i.
Proof.
  intros Ha Hr E.
  destruct (ready_original params blocks d Hl Hi a Ha) as [_ H1].
  destruct (ready_recovery params blocks d Hl Hi i Hr) as [_ H2].
  rewrite E in H1. lia.
Qed.

Lemma any_row_length i :
  0 <= i < N -> length (Block (blk blocks (rptr i))) = Z.to_nat (BlockBytes (Params d)).
Proof.
  intros Hr. rewrite (ready_params params blocks d Hi). apply Hlen.
  apply (ready_recovery params blocks d Hl Hi i Hr).
Qed.

Lemma any_B : 0 <= BlockBytes (Params d).
Proof. rewrite (ready_params params blocks d Hi). destruct Hv as (_ & _ & H & _). lia. Qed.

(** Whatever the recovery blocks hold, [Decode] leaves in them a solution
    [X] of the system [G * X = R], where [R] are the recovery rows after
    the supplied originals are eliminated. *)
Lemma Decode_any :
  1 <= N ->
  exists X : Z -> nat -> byte,
    rows_are d blocks (Decode uninit8 d blocks) (fun i => load (ErasuresIndices d) i) X /\
    forall i p, 0 <= i < N -> (p < Z.to_nat (BlockBytes (Params d)))%nat ->
      cancelled d blocks (Z.to_nat (dec_OriginalCount d)) i p
      = zsum (fun c => gf256_mul (solve_G i c) (X c p)) 0 N.
Proof.
  intros HN.
  pose proof (ready_counts params blocks d Hv Hl Hi) as (_ & HOC & Hsum).
  pose proof Hv as (Hk1 & Hm & HB & Hkm).
  pose proof (decode_cancel_spec d blocks any_rptr_range any_rptr_inj any_optr_range
                any_optr_rptr any_row_length any_B ltac:(lia) HOC) as HA.
  rewrite Decode_unfold. cbv zeta.
  set (bl1 := decode_cancel d blocks) in *.
  fold (tri N).
  set (matrix := GenerateLDUDecomposition uninit8 d bl1 (decode_matrix uninit8 d)
                   (0 + tri N + N) (0 + tri N) 0).
  assert (Ex : forall i, 0 <= i < N -> rec_x d bl1 i = rec_x d blocks i).
  { intros i Hr. destruct HA as (_ & _ & Hrows). apply (Hrows i Hr). }
  pose proof (tri_nonneg N ltac:(lia)) as Ht0.
  pose proof (tri_le_square N ltac:(lia)) as Hsq.
  assert (HlenM : 0 + tri N + N + tri N <= Z.of_nat (length (decode_matrix uninit8 d))).
  { unfold decode_matrix. cbv zeta.
    destruct (Z.gtb_spec (N * N) StackAllocSize);
      rewrite length_uninit_bytes; unfold StackAllocSize in *; lia. }
  destruct (GenerateLDUDecomposition_spec uninit8 d bl1 (decode_matrix uninit8 d)
              (0 + tri N + N) (0 + tri N) 0 ltac:(lia) ltac:(lia) ltac:(lia)
              ltac:(lia) HlenM) as (_ & HDs & HLs & HUs).
  fold matrix in HDs, HLs, HUs.
  assert (Hxy : forall i j, (i < Z.to_nat N)%nat -> (j < Z.to_nat N)%nat ->
            gf256_add (rec_x d bl1 (Z.of_nat i)) (era_y d (Z.of_nat j)) <> x00).
  { intros i j Hi' Hj'. rewrite Ex by lia.
    now apply (ready_xy params blocks d Hv Hl Hi). }
  assert (Hxx : forall i j, (i < Z.to_nat N)%nat -> (j < Z.to_nat N)%nat -> i <> j ->
            gf256_add (rec_x d bl1 (Z.of_nat i)) (rec_x d bl1 (Z.of_nat j)) <> x00).
  { intros i j Hi' Hj' Hne. rewrite !Ex by lia.
    now apply (ready_xx params blocks d Hl Hn Hi). }
  pose proof (ready_yy params blocks d Hv Hl Hi) as Hyy.
  pose proof (ready_x0y params blocks d Hv Hl Hi) as Hx0.
  pose proof (factors_product d bl1 Hxy Hxx Hyy Hx0) as HG.
  pose proof (zD_neq0 d bl1 Hxy Hxx Hyy Hx0) as HDnz.
  (* the solutions of the two triangular systems *)
  destruct (forward_solution (zL d bl1)
              (cancelled d blocks (Z.to_nat (dec_OriginalCount d))) N ltac:(lia))
    as (Y & HY).
  destruct (backward_solution (zU d bl1)
              (fun t p => gf256_div (Y t p) (zD d bl1 t)) N ltac:(lia))
    as (X & HX).
  exists X.
  pose proof (decode_lower_spec d blocks matrix (0 + tri N + N) (zL d bl1)
                any_rptr_range any_rptr_inj any_B HN HLs bl1 _ _ Y HA) as HC.
  destruct (decode_lower d matrix (bl1, 0 + tri N + N)) as [bl2 mL2].
  cbn [fst] in HC.
  assert (HC' : rows_are d blocks bl2 (fun i => Index (blk blocks (rptr i))) Y).
  { apply HC. intros i p Hr Hp. now apply HY. }
  clear HC.
  pose proof (decode_diag_spec d blocks matrix (0 + tri N) (zD d bl1)
                any_rptr_range any_rptr_inj any_B HN HDs bl2 _ _ HC') as HD.
  set (bl3 := decode_diag d matrix (0 + tri N) bl2) in *.
  pose proof (decode_upper_spec d blocks matrix 0 (zU d bl1)
                any_rptr_range any_rptr_inj any_B HN HUs bl3 _ _ X HD) as HE.
  destruct (decode_upper d matrix (bl3, 0)) as [bl4 mU4]. cbn [fst] in HE.
  split.
  - apply HE. intros i p Hr Hp. now apply HX.
  - intros i p Hr Hp. unfold solve_G.
    rewrite (zsum_ext _
      (fun c => gf256_mul (GetMatrixElement (rec_x d bl1 i) (norm_x0 d) (era_y d c))
                  (X c p))) by (intros c Hc; now rewrite Ex).
    rewrite (solve_algebra (zL d bl1) (zU d bl1) (zD d bl1)
               (fun i c => GetMatrixElement (rec_x d bl1 i) (norm_x0 d) (era_y d c))
               (fun c => X c p) N HG i Hr).
    assert (EY : forall t, 0 <= t < N ->
              gf256_mul (zD d bl1 t)
                (gf256_add (X t p)
                   (zsum (fun c => gf256_mul (zU d bl1 t c) (X c p)) (t + 1) N))
              = Y t p).
    { intros t Ht. rewrite <- (HX t p Ht).
      pose proof (HDnz t Ht). field. assumption. }
    rewrite EY by assumption.
    rewrite (zsum_ext _ (fun t => gf256_mul (zL d bl1 i t) (Y t p)) 0 i)
      by (intros t Ht; rewrite EY by lia; reflexivity).
    now apply HY.
Qed.

(** The same for [DecodeM1], when the one recovery block has the index [k]
    of the parity row. *)
Lemma DecodeM1_any :
  N = 1 -> int_of (rec_x d blocks 0) = OriginalCount params ->
  exists X : Z -> nat -> byte,
    rows_are d blocks (DecodeM1 d blocks) (fun i => load (ErasuresIndices d) i) X /\
    forall i p, 0 <= i < N -> (p < Z.to_nat (BlockBytes (Params d)))%nat ->
      cancelled d blocks (Z.to_nat (dec_OriginalCount d)) i p
      = zsum (fun c => gf256_mul (solve_G i c) (X c p)) 0 N.
Proof.
  intros HN Hx. pose proof (ready_counts params blocks d Hv Hl Hi) as (_ & HOC & Hsum).
  assert (Ex : rec_x d blocks 0 = norm_x0 d).
  { rewrite (ready_x0 params blocks d Hi), <- Hx. symmetry. apply u8_int_of. }
  exists (m1_sum d blocks (Z.to_nat (dec_OriginalCount d))). split.
  - apply (DecodeM1_spec d blocks any_rptr_range any_rptr_inj any_optr_range
             any_optr_rptr any_row_length HN HOC).
  - intros i p Hr Hp. assert (i = 0) by lia. subst i.
    rewrite HN, (zsum_first _ 0 1), zsum_nil by lia.
    unfold solve_G. rewrite Ex, GetMatrixElement_first_row.
    2:{ apply (ready_x0y params blocks d Hv Hl Hi 0%nat). lia. }
    unfold cancelled, m1_sum.
    rewrite (gsum_ext (cancel_term d blocks 0 p)
               (fun a => byte_at (Block (blk blocks (optr (Z.of_nat a)))) p)); [ring|].
    intros a Ha. unfold cancel_term. fold (rec_x d blocks 0). fold (norm_x0 d).
    rewrite Ex, GetMatrixElement_first_row; [ring|].
    apply gf256_add_neq0. intros E.
    destruct (ready_original params blocks d Hl Hi (Z.of_nat a) ltac:(lia)) as [_ Ho].
    unfold block_index in Ho. rewrite <- E, (ready_x0 params blocks d Hi) in Ho.
    destruct Hv as (? & ? & ? & ?). rewrite int_of_u8_small in Ho; lia.
Qed.

(** Every original index is the index of a block that the decoder leaves. *)
Lemma rows_indices bl' X :
  rows_are d blocks bl' (fun i => load (ErasuresIndices d) i) X ->
  forall r, 0 <= r < OriginalCount params ->
    exists b, In b bl' /\ int_of (Index b) = r.
Proof.
  intros (Hlen' & Hf & Hr) r Hrr. pose proof Hv as (Hk1 & Hm & HB & Hkm).
  destruct (supplied_or_erased params blocks d Hl Hi r Hrr)
    as [(p & Hp & E)|(t & Ht & E)].
  - exists (blk bl' p). split; [unfold blk; apply nth_In; lia|].
    rewrite Hf; [exact E|lia|].
    intros i Hi' Ep.
    destruct (ready_recovery params blocks d Hl Hi i Hi') as [_ H2].
    rewrite <- Ep in H2. lia.
  - pose proof (any_rptr_range t Ht) as Hpt.
    exists (blk bl' (rptr t)). split; [unfold blk; apply nth_In; lia|].
    destruct (Hr t Ht) as (EI & _). rewrite EI. fold (era_y d t).
    destruct (ready_erasure params blocks d Hl Hi t Ht) as [-> _].
    rewrite E. apply int_of_u8_small. lia.
Qed.

(** Encoding the blocks that the decoder leaves gives back the recovery
    blocks that it was given. *)
Lemma reencode_rows bl' X originals' enc :
  rows_are d blocks bl' (fun i => load (ErasuresIndices d) i) X ->
  (forall i p, 0 <= i < N -> (p < Z.to_nat (BlockBytes (Params d)))%nat ->
     cancelled d blocks (Z.to_nat (dec_OriginalCount d)) i p
     = zsum (fun c => gf256_mul (solve_G i c) (X c p)) 0 N) ->
  (forall b, In b bl' -> Block (blk originals' (int_of (Index b))) = Block b) ->
  (forall r, 0 <= r < RecoveryCount params ->
     length (recovery_shard params enc r) = Z.to_nat (BlockBytes params)) ->
  (forall r p, 0 <= r < RecoveryCount params ->
     (p < Z.to_nat (BlockBytes params))%nat ->
     byte_at (recovery_shard params enc r) p
     = recovery_byte params originals' (OriginalCount params + r) p) ->
  forall i, 0 <= i < N ->
    int_of (rec_x d blocks i) < OriginalCount params + RecoveryCount params ->
    recovery_shard params enc (int_of (rec_x d blocks i) - OriginalCount params)
    = Block (blk blocks (rptr i)).
Proof.
  intros (Hlen' & Hf & Hr) Hrel Horig Hrl Hbytes i Hri Hxm.
  pose proof Hv as (Hk1 & Hm & HB & Hkm).
  pose proof (ready_params params blocks d Hi) as HP.
  pose proof (rec_x_ge params blocks d Hl Hi i Hri) as Hxk.
  pose proof (any_row_length i Hri) as Hrow. rewrite HP in Hrow.
  apply list_eq_byte_at; [rewrite Hrl by lia; now rewrite Hrow|].
  intros p Hp. rewrite Hrl in Hp by lia.
  rewrite Hbytes by (assumption || lia).
  replace (OriginalCount params + (int_of (rec_x d blocks i) - OriginalCount params))
    with (int_of (rec_x d blocks i)) by lia.
  set (F := fun c : Z =>
    gf256_mul (GetMatrixElement (rec_x d blocks i) (u8 (OriginalCount params)) (u8 c))
      (byte_at (Block (blk originals' c)) p)).
  pose proof (sum_erased params blocks d Hl Hn Hi F) as Hsum.
  assert (E1 : recovery_byte params originals' (int_of (rec_x d blocks i)) p
               = gsum (fun j => F (Z.of_nat j)) (Z.to_nat (OriginalCount params))).
  { unfold recovery_byte. apply gsum_ext. intros j Hj.
    unfold F, coef, orig_byte. now rewrite u8_int_of. }
  assert (E2 : gsum (fun a => F (block_index blocks (optr (Z.of_nat a))))
                 (Z.to_nat (dec_OriginalCount d))
               = gsum (cancel_term d blocks i p) (Z.to_nat (dec_OriginalCount d))).
  { apply gsum_ext. intros a Ha. unfold F, cancel_term.
    assert (Ha' : 0 <= Z.of_nat a < dec_OriginalCount d) by lia.
    destruct (ready_original params blocks d Hl Hi (Z.of_nat a) Ha') as [Hp1 Hp2].
    assert (Eb : blk bl' (optr (Z.of_nat a)) = blk blocks (optr (Z.of_nat a))).
    { apply Hf; [lia|]. intros i' Hi'. now apply any_optr_rptr. }
    assert (Hin : In (blk bl' (optr (Z.of_nat a))) bl')
      by (unfold blk; apply nth_In; lia).
    specialize (Horig _ Hin). rewrite Eb in Horig.
    unfold block_index. rewrite Horig, u8_int_of, HP. reflexivity. }
  assert (E3 : zsum (fun t => F (erasure params blocks t)) 0 N
               = zsum (fun c => gf256_mul (solve_G i c) (X c p)) 0 N).
  { apply zsum_ext. intros t Ht. unfold F, solve_G.
    destruct (ready_erasure params blocks d Hl Hi t Ht) as [Ee _].
    pose proof (erasure_range params blocks d Hl Hi t Ht) as Her.
    pose proof (any_rptr_range t Ht) as Hpt.
    assert (Hin : In (blk bl' (rptr t)) bl') by (unfold blk; apply nth_In; lia).
    specialize (Horig _ Hin).
    destruct (Hr t Ht) as (EI & EL & EB).
    rewrite EI in Horig. fold (era_y d t) in Horig. rewrite Ee in Horig.
    rewrite int_of_u8_small in Horig by lia. rewrite Horig.
    rewrite EB by (rewrite HP; assumption).
    now rewrite Ee, (ready_x0 params blocks d Hi). }
  rewrite E1. rewrite E2, E3, <- Hrel in Hsum by (rewrite ?HP; assumption).
  unfold cancelled in Hsum.
  set (S := gsum (fun j => F (Z.of_nat j)) (Z.to_nat (OriginalCount params))) in *.
  set (T := gsum (cancel_term d blocks i p) (Z.to_nat (dec_OriginalCount d))) in *.
  set (Rb := byte_at (Block (blk blocks (rptr i))) p) in *.
  transitivity (gf256_add (gf256_add S T) T); [ring|]. rewrite Hsum. ring.
Qed.

End DecodeAny.


(** * Decoding, then encoding *)

(** Blocks that are not drawn from an encoding: the recovery blocks hold
    arbitrary bytes. *)
Definition any_blocks : list cm256_block :=
  [ {| Block := [x12; x34]; Index := x04 |};
    {| Block := [x01; x02]; Index := x00 |};
    {| Block := [x56; x78]; Index := x03 |} ].

(** X15. The decoder inverts the encoder on any data: for [k] blocks with
    pairwise distinct indices below [k + m] and buffers of [BlockBytes]
    bytes, whatever these hold, [cm256_decode] returns 0, and when the
    blocks it leaves are taken as the originals, each under its [Index],
    [cm256_encode] writes for every recovery index that was supplied exactly
    the recovery block that was supplied. *)
Theorem decode_then_encode :
  forall uninit8 uninitp params blocks,
    valid_params params ->
    length blocks = Z.to_nat (OriginalCount params) ->
    NoDup (map Index blocks) ->
    (forall b, In b blocks ->
       length (Block b) = Z.to_nat (BlockBytes params) /\
       int_of (Index b) < OriginalCount params + RecoveryCount params) ->
    exists blocks',
      cm256_decode uninit8 uninitp params (Some blocks) = (0, Some blocks') /\
      length blocks' = length blocks /\
      (forall r, 0 <= r < OriginalCount params ->
         exists b, In b blocks' /\ int_of (Index b) = r) /\
      forall originals' out enc,
        (forall b, In b blocks' -> Block (blk originals' (int_of (Index b))) = Block b) ->
        length out = Z.to_nat (RecoveryCount params * BlockBytes params) ->
        cm256_encode params (Some originals') (Some out) = (0, Some enc) ->
        forall b, In b blocks -> OriginalCount params <= int_of (Index b) ->
          recovery_shard params enc (int_of (Index b) - OriginalCount params) = Block b.
Proof.
  intros uninit8 uninitp params blocks Hv Hl Hn Hb.
  pose proof Hv as (Hk & Hm & HB & Hkm).
  assert (Hlen : forall p, 0 <= p < OriginalCount params ->
            length (Block (blk blocks p)) = Z.to_nat (BlockBytes params)).
  { intros p Hp. apply Hb. unfold blk. apply nth_In. lia. }
  destruct (Z.eq_dec (OriginalCount params) 1) as [Hk1|Hk1].
  - (* one original *)
    exists (set_Index blocks 0 x00).
    split; [now apply cm256_decode_one_original|].
    split; [apply length_set_Index|]. split.
    { intros r Hr. assert (r = 0) by lia. subst r.
      exists (blk (set_Index blocks 0 x00) 0).
      split; [unfold blk; apply nth_In; rewrite length_set_Index; lia|].
      rewrite blk_set_Index_eq by lia. reflexivity. }
    intros originals' out enc Horig Hlo Henc b Hin Hx.
    destruct (encode_facts params originals' out enc Hv Hlo Henc) as (_ & Hrl & Hbytes).
    destruct (In_nth _ _ {| Block := []; Index := x00 |} Hin) as (n & Hn' & En).
    assert (n = 0%nat) by lia. subst n.
    assert (Eb : blk blocks 0 = b) by exact En.
    destruct (Hb b Hin) as [Hbl Hbx].
    assert (Ho : Block (blk originals' 0) = Block b).
    { assert (Hin0 : In (blk (set_Index blocks 0 x00) 0) (set_Index blocks 0 x00))
        by (unfold blk; apply nth_In; rewrite length_set_Index; lia).
      pose proof (Horig _ Hin0) as H0.
      rewrite blk_set_Index_eq in H0 by lia. cbn [Index Block] in H0.
      change (int_of x00) with 0 in H0. rewrite <- Eb. exact H0. }
    apply list_eq_byte_at; [rewrite Hrl by lia; now rewrite Hbl|].
    intros p Hp. rewrite Hrl in Hp by lia. rewrite Hbytes by (assumption || lia).
    destruct (Z.eqb_spec (OriginalCount params) 1); [|contradiction].
    unfold orig_byte. now rewrite <- Ho.
  - unfold cm256_decode. cbv zeta.
    destruct (Z.leb_spec (OriginalCount params) 0); [lia|].
    destruct (Z.leb_spec (RecoveryCount params) 0); [lia|].
    destruct (Z.leb_spec (BlockBytes params) 0); [lia|]. cbn [orb].
    rewrite int_add_small by lia.
    destruct (Z.gtb_spec (OriginalCount params + RecoveryCount params) 256); [lia|].
    destruct (Z.eqb_spec (OriginalCount params) 1); [contradiction|].
    destruct (kmalloc_CM256Decoder_lengths uninit8 uninitp) as (L1 & L2 & L3).
    destruct (Initialize_distinct params blocks ltac:(lia)
                (kmalloc_CM256Decoder uninit8 uninitp) L1 L2 L3
                (NoDup_distinct_originals params blocks Hl Hn)) as (d & HI & Hini).
    rewrite HI. cbn [Z.eqb negb].
    pose proof (ready_counts params blocks d Hv Hl Hini) as (HN0 & HOC & Hsum).
    pose proof Hini as (HP & _ & HRC & _).
    (* a supplied recovery block is one of the recovery rows *)
    assert (Hrow : forall b, In b blocks -> OriginalCount params <= int_of (Index b) ->
              exists i, 0 <= i < dec_RecoveryCount d /\
                        blk blocks (loadp (Recovery d) i) = b).
    { intros b Hin Hx.
      destruct (In_nth _ _ {| Block := []; Index := x00 |} Hin) as (q & Hq & En).
      assert (Hp : In (Z.of_nat q)
                     (recoveries_of params blocks (OriginalCount params))).
      { apply in_recoveries_of. split; [lia|].
        unfold block_index, blk. rewrite Nat2Z.id, En. exact Hx. }
      destruct (In_nth _ _ (-1) Hp) as (i & Hi' & Ei).
      exists (Z.of_nat i). split; [lia|].
      rewrite (ready_recovery_nth params blocks d Hl Hini) by lia.
      rewrite Nat2Z.id, Ei. unfold blk. now rewrite Nat2Z.id. }
    assert (Hfin : forall bl' X,
              rows_are d blocks bl' (fun i => load (ErasuresIndices d) i) X ->
              (forall i p, 0 <= i < dec_RecoveryCount d ->
                 (p < Z.to_nat (BlockBytes (Params d)))%nat ->
                 cancelled d blocks (Z.to_nat (dec_OriginalCount d)) i p
                 = zsum (fun c => gf256_mul (solve_G blocks d i c) (X c p)) 0
                     (dec_RecoveryCount d)) ->
              length bl' = length blocks /\
              (forall r, 0 <= r < OriginalCount params ->
                 exists b, In b bl' /\ int_of (Index b) = r) /\
              forall originals' out enc,
                (forall b, In b bl' ->
                   Block (blk originals' (int_of (Index b))) = Block b) ->
                length out = Z.to_nat (RecoveryCount params * BlockBytes params) ->
                cm256_encode params (Some originals') (Some out) = (0, Some enc) ->
                forall b, In b blocks -> OriginalCount params <= int_of (Index b) ->
                  recovery_shard params enc (int_of (Index b) - OriginalCount params)
                  = Block b).
    { intros bl' X Hrows Hrel.
      split; [apply Hrows|].
      split; [exact (rows_indices params blocks d Hv Hl Hini bl' X Hrows)|].
      intros originals' out enc Horig Hlo Henc b Hin Hx.
      destruct (encode_facts params originals' out enc Hv Hlo Henc)
        as (_ & Hrl & Hbytes).
      destruct (Hrow b Hin Hx) as (i & Hi' & Eb).
      assert (Hbytes' : forall r p, 0 <= r < RecoveryCount params ->
                (p < Z.to_nat (BlockBytes params))%nat ->
                byte_at (recovery_shard params enc r) p
                = recovery_byte params originals' (OriginalCount params + r) p).
      { intros r p Hr Hp. rewrite Hbytes by assumption.
        destruct (Z.eqb_spec (OriginalCount params) 1); [contradiction|reflexivity]. }
      pose proof (reencode_rows params blocks d Hv Hl Hn Hini Hlen bl' X originals' enc
                    Hrows Hrel Horig Hrl Hbytes' i Hi') as Hre.
      unfold rec_x in Hre. rewrite Eb in Hre. apply Hre. now apply Hb. }
    destruct (Z.leb_spec (dec_RecoveryCount d) 0) as [HN|HN].
    + exists blocks. split; [reflexivity|].
      apply (Hfin blocks (fun _ _ => x00)).
      * split; [reflexivity|]. split; [reflexivity|]. intros i Hi'. lia.
      * intros i p Hi'. lia.
    + destruct (Z.eqb_spec (RecoveryCount params) 1) as [Hm1|Hm1].
      * exists (DecodeM1 d blocks). split; [reflexivity|].
        assert (Hx : forall i, 0 <= i < dec_RecoveryCount d ->
                  int_of (rec_x d blocks i) = OriginalCount params).
        { intros i Hi'.
          pose proof (rec_x_ge params blocks d Hl Hini i Hi').
          destruct (ready_recovery params blocks d Hl Hini i Hi') as [Hp _].
          assert (Hin : In (blk blocks (loadp (Recovery d) i)) blocks)
            by (unfold blk; apply nth_In; lia).
          destruct (Hb _ Hin) as [_ Hlt]. unfold rec_x in *. lia. }
        assert (HN1 : dec_RecoveryCount d = 1).
        { destruct (Z.le_gt_cases (dec_RecoveryCount d) 1); [lia|exfalso].
          assert (E : rec_x d blocks 0 = rec_x d blocks 1)
            by (apply int_of_inj; rewrite !Hx by lia; reflexivity).
          apply (rec_x_inj params blocks d Hl Hn Hini) in E; lia. }
        destruct (DecodeM1_any params blocks d Hv Hl Hini Hlen HN1 (Hx 0 ltac:(lia)))
          as (X & Hrows & Hrel).
        exact (Hfin _ X Hrows Hrel).
      * exists (Decode uninit8 d blocks). split; [reflexivity|].
        destruct (Decode_any uninit8 params blocks d Hv Hl Hn Hini Hlen ltac:(lia))
          as (X & Hrows & Hrel).
        exact (Hfin _ X Hrows Hrel).
Qed.

Lemma decode_then_encode_witness :
  exists blocks',
    cm256_decode (fun _ => x00) (fun _ => 0) rt_params (Some any_blocks)
    = (0, Some blocks') /\
    length blocks' = length any_blocks /\
    (forall r, 0 <= r < OriginalCount rt_params ->
       exists b, In b blocks' /\ int_of (Index b) = r) /\
    forall originals' out enc,
      (forall b, In b blocks' -> Block (blk originals' (int_of (Index b))) = Block b) ->
      length out = Z.to_nat (RecoveryCount rt_params * BlockBytes rt_params) ->
      cm256_encode rt_params (Some originals') (Some out) = (0, Some enc) ->
      forall b, In b any_blocks -> OriginalCount rt_params <= int_of (Index b) ->
        recovery_shard rt_params enc (int_of (Index b) - OriginalCount rt_params)
        = Block b.
Proof.
  apply (decode_then_encode (fun _ => x00) (fun _ => 0) rt_params any_blocks rt_valid).
  - reflexivity.
  - unfold any_blocks. cbn [map Index].
    repeat constructor; cbn [In]; intuition discriminate.
  - intros b [<- | [<- | [<- | []]]];
      (split; [reflexivity|vm_compute; reflexivity]).
Defined.


(** * The shortcut for one recovery block *)

(** The rows determine the blocks. *)
Lemma rows_unique d bl0 bl1 bl2 I V :
  rows_are d bl0 bl1 I V -> rows_are d bl0 bl2 I V -> bl1 = bl2.
Proof.
  intros (Hl1 & Hf1 & Hr1) (Hl2 & Hf2 & Hr2).
  apply (nth_ext _ _ {| Block := []; Index := x00 |} {| Block := []; Index := x00 |});
    [congruence|].
  intros n Hn. rewrite <- (Nat2Z.id n).
  change (blk bl1 (Z.of_nat n) = blk bl2 (Z.of_nat n)).
  destruct (existsb (fun i => loadp (Recovery d) i =? Z.of_nat n)
              (zrange (dec_RecoveryCount d))) eqn:E.
  - apply existsb_exists in E. destruct E as (i & Hi & E).
    apply in_zrange in Hi. apply Z.eqb_eq in E. rewrite <- E.
    destruct (Hr1 i Hi) as (EI1 & EL1 & EB1). destruct (Hr2 i Hi) as (EI2 & EL2 & EB2).
    rewrite <- (block_eta (blk bl1 _)), <- (block_eta (blk bl2 _)). f_equal.
    + apply list_eq_byte_at; [congruence|]. intros p Hp.
      rewrite EB1, EB2 by lia. reflexivity.
    + congruence.
  - rewrite Hf1, Hf2; try lia; try reflexivity;
      intros i Hi Eq;
      (assert (Ht : existsb (fun i => loadp (Recovery d) i =? Z.of_nat n)
                      (zrange (dec_RecoveryCount d)) = true)
         by (apply existsb_exists; exists i; split;
             [now apply in_zrange | now apply Z.eqb_eq]));
      congruence.
Qed.

(** The second original and the parity block of two originals. *)
Definition m1_params : cm256_encoder_params :=
  {| OriginalCount := 2; RecoveryCount := 1; BlockBytes := 2 |}.

Definition m1_blocks : list cm256_block :=
  [ {| Block := [x9c; x3e]; Index := x02 |};
    {| Block := [x41; x42]; Index := x01 |} ].

Definition m1_decoder : CM256Decoder :=
  snd (Initialize (kmalloc_CM256Decoder (fun _ => x00) (fun _ => 0)) m1_params m1_blocks).

(** X16. With one erasure and the parity block (index [k]) as the recovery
    block, the shortcut [DecodeM1] leaves exactly the blocks that the
    general solver [Decode] leaves, whatever the buffers hold: the branch
    of [cm256_decode] on [RecoveryCount == 1] changes no result. *)
Theorem DecodeM1_agrees_with_Decode :
  forall uninit8 params blocks decoder0 decoder,
    valid_params params ->
    length blocks = Z.to_nat (OriginalCount params) ->
    NoDup (map Index blocks) ->
    (forall b, In b blocks -> length (Block b) = Z.to_nat (BlockBytes params)) ->
    length (Recovery decoder0) = 256%nat ->
    length (Original decoder0) = 256%nat ->
    length (ErasuresIndices decoder0) = 256%nat ->
    Initialize decoder0 params blocks = (0, decoder) ->
    dec_RecoveryCount decoder = 1 ->
    int_of (Index (blk blocks (loadp (Recovery decoder) 0))) = OriginalCount params ->
    Decode uninit8 decoder blocks = DecodeM1 decoder blocks.
Proof.
  intros uninit8 params blocks decoder0 d Hv Hl Hn Hb HLR HLO HLE HI HN Hx.
  pose proof Hv as (Hk & Hm & HB & Hkm).
  destruct (Initialize_distinct params blocks ltac:(lia) decoder0 HLR HLO HLE
              (NoDup_distinct_originals params blocks Hl Hn)) as (d' & HI' & Hini).
  rewrite HI in HI'. injection HI' as <-.
  assert (Hlen : forall p, 0 <= p < OriginalCount params ->
            length (Block (blk blocks p)) = Z.to_nat (BlockBytes params)).
  { intros p Hp. apply Hb. unfold blk. apply nth_In. lia. }
  destruct (Decode_any uninit8 params blocks d Hv Hl Hn Hini Hlen ltac:(lia))
    as (X & Hrows & Hrel).
  destruct (DecodeM1_any params blocks d Hv Hl Hini Hlen HN Hx)
    as (X' & Hrows' & Hrel').
  apply (rows_unique d blocks _ _ (fun i => load (ErasuresIndices d) i) X');
    [|exact Hrows'].
  eapply rows_are_ext; [exact Hrows|reflexivity|].
  intros i p Hi Hp. assert (i = 0) by lia. subst i.
  specialize (Hrel 0 p ltac:(lia) Hp). specialize (Hrel' 0 p ltac:(lia) Hp).
  rewrite Hrel in Hrel'. rewrite HN in Hrel'.
  rewrite !(zsum_first _ 0 1), !zsum_nil in Hrel' by lia.
  assert (Eg : solve_G blocks d 0 0 = x01).
  { unfold solve_G.
    replace (rec_x d blocks 0) with (norm_x0 d).
    - apply GetMatrixElement_first_row.
      apply (ready_x0y params blocks d Hv Hl Hini 0%nat). lia.
    - rewrite (ready_x0 params blocks d Hini). unfold rec_x. rewrite <- Hx.
      apply u8_int_of. }
  rewrite Eg in Hrel'.
  transitivity (gf256_add (gf256_mul x01 (X 0 p)) x00); [ring|].
  rewrite Hrel'. ring.
Qed.

Lemma DecodeM1_agrees_with_Decode_witness :
  Decode (fun _ => x00) m1_decoder m1_blocks = DecodeM1 m1_decoder m1_blocks.
Proof.
  apply (DecodeM1_agrees_with_Decode (fun _ => x00) m1_params m1_blocks
           (kmalloc_CM256Decoder (fun _ => x00) (fun _ => 0)) m1_decoder).
  - unfold valid_params; simpl; lia.
  - reflexivity.
  - unfold m1_blocks. cbn [map Index].
    repeat constructor; cbn [In]; intuition discriminate.
  - intros b [<- | [<- | []]]; reflexivity.
  - reflexivity.
  - reflexivity.
  - reflexivity.
  - vm_compute. reflexivity.
  - vm_compute. reflexivity.
  - vm_compute. reflexivity.
Defined.


(** * The denominators of the matrix elements *)

(** ** The callers of the generator, with the generator as a parameter *)

Section Generator.

(** [element] stands at each place where the C code calls
    [GetMatrixElement]; everything else is [cm256_encode_block] and
    [Decode] as above. *)
Variable element : byte -> byte -> byte -> byte.

Definition cm256_encode_block_with (params : cm256_encoder_params)
    (originals : list cm256_block) (recoveryBlockIndex : Z)
    (recoveryBlock : list byte) : list byte :=
  if OriginalCount params =? 1 then
    memcpy recoveryBlock (Block (blk originals 0)) (BlockBytes params)
  else if recoveryBlockIndex =? OriginalCount params then
    let recoveryBlock :=
      gf256_addset_mem recoveryBlock (Block (blk originals 0))
        (Block (blk originals 1)) (BlockBytes params) in
    for_up 2 (OriginalCount params)
      (fun j recoveryBlock =>
         gf256_add_mem recoveryBlock (Block (blk originals j)) (BlockBytes params))
      recoveryBlock
  else
    let x_0 := u8 (OriginalCount params) in
    let x_i := u8 recoveryBlockIndex in
    let y_0 := x00 in
    let matrixElement := element x_i x_0 y_0 in
    let recoveryBlock :=
      gf256_mul_mem recoveryBlock (Block (blk originals 0)) matrixElement
        (BlockBytes params) in
    for_up 1 (OriginalCount params)
      (fun j recoveryBlock =>
         let y_j := u8 j in
         let matrixElement := element x_i x_0 y_j in
         gf256_muladd_mem recoveryBlock matrixElement (Block (blk originals j))
           (BlockBytes params))
      recoveryBlock.

Definition Decode_with (uninit8 : nat -> byte) (decoder : CM256Decoder)
    (blocks : list cm256_block) : list cm256_block :=
  let N := dec_RecoveryCount decoder in
  let x_0 := u8 (OriginalCount (Params decoder)) in
  let stackMatrix := uninit_bytes uninit8 (Z.to_nat StackAllocSize) in
  let blocks :=
    for_up 0 (dec_OriginalCount decoder)
      (fun originalIndex blocks =>
         let inBlock := loadp (Original decoder) originalIndex in
         let inRow := Index (blk blocks inBlock) in
         for_up 0 N
           (fun recoveryIndex blocks =>
              let outBlock := loadp (Recovery decoder) recoveryIndex in
              let x_i := Index (blk blocks outBlock) in
              let y_j := inRow in
              let matrixElement := element x_i x_0 y_j in
              set_Block blocks outBlock
                (gf256_muladd_mem (Block (blk blocks outBlock)) matrixElement
                   (Block (blk blocks inBlock)) (BlockBytes (Params decoder))))
           blocks)
      blocks in
  let requiredSpace := N * N in
  let matrix :=
    if requiredSpace >? StackAllocSize
    then uninit_bytes uninit8 (Z.to_nat requiredSpace)
    else stackMatrix in
  let matrix_U := 0 in
  let diag_D := matrix_U + Z.quot ((N - 1) * N) 2 in
  let matrix_L := diag_D + N in
  let matrix :=
    GenerateLDUDecomposition uninit8 decoder blocks matrix matrix_L diag_D matrix_U in
  let '(blocks, matrix_L) :=
    for_up 0 (N - 1)
      (fun j st =>
         let block_j := loadp (Recovery decoder) j in
         for_up (j + 1) N
           (fun i '(blocks, matrix_L) =>
              let block_i := loadp (Recovery decoder) i in
              let c_ij := load matrix matrix_L in
              (set_Block blocks block_i
                 (gf256_muladd_mem (Block (blk blocks block_i)) c_ij
                    (Block (blk blocks block_j)) (BlockBytes (Params decoder))),
               matrix_L + 1))
           st)
      (blocks, matrix_L) in
  let blocks :=
    for_up 0 N
      (fun i blocks =>
         let block := loadp (Recovery decoder) i in
         let blocks := set_Index blocks block (load (ErasuresIndices decoder) i) in
         set_Block blocks block
           (gf256_div_mem (Block (blk blocks block)) (Block (blk blocks block))
              (load matrix (diag_D + i)) (BlockBytes (Params decoder))))
      blocks in
  let '(blocks, matrix_U) :=
    for_down (N - 1) 1
      (fun j st =>
         let block_j := loadp (Recovery decoder) j in
         for_down (j - 1) 0
           (fun i '(blocks, matrix_U) =>
              let block_i := loadp (Recovery decoder) i in
              let c_ij := load matrix matrix_U in
              (set_Block blocks block_i
                 (gf256_muladd_mem (Block (blk blocks block_i)) c_ij
                    (Block (blk blocks block_j)) (BlockBytes (Params decoder))),
               matrix_U + 1))
           st)
      (blocks, matrix_U) in
  blocks.

End Generator.

(** With [GetMatrixElement] for the generator these are the functions of the
    code. *)
Lemma cm256_encode_block_with_GetMatrixElement params originals idx recoveryBlock :
  cm256_encode_block_with GetMatrixElement params originals idx recoveryBlock
  = cm256_encode_block params originals idx recoveryBlock.
Proof. reflexivity. Qed.

Lemma Decode_with_GetMatrixElement uninit8 decoder blocks :
  Decode_with GetMatrixElement uninit8 decoder blocks = Decode uninit8 decoder blocks.
Proof. reflexivity. Qed.

(** A generator that gives the quotient [(y_j + x_0) / (x_i + y_j)] wherever
    the denominator is not zero, and anything where it is. *)
Definition quotient_off_zero (element : byte -> byte -> byte -> byte) : Prop :=
  forall x_i x_0 y_j,
    gf256_add x_i y_j <> x00 -> element x_i x_0 y_j = GetMatrixElement x_i x_0 y_j.

(** ** Loops whose bodies agree on the states that occur *)

Lemma for_up_ext_inv {S} (P : S -> Prop) lo hi (body body' : Z -> S -> S) s :
  P s ->
  (forall i s, lo <= i < hi -> P s -> body i s = body' i s /\ P (body' i s)) ->
  for_up lo hi body s = for_up lo hi body' s /\ P (for_up lo hi body' s).
Proof.
  intros H0 H. unfold for_up.
  remember (Z.to_nat (hi - lo)) as n eqn:En.
  revert lo s H0 H En. induction n as [|n IH]; intros lo s H0 H En; [now split|].
  simpl. destruct (H lo s ltac:(lia) H0) as [E HP]. rewrite E.
  apply IH; [assumption| |lia]. intros; apply H; [lia|assumption].
Qed.

(** ** What [Initialize] leaves when it returns 0 *)

Lemma Initialize_initialized params blocks decoder0 decoder :
  0 <= OriginalCount params <= 256 ->
  length (Recovery decoder0) = 256%nat ->
  length (Original decoder0) = 256%nat ->
  length (ErasuresIndices decoder0) = 256%nat ->
  Initialize decoder0 params blocks = (0, decoder) ->
  initialized params blocks decoder.
Proof.
  intros Hk HLR HLO HLE HI.
  assert (Hd : distinct_originals params blocks).
  { pose proof (classify_spec params blocks decoder0 HLR HLO HLE Hk) as Hc.
    rewrite Initialize_unfold in HI.
    destruct (for_up_ctl 0 (OriginalCount params) (init_classify_body params blocks) _)
      as [[b d2]|r].
    - destruct Hc as (_ & _ & _ & _ & _ & _ & _ & _ & _ & _ & Hn). exact Hn.
    - destruct Hc as [Hr _]. rewrite HI in Hr. discriminate Hr. }
  destruct (Initialize_distinct params blocks Hk decoder0 HLR HLO HLE Hd)
    as (d & E & Hini).
  rewrite HI in E. injection E as <-. exact Hini.
Qed.

(** ** The indices that [Initialize] sorts *)

(** A supplied recovery index and a supplied original index differ. *)
Lemma cancel_denominator params blocks d i j :
  length blocks = Z.to_nat (OriginalCount params) ->
  initialized params blocks d ->
  0 <= i < dec_RecoveryCount d -> 0 <= j < dec_OriginalCount d ->
  gf256_add (Index (blk blocks (loadp (Recovery d) i)))
    (Index (blk blocks (loadp (Original d) j))) <> x00.
Proof.
  intros Hl Hi Hr Hj. apply gf256_add_neq0. intros E.
  destruct (ready_recovery params blocks d Hl Hi i Hr) as [_ Hx].
  destruct (ready_original params blocks d Hl Hi j Hj) as [_ Hy].
  unfold block_index in Hx, Hy. rewrite E in Hx. lia.
Qed.

(** An [element] that differs from [GetMatrixElement] where the denominator
    is zero. *)
Definition marked_element (x_i x_0 y_j : byte) : byte :=
  if Byte.eqb (gf256_add x_i y_j) x00 then xff else GetMatrixElement x_i x_0 y_j.

Definition denominator_params : cm256_encoder_params :=
  {| OriginalCount := 4; RecoveryCount := 4; BlockBytes := 4096 |}.

(** C6.  No call of [GetMatrixElement] divides by zero.  For valid
    parameters, the denominator [x_i + y_j] of every matrix element the
    encoder asks for ([x_i = (uint8_t)(k + r)] for a row [r] below [m],
    [y_j = (uint8_t) j] for a column [j] below [k]) is not zero, and so is
    that of every matrix element the cancellation pass of [Decode] asks for
    after [Initialize] has returned 0 ([x_i] the index of a supplied
    recovery block, at least [k]; [y_j] the index of a supplied original,
    below [k]).  Hence [cm256_encode_block] and [Decode] compute the same
    with any generator in the place of [GetMatrixElement] that gives the
    same quotients for non-zero denominators: a quotient by zero is never
    taken. *)
Theorem matrix_element_denominator_nonzero :
  forall params element,
    valid_params params ->
    quotient_off_zero element ->
    (forall r j, 0 <= r < RecoveryCount params -> 0 <= j < OriginalCount params ->
       gf256_add (u8 (OriginalCount params + r)) (u8 j) <> x00) /\
    (forall originals r recoveryBlock,
       0 <= r < RecoveryCount params ->
       cm256_encode_block_with element params originals (OriginalCount params + r)
         recoveryBlock
       = cm256_encode_block params originals (OriginalCount params + r) recoveryBlock) /\
    (forall uninit8 blocks decoder0 decoder,
       length blocks = Z.to_nat (OriginalCount params) ->
       length (Recovery decoder0) = 256%nat ->
       length (Original decoder0) = 256%nat ->
       length (ErasuresIndices decoder0) = 256%nat ->
       Initialize decoder0 params blocks = (0, decoder) ->
       (forall i j,
          0 <= i < dec_RecoveryCount decoder -> 0 <= j < dec_OriginalCount decoder ->
          OriginalCount params
          <= int_of (Index (blk blocks (loadp (Recovery decoder) i))) /\
          int_of (Index (blk blocks (loadp (Original decoder) j)))
          < OriginalCount params /\
          gf256_add (Index (blk blocks (loadp (Recovery decoder) i)))
            (Index (blk blocks (loadp (Original decoder) j))) <> x00) /\
       Decode_with element uninit8 decoder blocks = Decode uninit8 decoder blocks).
Proof.
  intros params element Hv Hq. pose proof Hv as (Hk & Hm & HB & Hs).
  split; [|split].
  - intros r j Hr Hj. apply u8_add_neq0; lia.
  - intros originals r recoveryBlock Hr.
    unfold cm256_encode_block_with, cm256_encode_block.
    destruct (OriginalCount params =? 1); [reflexivity|].
    destruct (OriginalCount params + r =? OriginalCount params); [reflexivity|].
    cbv zeta. rewrite Hq by (rewrite <- u8_0; apply u8_add_neq0; lia).
    apply for_up_ext. intros j s Hj.
    rewrite Hq by (apply u8_add_neq0; lia). reflexivity.
  - intros uninit8 blocks decoder0 decoder Hl HLR HLO HLE HI.
    pose proof (Initialize_initialized params blocks decoder0 decoder ltac:(lia)
                  HLR HLO HLE HI) as Hini.
    split.
    + intros i j Hi Hj.
      destruct (ready_recovery params blocks decoder Hl Hini i Hi) as [_ Hx].
      destruct (ready_original params blocks decoder Hl Hini j Hj) as [_ Hy].
      split; [exact Hx|]. split; [exact Hy|].
      now apply (cancel_denominator params).
    + unfold Decode_with, Decode.
      (* the two cancellation passes leave the same blocks *)
      match goal with
      | |- ?L = ?R =>
          match L with
          | context [for_up 0 (dec_OriginalCount decoder) ?b1 blocks] =>
              match R with
              | context [for_up 0 (dec_OriginalCount decoder) ?b2 blocks] =>
                  assert (E : for_up 0 (dec_OriginalCount decoder) b1 blocks
                              = for_up 0 (dec_OriginalCount decoder) b2 blocks)
              end
          end
      end.
      { pose (P := fun bl : list cm256_block =>
                     forall q, 0 <= q -> Index (blk bl q) = Index (blk blocks q)).
        apply (for_up_ext_inv P); [intros q _; reflexivity|].
        intros a bl Ha HP.
        destruct (ready_original params blocks decoder Hl Hini a Ha) as [[Ho _] _].
        apply (for_up_ext_inv P); [exact HP|].
        intros ri bl' Hri HP'.
        destruct (ready_recovery params blocks decoder Hl Hini ri Hri) as [[Hp _] _].
        split.
        - cbv zeta. rewrite Hq; [reflexivity|].
          rewrite HP', HP by assumption. now apply (cancel_denominator params).
        - intros q Hq0. cbv zeta. rewrite Index_set_Block by assumption.
          now apply HP'. }
      rewrite E. reflexivity.
Qed.

Lemma marked_element_quotient : quotient_off_zero marked_element.
Proof.
  intros x_i x_0 y_j H. unfold marked_element.
  destruct (Byte.eqb (gf256_add x_i y_j) x00) eqn:E; [|reflexivity].
  apply byte_eqb_eq in E. contradiction.
Qed.

Lemma matrix_element_denominator_nonzero_witness :
  (forall r j, 0 <= r < RecoveryCount denominator_params ->
     0 <= j < OriginalCount denominator_params ->
     gf256_add (u8 (OriginalCount denominator_params + r)) (u8 j) <> x00) /\
  (forall originals r recoveryBlock,
     0 <= r < RecoveryCount denominator_params ->
     cm256_encode_block_with marked_element denominator_params originals
       (OriginalCount denominator_params + r) recoveryBlock
     = cm256_encode_block denominator_params originals
         (OriginalCount denominator_params + r) recoveryBlock) /\
  (forall uninit8 blocks decoder0 decoder,
     length blocks = Z.to_nat (OriginalCount denominator_params) ->
     length (Recovery decoder0) = 256%nat ->
     length (Original decoder0) = 256%nat ->
     length (ErasuresIndices decoder0) = 256%nat ->
     Initialize decoder0 denominator_params blocks = (0, decoder) ->
     (forall i j,
        0 <= i < dec_RecoveryCount decoder -> 0 <= j < dec_OriginalCount decoder ->
        OriginalCount denominator_params
        <= int_of (Index (blk blocks (loadp (Recovery decoder) i))) /\
        int_of (Index (blk blocks (loadp (Original decoder) j)))
        < OriginalCount denominator_params /\
        gf256_add (Index (blk blocks (loadp (Recovery decoder) i)))
          (Index (blk blocks (loadp (Original decoder) j))) <> x00) /\
     Decode_with marked_element uninit8 decoder blocks = Decode uninit8 decoder blocks).
Proof.
  apply (matrix_element_denominator_nonzero denominator_params marked_element).
  - unfold valid_params; simpl; lia.
  - exact marked_element_quotient.
Defined.
